(** * pysigma: the condition compiler and the rule-evaluation driver

    A shallow embedding of [pysigma/parser.py] and [pysigma/pysigma.py].

    - The condition grammar is parsed by Lark's LALR(1) parser with its
      contextual lexer; the [FactoryTransformer] callbacks run inside the
      parser, at every reduction.  The embedding is a deterministic
      descent over the productions of the grammar in which every point
      names the terminals the LALR state accepts there, and in which a
      callback runs only once the look-ahead token has been read.
    - Python values handled by the callbacks are a sum type ([value]); the
      run-time checks of the callbacks ([callable], [isinstance], tuple
      unpacking) are kept.
    - The rule registry is a Python [dict]: an insertion-ordered
      association list. *)

From Stdlib Require Import String Ascii List ZArith Bool Arith Lia.
Import ListNotations.

Set Warnings "-register-all".
Open Scope string_scope.

(* ================================================================== *)
(** * Strings *)

Module Str.

Fixpoint spaces (n : nat) : string :=
  match n with
  | O => ""
  | S n' => String " " (spaces n')
  end.

(** Longest prefix whose characters satisfy [p], and the rest. *)
Fixpoint span (p : ascii -> bool) (s : string) : string * string :=
  match s with
  | "" => ("", "")
  | String c r =>
      if p c then let (w, rest) := span p r in (String c w, rest)
      else ("", s)
  end.

Fixpoint forallb (p : ascii -> bool) (s : string) : bool :=
  match s with
  | "" => true
  | String c r => p c && forallb p r
  end.

(** [strip_prefix p s] is [Some r] when [s = p ++ r]. *)
Fixpoint strip_prefix (p s : string) : option string :=
  match p with
  | "" => Some s
  | String a p' =>
      match s with
      | String b s' => if Ascii.eqb a b then strip_prefix p' s' else None
      | "" => None
      end
  end.

Fixpoint drop_spaces (s : string) : string :=
  match s with
  | String " " r => drop_spaces r
  | _ => s
  end.

(** Python's [sep.join(parts)]. *)
Definition join (sep : string) (parts : list string) : string :=
  String.concat sep parts.

End Str.

(* ================================================================== *)
(** * Character classes of the grammar's regular expressions *)

Definition in_range (lo hi c : ascii) : bool :=
  Nat.leb (nat_of_ascii lo) (nat_of_ascii c)
  && Nat.leb (nat_of_ascii c) (nat_of_ascii hi).

Definition is_letter (c : ascii) : bool :=
  in_range "a"%char "z"%char c || in_range "A"%char "Z"%char c.

Definition is_digit (c : ascii) : bool := in_range "0"%char "9"%char c.

Definition is_nonzero_digit (c : ascii) : bool := in_range "1"%char "9"%char c.

(** [[a-zA-Z_]] *)
Definition is_id_start (c : ascii) : bool :=
  is_letter c || Ascii.eqb c "_"%char.

(** [[a-zA-Z0-9_]] *)
Definition is_id_char (c : ascii) : bool :=
  is_letter c || is_digit c || Ascii.eqb c "_"%char.

(** [[a-zA-Z0-9*_]] *)
Definition is_pattern_char (c : ascii) : bool :=
  is_id_char c || Ascii.eqb c "*"%char.

(* ================================================================== *)
(** * Terminals of the grammar *)

(** The named terminals of the grammar, the anonymous terminal of
    [search_pattern], and the anonymous string literals used in rules.
    [T_END] is the end-of-input token the parser receives when the lexer
    is exhausted. *)
Inductive terminal : Type :=
| SEARCH_ID | NUMBER | ALL | OF | THEM | PATTERN
| GT | LT | EQ
| COUNT | MIN | MAX | AVG | SUM
| NOT | KW_not | KW_and | KW_AND | KW_or | KW_OR
| LPAR | RPAR | VBAR | BY | NEAR
| T_END.

Definition terminal_eq_dec (a b : terminal) : {a = b} + {a <> b}.
Proof. decide equality. Defined.

Definition terminal_eqb (a b : terminal) : bool :=
  if terminal_eq_dec a b then true else false.

(** The text of a string terminal ([PatternStr]); [None] for the three
    regular-expression terminals and the end token. *)
Definition literal (t : terminal) : option string :=
  match t with
  | SEARCH_ID | NUMBER | PATTERN | T_END => None
  | ALL => Some "all"
  | OF => Some "of"
  | THEM => Some "them"
  | GT => Some ">"
  | LT => Some "<"
  | EQ => Some "="
  | COUNT => Some "count"
  | MIN => Some "min"
  | MAX => Some "max"
  | AVG => Some "avg"
  | SUM => Some "sum"
  | NOT => Some "NOT"
  | KW_not => Some "not"
  | KW_and => Some "and"
  | KW_AND => Some "AND"
  | KW_or => Some "or"
  | KW_OR => Some "OR"
  | LPAR => Some "("
  | RPAR => Some ")"
  | VBAR => Some "|"
  | BY => Some "by"
  | NEAR => Some "near"
  end.

(** A greedy match of [first rest*] at the start of [s]. *)
Definition match_class (first rest : ascii -> bool) (s : string)
  : option (string * string) :=
  match s with
  | String c r =>
      if first c then let (w, r') := Str.span rest r in Some (String c w, r')
      else None
  | "" => None
  end.

(** The matcher of a regular-expression terminal ([PatternRE]):
    [SEARCH_ID: /[a-zA-Z_][a-zA-Z0-9_]*/], [NUMBER: /[1-9][0-9]*/],
    [search_pattern: /[a-zA-Z_][a-zA-Z0-9*_]*/]. *)
Definition regexp (t : terminal) : option (string -> option (string * string)) :=
  match t with
  | SEARCH_ID => Some (match_class is_id_start is_id_char)
  | NUMBER => Some (match_class is_nonzero_digit is_digit)
  | PATTERN => Some (match_class is_id_start is_pattern_char)
  | _ => None
  end.

(* ================================================================== *)
(** * Failures *)

(** What a call can raise.  [UnexpectedInput] is Lark's family of
    syntax errors ([UnexpectedCharacters], [UnexpectedToken]);
    [UnsupportedFeature] is pysigma's own exception; the others are the
    Python built-ins the callbacks can raise.  [OutOfFuel] belongs to the
    embedding only: the descent is bounded by the length of the text,
    and [parse_total] shows that the bound is never reached. *)
Inductive error : Type :=
| UnexpectedInput
| UnsupportedFeature (msg : string)
| ValueError
| AssertionError
| AttributeError
| IndexError
| TypeError
| OutOfFuel.

Inductive result (A : Type) : Type :=
| Ok (a : A)
| Err (e : error).
Arguments Ok {A} a.
Arguments Err {A} e.

Definition bind {A B : Type} (r : result A) (k : A -> result B) : result B :=
  match r with
  | Ok a => k a
  | Err e => Err e
  end.

Declare Scope result_scope.
Delimit Scope result_scope with result.
Notation "x <- r ;; k" := (bind r (fun x => k))
  (at level 61, r at next level, right associativity) : result_scope.
Notation "' p <- r ;; k" := (bind r (fun p => k))
  (at level 61, p pattern, r at next level, right associativity) : result_scope.
Open Scope result_scope.

(* ================================================================== *)
(** * The contextual lexer *)

(** A token: its terminal and the matched text. *)
Record token : Type := Token { tok_type : terminal; tok_value : string }.

Module Lexer.

(** Does the regular expression of [re] match the whole of [w]? *)
Definition full_match (re : terminal) (w : string) : bool :=
  match regexp re with
  | Some m => match m w with
              | Some (_, "") => true
              | _ => false
              end
  | None => false
  end.

(** The string terminals of a lexer that its regular-expression
    terminal [re] also matches: a match of [re] whose text is one of
    them takes that terminal's type instead. *)
Definition unless (accepts : list terminal) (re : terminal) : list terminal :=
  filter (fun t => match literal t with
                   | Some l => full_match re l
                   | None => false
                   end) accepts.

(** Such string terminals are left out of the scanner itself. *)
Definition embedded (accepts : list terminal) (t : terminal) : bool :=
  existsb (fun re => existsb (terminal_eqb t) (unless accepts re)) accepts.

Definition unless_callback (accepts : list terminal) (re : terminal)
           (w : string) : terminal :=
  match find (fun t => match literal t with
                       | Some l => String.eqb l w
                       | None => false
                       end) (unless accepts re) with
  | Some t => t
  | None => re
  end.

(** The scanner: the first alternative, in the order of [alts], that
    matches at the start of [s]. *)
Fixpoint scan (accepts alts : list terminal) (s : string)
  : option (token * string) :=
  match alts with
  | [] => None
  | t :: alts' =>
      match regexp t with
      | Some m =>
          match m s with
          | Some (w, r) => Some (Token (unless_callback accepts t w) w, r)
          | None => scan accepts alts' s
          end
      | None =>
          match literal t with
          | Some l =>
              if embedded accepts t then scan accepts alts' s
              else match Str.strip_prefix l s with
                   | Some r => Some (Token t l, r)
                   | None => scan accepts alts' s
                   end
          | None => scan accepts alts' s
          end
      end
  end.

(** The next token in a parser state that accepts [accepts]: blanks
    are ignored ([%ignore " "]), the end of the text gives the end
    token, anything the state's scanner does not match is a syntax
    error. *)
Definition next_token (accepts : list terminal) (s : string)
  : result (token * string) :=
  match Str.drop_spaces s with
  | "" =>
      if existsb (terminal_eqb T_END) accepts
      then Ok (Token T_END "", "")
      else Err UnexpectedInput
  | s' =>
      match scan accepts accepts s' with
      | Some r => Ok r
      | None => Err UnexpectedInput
      end
  end.

End Lexer.

(** The terminals each LALR state of the grammar accepts, named after
    what has just been read, in the order in which the scanner of the
    state tries them: regular expressions first, then strings, the
    longest first. *)
Module Accepts.
Definition atom_start : list terminal := [SEARCH_ID; NUMBER; ALL; NOT; KW_not; LPAR].
Definition after_not : list terminal := [SEARCH_ID; NUMBER; ALL; LPAR].
Definition after_atom : list terminal := [KW_and; KW_AND; KW_or; KW_OR; RPAR; VBAR; T_END].
Definition after_x : list terminal := [OF].
Definition after_of : list terminal := [PATTERN; THEM].
Definition after_pipe : list terminal := [COUNT; NEAR; AVG; MAX; MIN; SUM].
Definition after_function : list terminal := [LPAR].
Definition after_function_lpar : list terminal := [SEARCH_ID; RPAR].
Definition after_field : list terminal := [RPAR].
Definition after_function_rpar : list terminal := [BY; EQ; GT; LT].
Definition after_by : list terminal := [SEARCH_ID].
Definition after_group : list terminal := [EQ; GT; LT].
Definition after_comparison : list terminal := [NUMBER].
Definition after_value : list terminal := [RPAR; T_END].
End Accepts.

(* ================================================================== *)
(** * [parser.py]: the transformer and the parser *)

Module Parser.

Section Compiler.

(** The rule object and the normalised event are opaque to the
    compiler; the two resolvers of [sigma_scan] are its collaborators. *)
Context {Signature Event : Type}.
Variable match_search_id : Signature -> Event -> string -> bool.
Variable analyze_x_of : Signature -> Event -> option Z -> option string -> bool.

(** A compiled condition, called as [condition(rule_obj, event)]. *)
Definition predicate : Type := Signature -> Event -> bool.

(** The values the callbacks receive and return.  A Lark [Token] is a
    subclass of [str]. *)
Inductive value : Type :=
| VNone
| VStr (s : string)
| VToken (t : token)
| VTree (data : string) (children : list value)
| VFun (f : predicate).

Definition callable (v : value) : bool :=
  match v with
  | VFun _ => true
  | _ => false
  end.

Definition is_none (v : value) : bool :=
  match v with
  | VNone => true
  | _ => false
  end.

(** [isinstance(v, str)]: the text, for a [str] and for a [Token]. *)
Definition as_str (v : value) : option string :=
  match v with
  | VStr s => Some s
  | VToken t => Some (tok_value t)
  | _ => None
  end.

(** [args[i]] *)
Definition item (args : list value) (i : nat) : result value :=
  match nth_error args i with
  | Some v => Ok v
  | None => Err IndexError
  end.

(** [v.value], [v.type], [v.children] *)
Definition get_value (v : value) : result string :=
  match v with
  | VToken t => Ok (tok_value t)
  | _ => Err AttributeError
  end.

Definition get_type (v : value) : result terminal :=
  match v with
  | VToken t => Ok (tok_type t)
  | _ => Err AttributeError
  end.

Definition get_children (v : value) : result (list value) :=
  match v with
  | VTree _ ch => Ok ch
  | _ => Err AttributeError
  end.

(** [int(text)] on decimal digits. *)
Fixpoint int_digits (acc : Z) (s : string) : result Z :=
  match s with
  | "" => Ok acc
  | String c r =>
      if is_digit c
      then int_digits (10 * acc + (Z.of_nat (nat_of_ascii c) - 48))%Z r
      else Err ValueError
  end.

Definition int (s : string) : result Z :=
  match s with
  | "" => Err ValueError
  | _ => int_digits 0%Z s
  end.

(** The predicates stored in a list of values already checked to be
    callable. *)
Fixpoint functions (args : list value) : list predicate :=
  match args with
  | [] => []
  | VFun f :: r => f :: functions r
  | _ :: r => functions r
  end.

Fixpoint _and_operation (args : list predicate) (sig : Signature) (ev : Event) : bool :=
  match args with
  | [] => true
  | component :: rest =>
      if negb (component sig ev) then false
      else _and_operation rest sig ev
  end.

Fixpoint _or_operation (args : list predicate) (sig : Signature) (ev : Event) : bool :=
  match args with
  | [] => false
  | component :: rest =>
      if component sig ev then true
      else _or_operation rest sig ev
  end.

(** ** [FactoryTransformer] *)

Definition start (args : list value) : result value := item args 0.

Definition match_hits (name : string) : predicate :=
  fun signature event => match_search_id signature event name.

Definition search_id (args : list value) : result value :=
  a0 <- item args 0;;
  name <- get_value a0;;
  Ok (VFun (match_hits name)).

Definition search_pattern (args : list value) : result value :=
  a0 <- item args 0;;
  v <- get_value a0;;
  Ok (VStr v).

Definition atom (args : list value) : result value :=
  if negb (forallb callable args) then Err ValueError
  else item args 0.

Definition _negate (value : predicate) : predicate :=
  fun signature event => negb (value signature event).

(** [negate, value = args] raises a [ValueError] unless [args] holds
    two values. *)
Definition not_rule (args : list value) : result value :=
  match args with
  | [negate; VFun value] =>
      if is_none negate then Ok (VFun value)
      else Ok (VFun (_negate value))
  | [_; _] => Err AssertionError
  | _ => Err ValueError
  end.

Definition and_rule (args : list value) : result value :=
  if negb (forallb callable args) then Err ValueError
  else if Nat.eqb (List.length args) 1 then item args 0
  else Ok (VFun (_and_operation (functions args))).

Definition or_rule (args : list value) : result value :=
  if negb (forallb callable args) then Err ValueError
  else if Nat.eqb (List.length args) 1 then item args 0
  else Ok (VFun (_or_operation (functions args))).

Definition pipe_rule (args : list value) : result value := item args 0.

Definition _check_of_sections (count : option Z) (selector : option string)
  : predicate :=
  fun signature event => analyze_x_of signature event count selector.

(** [isinstance(args[2], str)] holds for the [str] that
    [search_pattern] returns and for the [Token] of THEM alike; the
    test of the type of the token comes second. *)
Definition x_of (args : list value) : result value :=
  a0 <- item args 0;;
  ch <- get_children a0;;
  c0 <- item ch 0;;
  ty <- get_type c0;;
  count <- (if terminal_eqb ty NUMBER
            then (v <- get_value c0;; n <- int v;; Ok (Some n))
            else Ok None);;
  a2 <- item args 2;;
  selector <- match as_str a2 with
              | Some s => Ok (Some s)
              | None =>
                  ty2 <- get_type a2;;
                  if terminal_eqb ty2 THEM then Ok None else Err ValueError
              end;;
  Ok (VFun (_check_of_sections count selector)).

Definition aggregation_expression (args : list value) : result value :=
  Err (UnsupportedFeature "Aggregation expressions not supported.").

Definition near_aggregation (args : list value) : result value :=
  Err (UnsupportedFeature "Near operation not supported.").

(** A rule without a callback builds a [Tree]. *)
Definition tree (data : string) (args : list value) : result value :=
  Ok (VTree data args).

(** ** The parser

    One function per production.  Every call of [Lexer.next_token]
    names the terminals of the LALR state reached at that point; a
    callback runs after the look-ahead token has been read, as a
    reduction does. *)

Definition parser_out : Type := result (value * string).

Definition look_ahead (accepts : list terminal) (s : string) : result terminal :=
  '(t, _) <- Lexer.next_token accepts s;; Ok (tok_type t).

Section Productions.

(** [pipe_rule] for the text between parentheses. *)
Variable pipe_rec : string -> parser_out.

(** [x_of: x OF (THEM | search_pattern)], [x: ALL | NUMBER];
    [x] has been read. *)
Definition parse_x_of (x : token) (s : string) : parser_out :=
  '(t_of, s1) <- Lexer.next_token Accepts.after_x s;;
  xv <- tree "x" [VToken x];;
  '(t, s2) <- Lexer.next_token Accepts.after_of s1;;
  _ <- look_ahead Accepts.after_atom s2;;
  y <- match tok_type t with
       | THEM => Ok (VToken t)
       | _ => search_pattern [VToken t]
       end;;
  v <- x_of [xv; VToken t_of; y];;
  Ok (v, s2).

(** [atom: x_of | search_id | "(" pipe_rule ")"] *)
Definition parse_atom (accepts : list terminal) (s : string) : parser_out :=
  '(t, s1) <- Lexer.next_token accepts s;;
  match tok_type t with
  | SEARCH_ID =>
      _ <- look_ahead Accepts.after_atom s1;;
      v <- search_id [VToken t];;
      a <- atom [v];;
      Ok (a, s1)
  | ALL | NUMBER =>
      '(v, s2) <- parse_x_of t s1;;
      a <- atom [v];;
      Ok (a, s2)
  | LPAR =>
      '(v, s2) <- pipe_rec s1;;
      '(t2, s3) <- Lexer.next_token Accepts.after_atom s2;;
      match tok_type t2 with
      | RPAR =>
          _ <- look_ahead Accepts.after_atom s3;;
          a <- atom [v];;
          Ok (a, s3)
      | _ => Err UnexpectedInput
      end
  | _ => Err UnexpectedInput
  end.

(** [not_rule: [not] atom], [not: "NOT" | "not"] *)
Definition parse_not_rule (s : string) : parser_out :=
  '(t, s1) <- Lexer.next_token Accepts.atom_start s;;
  match tok_type t with
  | NOT | KW_not =>
      negate <- tree "not" [];;
      '(a, s2) <- parse_atom Accepts.after_not s1;;
      v <- not_rule [negate; a];;
      Ok (v, s2)
  | _ =>
      '(a, s2) <- parse_atom Accepts.atom_start s;;
      v <- not_rule [VNone; a];;
      Ok (v, s2)
  end.

(** [(("and"|"AND") not_rule)*]: [k] bounds the number of
    repetitions. *)
Fixpoint and_loop (k : nat) (args : list value) (s : string) : parser_out :=
  '(t, s1) <- Lexer.next_token Accepts.after_atom s;;
  match tok_type t with
  | KW_and | KW_AND =>
      match k with
      | O => Err OutOfFuel
      | S k' =>
          '(v, s2) <- parse_not_rule s1;;
          and_loop k' (args ++ [v])%list s2
      end
  | _ =>
      v <- and_rule args;;
      Ok (v, s)
  end.

(** [and_rule: not_rule (("and"|"AND") not_rule)*] *)
Definition parse_and_rule (s : string) : parser_out :=
  '(v, s1) <- parse_not_rule s;;
  and_loop (String.length s1) [v] s1.

Fixpoint or_loop (k : nat) (args : list value) (s : string) : parser_out :=
  '(t, s1) <- Lexer.next_token Accepts.after_atom s;;
  match tok_type t with
  | KW_or | KW_OR =>
      match k with
      | O => Err OutOfFuel
      | S k' =>
          '(v, s2) <- parse_and_rule s1;;
          or_loop k' (args ++ [v])%list s2
      end
  | _ =>
      v <- or_rule args;;
      Ok (v, s)
  end.

(** [or_rule: and_rule (("or"|"OR") and_rule)*] *)
Definition parse_or_rule (s : string) : parser_out :=
  '(v, s1) <- parse_and_rule s;;
  or_loop (String.length s1) [v] s1.

(** [aggregation_function "(" [aggregation_field] ")"
     [ "by" group_field ] comparison_op value]; the function name
    [f] has been read. *)
Definition parse_aggregation_function (f : token) (s : string) : parser_out :=
  '(_, s1) <- Lexer.next_token Accepts.after_function s;;
  fv <- tree "aggregation_function" [VToken f];;
  '(t2, s2) <- Lexer.next_token Accepts.after_function_lpar s1;;
  '(field, s3) <- match tok_type t2 with
                  | SEARCH_ID =>
                      '(_, s3) <- Lexer.next_token Accepts.after_field s2;;
                      fld <- tree "aggregation_field" [VToken t2];;
                      Ok (fld, s3)
                  | _ => Ok (VNone, s2)
                  end;;
  '(t4, s4) <- Lexer.next_token Accepts.after_function_rpar s3;;
  '(group, op, s5) <- match tok_type t4 with
                      | BY =>
                          '(g, s') <- Lexer.next_token Accepts.after_by s4;;
                          '(op, s'') <- Lexer.next_token Accepts.after_group s';;
                          grp <- tree "group_field" [VToken g];;
                          Ok (grp, op, s'')
                      | _ => Ok (VNone, t4, s4)
                      end;;
  '(n, s6) <- Lexer.next_token Accepts.after_comparison s5;;
  cmp <- tree "comparison_op" [VToken op];;
  _ <- look_ahead Accepts.after_value s6;;
  val <- tree "value" [VToken n];;
  a <- aggregation_expression [fv; field; group; cmp; val];;
  Ok (a, s6).

(** [aggregation_expression: aggregation_function "(" ... value
                           | near_aggregation],
    [near_aggregation: "near" or_rule] *)
Definition parse_aggregation_expression (s : string) : parser_out :=
  '(t, s1) <- Lexer.next_token Accepts.after_pipe s;;
  match tok_type t with
  | NEAR =>
      '(v, s2) <- parse_or_rule s1;;
      la <- look_ahead Accepts.after_atom s2;;
      match la with
      | RPAR | T_END =>
          n <- near_aggregation [v];;
          a <- aggregation_expression [n];;
          Ok (a, s2)
      | _ => Err UnexpectedInput
      end
  | _ => parse_aggregation_function t s1
  end.

(** [pipe_rule: or_rule ["|" aggregation_expression]] *)
Definition parse_pipe_rule (s : string) : parser_out :=
  '(v, s1) <- parse_or_rule s;;
  '(t, s2) <- Lexer.next_token Accepts.after_atom s1;;
  match tok_type t with
  | VBAR =>
      '(a, s3) <- parse_aggregation_expression s2;;
      p <- pipe_rule [v; a];;
      Ok (p, s3)
  | RPAR | T_END =>
      p <- pipe_rule [v; VNone];;
      Ok (p, s1)
  | _ => Err UnexpectedInput
  end.

End Productions.

(** Parentheses nest at most as deep as the text is long. *)
Fixpoint parse_pipe (fuel : nat) (s : string) : parser_out :=
  match fuel with
  | O => Err OutOfFuel
  | S fuel' => parse_pipe_rule (parse_pipe fuel') s
  end.

(** [start: pipe_rule]; [factory_parser.parse(text)]. *)
Definition parse (text : string) : result value :=
  '(v, s1) <- parse_pipe (S (String.length text)) text;;
  la <- look_ahead Accepts.after_atom s1;;
  match la with
  | T_END => start [v]
  | _ => Err UnexpectedInput
  end.

(** ** [prepare_condition] *)

(** [raw_condition: Union[str, list]] *)
Inductive raw_condition : Type :=
| RawStr (s : string)
| RawList (l : list string).

Definition prepare_condition (raw : raw_condition) : result value :=
  match raw with
  | RawList l => parse ("(" ++ Str.join ") or (" l ++ ")")
  | RawStr s => parse s
  end.

End Compiler.

Arguments VNone {Signature Event}.
Arguments VStr {Signature Event} s.
Arguments VToken {Signature Event} t.
Arguments VTree {Signature Event} data children.

End Parser.

Import Parser.

(* ================================================================== *)
(** * Python dictionaries *)

(** A [dict] with [str] keys: the bindings in insertion order.
    Assigning to a key that is present replaces its value where it
    stands; assigning to a new key appends the binding. *)
Module Dict.

Definition t (V : Type) : Type := list (string * V).

Definition empty {V : Type} : t V := [].

Fixpoint get {V : Type} (d : t V) (k : string) : option V :=
  match d with
  | [] => None
  | (k', v) :: r => if String.eqb k' k then Some v else get r k
  end.

(** [k in d] *)
Definition contains {V : Type} (d : t V) (k : string) : bool :=
  match get d k with
  | Some _ => true
  | None => false
  end.

(** [d[k] = v] *)
Fixpoint set {V : Type} (d : t V) (k : string) (v : V) : t V :=
  match d with
  | [] => [(k, v)]
  | (k', v') :: r =>
      if String.eqb k' k then (k', v) :: r
      else (k', v') :: set r k v
  end.

Definition remove {V : Type} (d : t V) (k : string) : t V :=
  filter (fun kv => negb (String.eqb (fst kv) k)) d.

(** [del d[k]]: a [KeyError] when [k] is absent. *)
Definition del {V : Type} (d : t V) (k : string) : option (t V) :=
  if contains d k then Some (remove d k) else None.

(** [d.items()] *)
Definition items {V : Type} (d : t V) : list (string * V) := d.

Definition keys {V : Type} (d : t V) : list string := map fst d.

End Dict.

(* ================================================================== *)
(** * The rule-evaluation driver *)

(** Modelled from the spec: the [Alert] class of [build_alert], which
    is not part of the sources: "rule name, description, triggering
    event, severity, source identifier". *)
Record Alert (Event : Type) : Type := mkAlert {
  alert_rule_name : string;
  alert_description : string;
  alert_event : Event;
  alert_level : string;
  alert_file_name : string
}.
Arguments mkAlert {Event}.
Arguments alert_rule_name {Event}.
Arguments alert_description {Event}.
Arguments alert_event {Event}.
Arguments alert_level {Event}.
Arguments alert_file_name {Event}.

(** Modelled from the spec: [callback_buildReport] of [build_alert],
    which is not part of the sources: the alert is "appended via a
    reporting callback" to the outgoing batch. *)
Definition callback_buildReport {Event : Type}
           (alerts : list (Alert Event)) (alert : Alert Event) : list (Alert Event) :=
  (alerts ++ [alert])%list.

Module Driver.

Section Evaluation.

(** Raw and normalised events, rule objects, the timeframe of a rule
    and the entries of the timed-events list are opaque. *)
Context {RawEvent Event Signature Timeframe TimedEvent : Type}.

(** [windows_event_logs.prepare_event_log] *)
Variable prepare_event_log : RawEvent -> Event.

(** The rule object: its accessors and attributes. *)
Variable get_condition : Signature -> Signature -> Event -> bool.
Variable get_timeframe : Signature -> option Timeframe.
Variable title : Signature -> string.
Variable description : Signature -> string.
Variable level : Signature -> string.
Variable file_name : Signature -> string.

(** [build_alert.check_timeframe(rule_obj, rule_name, timed_events,
    event, alerts)] returns nothing and updates the two lists it is
    given: the lists it leaves are its result here. *)
Variable check_timeframe :
  Signature -> string -> list TimedEvent -> Event -> list (Alert Event) ->
  list TimedEvent * list (Alert Event).

(** The body of the loop of [check_event] for one rule; the state is
    the pair of the two local lists [timed_events] and [alerts]. *)
Definition check_rule (event : Event) (st : list TimedEvent * list (Alert Event))
           (entry : string * Signature) : list TimedEvent * list (Alert Event) :=
  let (timed_events, alerts) := st in
  let (rule_name, rule_obj) := entry in
  let condition := get_condition rule_obj in
  if condition rule_obj event then
    match get_timeframe rule_obj with
    | Some _ => check_timeframe rule_obj rule_name timed_events event alerts
    | None =>
        let alert := mkAlert rule_name (description rule_obj) event
                             (level rule_obj) (file_name rule_obj) in
        (timed_events, callback_buildReport alerts alert)
    end
  else st.

Definition check_event_from (st : list TimedEvent * list (Alert Event))
           (event : Event) (rules : Dict.t Signature)
  : list TimedEvent * list (Alert Event) :=
  fold_left (check_rule event) (Dict.items rules) st.

(** [parser.check_event(raw_event, rules)] *)
Definition check_event (raw_event : RawEvent) (rules : Dict.t Signature)
  : list (Alert Event) :=
  let event := prepare_event_log raw_event in
  let alerts := [] in
  let timed_events := [] in
  snd (check_event_from (timed_events, alerts) event rules).

(** ** [PySigma] *)

(** The instance: its [rules] and the truth value of [self.callback],
    which is what [check_events] tests before it calls it.  The calls
    of the callback are the only trace it leaves here. *)
Record PySigma : Type := mkPySigma {
  rules : Dict.t Signature;
  callback : bool
}.

Definition new_PySigma : PySigma := mkPySigma Dict.empty false.

(** [add_signature]: [loaded] is what [signatures.load_signature]
    gave, a rule object or the failure it raised.  The assignment
    [parser.rules = self.rules] binds a module attribute that no
    function reads. *)
Definition add_signature (self : PySigma) (loaded : result Signature)
  : result PySigma :=
  signature <- loaded;;
  Ok (mkPySigma (Dict.set (rules self) (title signature) signature)
                (callback self)).

(** What [register_callback] is given: [None], or a callable with the
    truth value Python gives it, true for a function, and what
    [__bool__] or [__len__] says for a callable object. *)
Inductive callback_object : Type :=
| PyNone
| PyCallable (truth : bool).

(** [bool(c)] *)
Definition truth_value (c : callback_object) : bool :=
  match c with
  | PyNone => false
  | PyCallable truth => truth
  end.

(** [register_callback] stores [c] whatever it is. *)
Definition register_callback (self : PySigma) (c : callback_object) : PySigma :=
  mkPySigma (rules self) (truth_value c).

Definition forbidden_rules : list string :=
  ["RDP over Reverse SSH Tunnel WFP"; "Suspicious Execution from Outlook"].

(** The first loop of [check_events]. *)
Fixpoint remove_forbidden (names : list string) (rs : Dict.t Signature)
  : option (Dict.t Signature) :=
  match names with
  | [] => Some rs
  | r :: names' =>
      if Dict.contains rs r
      then match Dict.del rs r with
           | Some rs' => remove_forbidden names' rs'
           | None => None
           end
      else remove_forbidden names' rs
  end.

(** What one pass leaves: the alerts it returns, the calls of the
    callback, and the instance. *)
Record pass : Type := mkPass {
  all_alerts : list (Alert Event);
  callback_calls : list (Alert Event * RawEvent);
  self_after : PySigma
}.

(** The second loop of [check_events]. *)
Fixpoint events_loop (notify : bool) (rs : Dict.t Signature)
         (events : list RawEvent)
         (acc : list (Alert Event) * list (Alert Event * RawEvent))
  : list (Alert Event) * list (Alert Event * RawEvent) :=
  match events with
  | [] => acc
  | event :: events' =>
      let alerts := check_event event rs in
      let calls := if notify then map (fun a => (a, event)) alerts else [] in
      events_loop notify rs events' ((fst acc ++ alerts)%list, (snd acc ++ calls)%list)
  end.

(** [PySigma.check_events]; [None] stands for a [KeyError] of
    [del]. *)
Definition check_events (self : PySigma) (events : list RawEvent)
  : option pass :=
  match remove_forbidden forbidden_rules (rules self) with
  | None => None
  | Some rs =>
      let (alerts, calls) := events_loop (callback self) rs events ([], []) in
      Some (mkPass alerts calls (mkPySigma rs (callback self)))
  end.

End Evaluation.

End Driver.

Import Driver.

(* ================================================================== *)
(** * [pysigma.py]: a pass over a log file *)

Module Logfile.

Section Files.

Context {Path RawEvent Event Signature Timeframe TimedEvent : Type}.

(** [windows_event_logs.load_events]: the events of the file, or
    nothing when it raises. *)
Variable load_events : Path -> option (list RawEvent).

Variable prepare_event_log : RawEvent -> Event.
Variable get_condition : Signature -> Signature -> Event -> bool.
Variable get_timeframe : Signature -> option Timeframe.
Variable description : Signature -> string.
Variable level : Signature -> string.
Variable file_name : Signature -> string.
Variable check_timeframe :
  Signature -> string -> list TimedEvent -> Event -> list (Alert Event) ->
  list TimedEvent * list (Alert Event).

(** [PySigma.build_sysmon_events] *)
Definition build_sysmon_events (logfile_path : Path) : option (list RawEvent) :=
  let log_dict := load_events logfile_path in
  log_dict.

(** [PySigma.check_logfile] returns nothing: the alerts of
    [check_events] are dropped, and what the call leaves is the calls
    of the callback and the instance.  [None] stands for an exception
    of [load_events] or of [check_events]. *)
Definition check_logfile (self : PySigma) (logfile_path : Path)
  : option (list (Alert Event * RawEvent) * PySigma) :=
  match build_sysmon_events logfile_path with
  | None => None
  | Some events =>
      match check_events prepare_event_log get_condition get_timeframe
                         description level file_name check_timeframe
                         self events with
      | None => None
      | Some p => Some (callback_calls p, self_after p)
      end
  end.

End Files.

End Logfile.

Import Logfile.

(* ================================================================== *)
(** * Condition texts

    The texts of the grammar, as trees: one constructor per
    production, with the spelling of each keyword and the number of
    blanks around it.  [render] writes a tree out, adding the
    parentheses the precedence NOT > AND > OR asks for. *)

Inductive spelling : Type := Lower | Upper.

(** [x: ALL | NUMBER]; a number is its decimal digits. *)
Inductive count_spec : Type :=
| XAll
| XNumber (digits : string).

(** [THEM | search_pattern] *)
Inductive selector : Type :=
| YThem
| YPattern (pattern : string).

Inductive aggregation_function : Type := FCount | FMin | FMax | FAvg | FSum.

Inductive comparison_op : Type := OpGT | OpLT | OpEQ.

Inductive condition : Type :=
| CSearch (name : string)
| CXOf (x : count_spec) (y : selector)
| CGroup (l r : nat) (c : condition)
| CNot (k : spelling) (n : nat) (c : condition)
| CAnd (k : spelling) (l r : nat) (a b : condition)
| COr (k : spelling) (l r : nat) (a b : condition)
| CAggregate (l r : nat) (c : condition) (f : aggregation_function)
             (field group : option string) (op : comparison_op) (value : string)
| CNear (l r : nat) (c d : condition).

(** The production a tree stands for: 0 [pipe_rule], 1 [or_rule],
    2 [and_rule], 3 [not_rule], 4 [atom]. *)
Definition rule_level (c : condition) : nat :=
  match c with
  | CSearch _ | CXOf _ _ | CGroup _ _ _ => 4
  | CNot _ _ _ => 3
  | CAnd _ _ _ _ _ => 2
  | COr _ _ _ _ _ => 1
  | CAggregate _ _ _ _ _ _ _ _ | CNear _ _ _ _ => 0
  end.

Definition paren (b : bool) (s : string) : string :=
  if b then "(" ++ s ++ ")" else s.

Definition render_not (k : spelling) : string :=
  match k with Lower => "not" | Upper => "NOT" end.

Definition render_and (k : spelling) : string :=
  match k with Lower => "and" | Upper => "AND" end.

Definition render_or (k : spelling) : string :=
  match k with Lower => "or" | Upper => "OR" end.

Definition render_x (x : count_spec) : string :=
  match x with XAll => "all" | XNumber d => d end.

Definition render_y (y : selector) : string :=
  match y with YThem => "them" | YPattern p => p end.

Definition render_function (f : aggregation_function) : string :=
  match f with
  | FCount => "count" | FMin => "min" | FMax => "max"
  | FAvg => "avg" | FSum => "sum"
  end.

Definition render_op (op : comparison_op) : string :=
  match op with OpGT => ">" | OpLT => "<" | OpEQ => "=" end.

Definition render_field (field : option string) : string :=
  match field with Some f => f | None => "" end.

Definition render_group (group : option string) : string :=
  match group with Some g => " by " ++ g | None => "" end.

Definition render_aggregation (f : aggregation_function) (field group : option string)
           (op : comparison_op) (value : string) : string :=
  render_function f ++ "(" ++ render_field field ++ ")" ++ render_group group
  ++ " " ++ render_op op ++ " " ++ value.

Fixpoint render (c : condition) : string :=
  match c with
  | CSearch name => name
  | CXOf x y => render_x x ++ " of " ++ render_y y
  | CGroup l r c => "(" ++ Str.spaces l ++ render c ++ Str.spaces r ++ ")"
  | CNot k n c =>
      render_not k ++ Str.spaces (S n) ++ paren (Nat.ltb (rule_level c) 4) (render c)
  | CAnd k l r a b =>
      paren (Nat.ltb (rule_level a) 2) (render a)
      ++ Str.spaces (S l) ++ render_and k ++ Str.spaces (S r)
      ++ paren (Nat.ltb (rule_level b) 3) (render b)
  | COr k l r a b =>
      paren (Nat.ltb (rule_level a) 1) (render a)
      ++ Str.spaces (S l) ++ render_or k ++ Str.spaces (S r)
      ++ paren (Nat.ltb (rule_level b) 2) (render b)
  | CAggregate l r c f field group op value =>
      paren (Nat.ltb (rule_level c) 1) (render c)
      ++ Str.spaces (S l) ++ "|" ++ Str.spaces r
      ++ render_aggregation f field group op value
  | CNear l r c d =>
      paren (Nat.ltb (rule_level c) 1) (render c)
      ++ Str.spaces (S l) ++ "|" ++ Str.spaces r
      ++ "near " ++ paren (Nat.ltb (rule_level d) 1) (render d)
  end.

(** Names the lexer reads back as they are written. *)
Definition valid_search_id (name : string) : bool :=
  Lexer.full_match SEARCH_ID name
  && negb (existsb (String.eqb name) ["all"; "not"; "NOT"]).

Definition valid_number (digits : string) : bool :=
  Lexer.full_match NUMBER digits.

Definition valid_pattern (p : string) : bool :=
  Lexer.full_match PATTERN p && negb (String.eqb p "them").

Definition valid_field (field : option string) : bool :=
  match field with
  | Some f => Lexer.full_match SEARCH_ID f
  | None => true
  end.

Definition valid_x (x : count_spec) : bool :=
  match x with XAll => true | XNumber d => valid_number d end.

Definition valid_y (y : selector) : bool :=
  match y with YThem => true | YPattern p => valid_pattern p end.

Fixpoint well_formed (c : condition) : bool :=
  match c with
  | CSearch name => valid_search_id name
  | CXOf x y => valid_x x && valid_y y
  | CGroup _ _ c | CNot _ _ c => well_formed c
  | CAnd _ _ _ a b | COr _ _ _ a b => well_formed a && well_formed b
  | CAggregate _ _ c _ field group _ value =>
      well_formed c && valid_field field && valid_field group && valid_number value
  | CNear _ _ c d => well_formed c && well_formed d
  end.

(** Built only from search-ids, NOT, AND, OR and parentheses. *)
Fixpoint boolean_only (c : condition) : bool :=
  match c with
  | CSearch _ => true
  | CGroup _ _ c | CNot _ _ c => boolean_only c
  | CAnd _ _ _ a b | COr _ _ _ a b => boolean_only a && boolean_only b
  | _ => false
  end.

(** Does the text hold an aggregation or a near clause? *)
Fixpoint has_clause (c : condition) : bool :=
  match c with
  | CSearch _ | CXOf _ _ => false
  | CGroup _ _ c | CNot _ _ c => has_clause c
  | CAnd _ _ _ a b | COr _ _ _ a b => has_clause a || has_clause b
  | CAggregate _ _ _ _ _ _ _ _ | CNear _ _ _ _ => true
  end.

(** The value of a condition under standard precedence, from the
    values of its atoms. *)
Fixpoint eval (atoms : string -> bool) (quantified : count_spec -> selector -> bool)
         (c : condition) : bool :=
  match c with
  | CSearch name => atoms name
  | CXOf x y => quantified x y
  | CGroup _ _ c => eval atoms quantified c
  | CNot _ _ c => negb (eval atoms quantified c)
  | CAnd _ _ _ a b => eval atoms quantified a && eval atoms quantified b
  | COr _ _ _ a b => eval atoms quantified a || eval atoms quantified b
  | CAggregate _ _ c _ _ _ _ _ | CNear _ _ c _ => eval atoms quantified c
  end.

(** The message of the clause the parser completes first. *)
Fixpoint first_clause (c : condition) : option string :=
  match c with
  | CSearch _ | CXOf _ _ => None
  | CGroup _ _ c | CNot _ _ c => first_clause c
  | CAnd _ _ _ a b | COr _ _ _ a b =>
      match first_clause a with
      | Some m => Some m
      | None => first_clause b
      end
  | CAggregate _ _ c _ _ _ _ _ =>
      match first_clause c with
      | Some m => Some m
      | None => Some "Aggregation expressions not supported."
      end
  | CNear _ _ c d =>
      match first_clause c with
      | Some m => Some m
      | None =>
          match first_clause d with
          | Some m => Some m
          | None => Some "Near operation not supported."
          end
      end
  end.

Definition nest (b : bool) (n : nat) : nat :=
  if b then S n else n.

(** Nesting of the parentheses of [render c]. *)
Fixpoint depth (c : condition) : nat :=
  match c with
  | CSearch _ | CXOf _ _ => 0
  | CGroup _ _ c => S (depth c)
  | CNot _ _ c => nest (Nat.ltb (rule_level c) 4) (depth c)
  | CAnd _ _ _ a b =>
      Nat.max (nest (Nat.ltb (rule_level a) 2) (depth a))
              (nest (Nat.ltb (rule_level b) 3) (depth b))
  | COr _ _ _ a b =>
      Nat.max (nest (Nat.ltb (rule_level a) 1) (depth a))
              (nest (Nat.ltb (rule_level b) 2) (depth b))
  | CAggregate _ _ c _ _ _ _ _ => nest (Nat.ltb (rule_level c) 1) (depth c)
  | CNear _ _ c d =>
      Nat.max (nest (Nat.ltb (rule_level c) 1) (depth c))
              (nest (Nat.ltb (rule_level d) 1) (depth d))
  end.

(** The count and the selector [x_of] hands to the resolver: the
    integer of a number and nothing for ALL; the text of the pattern,
    and for THEM the text of the token. *)
Definition count_of (x : count_spec) : option Z :=
  match x with
  | XAll => None
  | XNumber d => match int d with Ok n => Some n | Err _ => None end
  end.

Definition selector_of (y : selector) : option string :=
  match y with
  | YThem => Some "them"
  | YPattern p => Some p
  end.

(* ================================================================== *)
(** * The specification's readings, for comparison with the code *)

(** The fragments of a list, each in parentheses, joined with OR. *)
Definition parenthesised_or (fragments : list string) : string :=
  Str.join " or " (map (fun f => "(" ++ f ++ ")") fragments).

(** A pattern in which [*] stands for any run of characters. *)
Fixpoint wildcard (pattern : string) : string -> bool :=
  match pattern with
  | "" => fun name => match name with "" => true | _ => false end
  | String "*" pattern' =>
      fix star (name : string) : bool :=
        wildcard pattern' name
        || match name with
           | "" => false
           | String _ name' => star name'
           end
  | String c pattern' =>
      fun name =>
        match name with
        | String d name' => Ascii.eqb c d && wildcard pattern' name'
        | "" => false
        end
  end.

Section Resolver.

Context {Signature Event : Type}.

(** The names of the search blocks a rule declares. *)
Variable search_blocks : Signature -> list string.
Variable match_search_id : Signature -> Event -> string -> bool.

(** Modelled from the spec: [sigma_scan.analyze_x_of], which is not
    part of the sources.  The selector is absent for THEM, "every search
    block declared on the owning rule", or is "a name pattern selecting
    a subset of declared search blocks by wildcard match"; "with ALL,
    the predicate is true iff every selected search block matches; with
    an explicit integer N, true iff at least N of the selected blocks
    match". *)
Definition spec_analyze_x_of (signature : Signature) (event : Event)
           (count : option Z) (selector : option string) : bool :=
  let selected :=
    match selector with
    | None => search_blocks signature
    | Some pattern => filter (wildcard pattern) (search_blocks signature)
    end in
  let hits := filter (match_search_id signature event) selected in
  match count with
  | None => Nat.eqb (List.length hits) (List.length selected)
  | Some n => (n <=? Z.of_nat (List.length hits))%Z
  end.

(** How many of the declared search blocks match. *)
Definition matching_blocks (signature : Signature) (event : Event) : nat :=
  List.length (filter (match_search_id signature event) (search_blocks signature)).

End Resolver.

Section PersistentAccumulator.

Context {RawEvent Event Signature Timeframe TimedEvent : Type}.
Variable prepare_event_log : RawEvent -> Event.
Variable get_condition : Signature -> Signature -> Event -> bool.
Variable get_timeframe : Signature -> option Timeframe.
Variable description : Signature -> string.
Variable level : Signature -> string.
Variable file_name : Signature -> string.
Variable check_timeframe :
  Signature -> string -> list TimedEvent -> Event -> list (Alert Event) ->
  list TimedEvent * list (Alert Event).

(** The pass in which the timed-events list handed to the correlator
    is carried from one event to the next. *)
Fixpoint persistent_pass (timed_events : list TimedEvent) (rules : Dict.t Signature)
         (events : list RawEvent) : list (Alert Event) :=
  match events with
  | [] => []
  | raw_event :: events' =>
      let (timed_events', alerts) :=
        check_event_from get_condition get_timeframe description level file_name
                         check_timeframe (timed_events, [])
                         (prepare_event_log raw_event) rules in
      (alerts ++ persistent_pass timed_events' rules events')%list
  end.

End PersistentAccumulator.

(* ================================================================== *)
(** * Vocabulary of the proofs *)

(** The next character does not continue a run of [p]. *)
Definition stops (p : ascii -> bool) (s : string) : bool :=
  match s with
  | "" => true
  | String c _ => negb (p c)
  end.

(** [w] is a word of [first rest*]. *)
Definition word (first rest : ascii -> bool) (w : string) : bool :=
  match w with
  | String c w' => first c && Str.forallb rest w'
  | "" => false
  end.

(** The rest of a text starts with a blank or a closing parenthesis,
    or is empty. *)
Definition delimited (rest : string) : bool :=
  match rest with
  | "" => true
  | String c _ => Ascii.eqb c " " || Ascii.eqb c ")"
  end.

(** The terminals that may follow an [and_rule], an [or_rule] and a
    [pipe_rule]. *)
Definition follow_and : list terminal := [KW_or; KW_OR; RPAR; VBAR; T_END].
Definition follow_or : list terminal := [RPAR; VBAR; T_END].
Definition follow_pipe : list terminal := [RPAR; T_END].

(** The rest of the text starts a new token, one of [set]. *)
Definition Follow (set : list terminal) (rest : string) : Prop :=
  delimited rest = true
  /\ exists t, look_ahead Accepts.after_atom rest = Ok t /\ In t set.

(** The two failures a condition text can meet. *)
Definition refusal (e : error) : Prop :=
  e = UnexpectedInput \/ exists m, e = UnsupportedFeature m.

(** The rules an evaluation pass works with: those whose title is not
    on the list. *)
Definition purged {V : Type} (names : list string) (d : Dict.t V) : Dict.t V :=
  filter (fun kv => negb (existsb (String.eqb (fst kv)) names)) d.

Module Reading.

Section Vocabulary.

Context {Signature Event : Type}.
Variable match_search_id : Signature -> Event -> string -> bool.
Variable analyze_x_of : Signature -> Event -> option Z -> option string -> bool.

Local Abbreviation value := (@value Signature Event).
Local Abbreviation predicate := (@predicate Signature Event).
Local Abbreviation parser_out := (@parser_out Signature Event).
Local Abbreviation parse_pipe := (parse_pipe match_search_id analyze_x_of).
Local Abbreviation parse_atom := (parse_atom match_search_id analyze_x_of).
Local Abbreviation parse_not_rule := (parse_not_rule match_search_id analyze_x_of).
Local Abbreviation parse_and_rule := (parse_and_rule match_search_id analyze_x_of).
Local Abbreviation parse_or_rule := (parse_or_rule match_search_id analyze_x_of).
Local Abbreviation parse_pipe_rule := (parse_pipe_rule match_search_id analyze_x_of).
Local Abbreviation and_loop := (and_loop match_search_id analyze_x_of).
Local Abbreviation or_loop := (or_loop match_search_id analyze_x_of).

(** Pointwise equality of predicates. *)
Definition agree (p q : predicate) : Prop := forall sig ev, p sig ev = q sig ev.

(** What a condition says about a rule and an event, given the two
    resolvers. *)
Definition denote (c : condition) : predicate :=
  fun signature event =>
    eval (match_search_id signature event)
         (fun x y => analyze_x_of signature event (count_of x) (selector_of y))
         c.

(** What [and_rule] and [or_rule] return for a list of predicates. *)
Definition and_pred (ps : list predicate) : predicate :=
  match ps with
  | [p] => p
  | _ => _and_operation ps
  end.

Definition or_pred (qs : list predicate) : predicate :=
  match qs with
  | [q] => q
  | _ => _or_operation qs
  end.

(** What it means for a text [X] to be read as a production: [d]
    bounds the nesting of parentheses in [X]; the rest of the input is
    arbitrary, provided it starts with a token that may follow. *)
Definition ParsesAtom (d : nat) (X : string) (p : predicate) : Prop :=
  forall f rest, d <= f -> Follow Accepts.after_atom rest ->
    parse_atom (parse_pipe f) Accepts.after_not (X ++ rest) = Ok (VFun p, rest)
    /\ parse_not_rule (parse_pipe f) (X ++ rest) = Ok (VFun p, rest).

Definition ParsesNot (d : nat) (X : string) (p : predicate) : Prop :=
  forall f rest, d <= f -> Follow Accepts.after_atom rest ->
    parse_not_rule (parse_pipe f) (X ++ rest) = Ok (VFun p, rest).

Definition AndChain (d : nat) (X : string) (ps : list predicate) : Prop :=
  forall f rest, d <= f -> Follow Accepts.after_atom rest ->
    exists k, String.length rest <= k
      /\ parse_and_rule (parse_pipe f) (X ++ rest)
         = and_loop (parse_pipe f) k (map VFun ps) rest.

Definition OrChain (d : nat) (X : string) (qs : list predicate) : Prop :=
  forall f rest, d <= f -> Follow follow_and rest ->
    exists k, String.length rest <= k
      /\ parse_or_rule (parse_pipe f) (X ++ rest)
         = or_loop (parse_pipe f) k (map VFun qs) rest.

Definition ParsesPipe (d : nat) (X : string) (p : predicate) : Prop :=
  forall f rest, d <= f -> Follow follow_pipe rest ->
    parse_pipe_rule (parse_pipe f) (X ++ rest) = Ok (VFun p, rest).

(** Texts that raise [UnsupportedFeature] with the message [m]. *)
Definition FailsAtom (d : nat) (X : string) (m : string) : Prop :=
  forall f rest, d <= f ->
    parse_atom (parse_pipe f) Accepts.after_not (X ++ rest) = Err (UnsupportedFeature m)
    /\ parse_not_rule (parse_pipe f) (X ++ rest) = Err (UnsupportedFeature m).

Definition FailsNot (d : nat) (X : string) (m : string) : Prop :=
  forall f rest, d <= f ->
    parse_not_rule (parse_pipe f) (X ++ rest) = Err (UnsupportedFeature m).

Definition FailsAnd (d : nat) (X : string) (m : string) : Prop :=
  forall f rest, d <= f ->
    parse_and_rule (parse_pipe f) (X ++ rest) = Err (UnsupportedFeature m).

Definition FailsOr (d : nat) (X : string) (m : string) : Prop :=
  forall f rest, d <= f ->
    parse_or_rule (parse_pipe f) (X ++ rest) = Err (UnsupportedFeature m).

Definition FailsPipe (d : nat) (X : string) (m : string) : Prop :=
  forall f rest, d <= f -> Follow follow_pipe rest ->
    parse_pipe_rule (parse_pipe f) (X ++ rest) = Err (UnsupportedFeature m).

(** [X] is read at level [L] of the grammar as a predicate that agrees
    with [sem]. *)
Definition Parses (L d : nat) (X : string) (sem : predicate) : Prop :=
  match L with
  | 0 => exists p, ParsesPipe d X p /\ agree p sem
  | 1 => exists qs, qs <> [] /\ OrChain d X qs /\ agree (_or_operation qs) sem
  | 2 => exists ps, ps <> [] /\ AndChain d X ps /\ agree (_and_operation ps) sem
  | 3 => exists p, ParsesNot d X p /\ agree p sem
  | _ => exists p, ParsesAtom d X p /\ agree p sem
  end.

Definition Fails (L d : nat) (X : string) (m : string) : Prop :=
  match L with
  | 0 => FailsPipe d X m
  | 1 => FailsOr d X m
  | 2 => FailsAnd d X m
  | 3 => FailsNot d X m
  | _ => FailsAtom d X m
  end.

(** A production gives a predicate and leaves no more than [n]
    characters, or refuses the text. *)
Definition reads (n : nat) (r : parser_out) : Prop :=
  match r with
  | Ok (v, s') => callable v = true /\ String.length s' <= n
  | Err e => refusal e
  end.

Definition refuses (r : parser_out) : Prop :=
  match r with
  | Ok _ => False
  | Err e => refusal e
  end.

End Vocabulary.

Section DriverVocabulary.

Context {RawEvent Event Signature Timeframe TimedEvent : Type}.
Variable prepare_event_log : RawEvent -> Event.
Variable get_condition : Signature -> Signature -> Event -> bool.
Variable get_timeframe : Signature -> option Timeframe.
Variable description : Signature -> string.
Variable level : Signature -> string.
Variable file_name : Signature -> string.
Variable check_timeframe :
  Signature -> string -> list TimedEvent -> Event -> list (Alert Event) ->
  list TimedEvent * list (Alert Event).

(** The calls of the callback for one event. *)
Definition notified (notify : bool) (rs : Dict.t Signature) (event : RawEvent)
  : list (Alert Event * RawEvent) :=
  if notify
  then map (fun a => (a, event))
           (check_event prepare_event_log get_condition get_timeframe description
                        level file_name check_timeframe event rs)
  else [].

(** The correlator only adds alerts that carry the rule name it was
    given. *)
Definition names_its_alerts : Prop :=
  forall rule name timed event alerts a,
    In a (snd (check_timeframe rule name timed event alerts)) ->
    In a alerts \/ alert_rule_name a = name.

End DriverVocabulary.

End Reading.

Import Reading.

(* ================================================================== *)
(** * Vocabulary of the texts that compile *)

(** How many times [c] occurs in [s]. *)
Fixpoint occurrences (c : ascii) (s : string) : nat :=
  match s with
  | "" => 0
  | String d r => (if Ascii.eqb c d then 1 else 0) + occurrences c r
  end.

(** The characters of a search pattern, the blank and the two
    parentheses. *)
Definition is_condition_char (c : ascii) : bool :=
  is_pattern_char c || Ascii.eqb c " " || Ascii.eqb c "(" || Ascii.eqb c ")".

(** Made of such characters only, with as many opening as closing
    parentheses. *)
Definition clean (s : string) : Prop :=
  Str.forallb is_condition_char s = true
  /\ occurrences "(" s = occurrences ")" s.

(** The text of a token of terminal [t]: the string of a string
    terminal, a word of pattern characters for the others. *)
Definition token_text (t : terminal) (w : string) : Prop :=
  match literal t with
  | Some l => w = l
  | None => Str.forallb is_pattern_char w = true
  end.

(** What a production has read, when it succeeds, is [clean]. *)
Definition reads_clean {Signature Event : Type} (s : string)
           (r : @parser_out Signature Event) : Prop :=
  match r with
  | Ok (_, s') => exists pre, s = pre ++ s' /\ clean pre
  | Err _ => True
  end.

(** The texts [prepare_condition] puts together: the string itself,
    the members of a list. *)
Definition fragments (raw : raw_condition) : list string :=
  match raw with
  | RawStr s => [s]
  | RawList l => l
  end.

(** The tree of a list of fragments, each a condition of its own:
    [(c) or (d1) or ... or (dn)]. *)
Definition any_of (c : condition) (ds : list condition) : condition :=
  fold_left (fun acc d => COr Lower 0 0 acc (CGroup 0 0 d)) ds (CGroup 0 0 c).

(** The registry holds every rule under its own title, and no title
    twice. *)
Definition titled {Signature : Type} (title : Signature -> string)
           (rs : Dict.t Signature) : Prop :=
  NoDup (Dict.keys rs) /\ Forall (fun kv => fst kv = title (snd kv)) rs.

(* ================================================================== *)
(** * Rules and events used as examples *)

(** A rule given by its search blocks, each with whether it matches;
    the x-of resolver is the one of the specification. *)
Module BlocksExample.

Definition Rule : Type := list (string * bool).

Definition search_blocks (rule : Rule) : list string := map fst rule.

Definition match_search_id (rule : Rule) (event : unit) (name : string) : bool :=
  match find (fun kv => String.eqb (fst kv) name) rule with
  | Some (_, b) => b
  | None => false
  end.

Definition analyze_x_of : Rule -> unit -> option Z -> option string -> bool :=
  spec_analyze_x_of search_blocks match_search_id.

(** The verdict of the condition [text] on [rule]. *)
Definition run (text : string) (rule : Rule) : result bool :=
  match prepare_condition match_search_id analyze_x_of (RawStr text) with
  | Ok (VFun condition) => Ok (condition rule tt)
  | Ok _ => Err TypeError
  | Err e => Err e
  end.

(** [selection and not (filter1 OR filter2)] *)
Definition selection_and_not_filters : condition :=
  CAnd Lower 0 0 (CSearch "selection")
       (CNot Lower 0 (COr Upper 0 0 (CSearch "filter1") (CSearch "filter2"))).

(** [(a or b) | count(user) by host > 5] *)
Definition counted : condition :=
  CAggregate 0 1 (COr Lower 0 0 (CSearch "a") (CSearch "b"))
             FCount (Some "user") (Some "host") OpGT "5".

End BlocksExample.

(** One rule with a timeframe that matches every event, and a
    correlator that keeps the events it sees and reports, as the event
    of its alert, how many entries the list it received holds. *)
Module TimeframeExample.

Definition prepare_event_log (raw_event : nat) : nat := raw_event.
Definition get_condition (rule other : unit) (event : nat) : bool := true.
Definition get_timeframe (rule : unit) : option nat := Some 5.
Definition title (rule : unit) : string := "Brute force".
Definition description (rule : unit) : string := "".
Definition level (rule : unit) : string := "high".
Definition file_name (rule : unit) : string := "brute_force.yml".

Definition check_timeframe (rule : unit) (rule_name : string)
           (timed_events : list nat) (event : nat) (alerts : list (Alert nat))
  : list nat * list (Alert nat) :=
  ((timed_events ++ [event])%list,
   (alerts ++ [mkAlert rule_name "" (List.length timed_events) "high" ""])%list).

Definition sigma : PySigma :=
  mkPySigma [("Suspicious Execution from Outlook", tt); ("Brute force", tt)] false.

End TimeframeExample.

(** Rules without a timeframe: a rule is its title and the events it
    matches. *)
Module LevelsExample.

Definition Rule : Type := (string * list nat)%type.

Definition load_events (path : string) : option (list nat) :=
  if String.eqb path "sysmon.xml" then Some [7; 8] else None.

Definition prepare_event_log (raw_event : nat) : nat := raw_event.
Definition get_condition (rule other : Rule) (event : nat) : bool :=
  existsb (Nat.eqb event) (snd rule).
Definition get_timeframe (rule : Rule) : option nat := None.
Definition title (rule : Rule) : string := fst rule.
Definition description (rule : Rule) : string := "".
Definition level (rule : Rule) : string := "low".
Definition file_name (rule : Rule) : string := fst rule ++ ".yml".

Definition check_timeframe (rule : Rule) (rule_name : string)
           (timed_events : list nat) (event : nat) (alerts : list (Alert nat))
  : list nat * list (Alert nat) :=
  (timed_events, alerts).

Definition outlook : Rule := ("Suspicious Execution from Outlook", [7; 8]).

Definition sigma : PySigma :=
  mkPySigma [("Logon", ("Logon", [7])); ("Service", ("Service", [7; 8]))] false.

End LevelsExample.

(* ================================================================== *)
(** * Facts about strings *)

Lemma append_assoc (a b c : string) : (a ++ b) ++ c = a ++ (b ++ c).
Proof. induction a as [|x a IH]; simpl; [reflexivity | now rewrite IH]. Qed.

Lemma append_nil_r (a : string) : a ++ "" = a.
Proof. induction a as [|x a IH]; simpl; [reflexivity | now rewrite IH]. Qed.

Lemma length_append (a b : string) :
  String.length (a ++ b) = String.length a + String.length b.
Proof. induction a as [|x a IH]; simpl; [reflexivity | now rewrite IH]. Qed.

Lemma length_spaces (n : nat) : String.length (Str.spaces n) = n.
Proof. induction n; simpl; congruence. Qed.

Lemma drop_spaces_spaces (n : nat) (s : string) :
  Str.drop_spaces (Str.spaces n ++ s) = Str.drop_spaces s.
Proof. induction n; simpl; auto. Qed.

Lemma length_drop_spaces (s : string) :
  String.length (Str.drop_spaces s) <= String.length s.
Proof.
  induction s as [|c s IH]; simpl; [lia|].
  destruct c as [[] [] [] [] [] [] [] []]; simpl; lia.
Qed.

Lemma span_append (p : ascii -> bool) (w r : string) :
  Str.forallb p w = true -> stops p r = true ->
  Str.span p (w ++ r) = (w, r).
Proof.
  induction w as [|c w IH]; simpl; intros Hw Hr.
  - destruct r as [|c r]; simpl in *; [reflexivity|].
    now apply negb_true_iff in Hr as ->.
  - apply andb_true_iff in Hw as [-> Hw]. now rewrite IH.
Qed.

Lemma span_length (p : ascii -> bool) (s : string) :
  String.length (snd (Str.span p s)) <= String.length s.
Proof.
  induction s as [|c s IH]; simpl; [lia|].
  destruct (p c); simpl; [|lia].
  destruct (Str.span p s); simpl in *. lia.
Qed.

Lemma strip_prefix_append (p s : string) : Str.strip_prefix p (p ++ s) = Some s.
Proof. induction p as [|c p IH]; simpl; [reflexivity|]. now rewrite Ascii.eqb_refl. Qed.

Lemma strip_prefix_length (p s r : string) :
  Str.strip_prefix p s = Some r -> String.length s = String.length p + String.length r.
Proof.
  revert s; induction p as [|c p IH]; simpl; intros s H.
  - now inversion H.
  - destruct s as [|d s]; [discriminate|].
    destruct (Ascii.eqb c d); [|discriminate]. simpl. now rewrite (IH _ H).
Qed.

(* ================================================================== *)
(** * Facts about the lexer *)

Lemma drop_spaces_other (c : ascii) (s : string) :
  c <> " "%char -> Str.drop_spaces (String c s) = String c s.
Proof.
  intros Hc. destruct c as [[] [] [] [] [] [] [] []]; try reflexivity.
  now contradiction Hc.
Qed.

Lemma next_token_spaces (accepts : list terminal) (n : nat) (s : string) :
  Lexer.next_token accepts (Str.spaces n ++ s) = Lexer.next_token accepts s.
Proof. unfold Lexer.next_token. now rewrite drop_spaces_spaces. Qed.

Lemma next_token_other (accepts : list terminal) (c : ascii) (s : string) :
  c <> " "%char ->
  Lexer.next_token accepts (String c s)
  = match Lexer.scan accepts accepts (String c s) with
    | Some r => Ok r
    | None => Err UnexpectedInput
    end.
Proof. intros Hc. unfold Lexer.next_token. now rewrite drop_spaces_other. Qed.

Lemma look_ahead_spaces (accepts : list terminal) (n : nat) (s : string) :
  look_ahead accepts (Str.spaces n ++ s) = look_ahead accepts s.
Proof. unfold look_ahead. now rewrite next_token_spaces. Qed.

(** ** Words of a character class *)

Lemma span_all (p : ascii -> bool) (s w : string) :
  Str.span p s = (w, "") -> w = s /\ Str.forallb p s = true.
Proof.
  revert w; induction s as [|c s IH]; simpl; intros w H.
  - now inversion H.
  - destruct (p c) eqn:Hc; [|discriminate].
    destruct (Str.span p s) as [w' r] eqn:Hs. inversion H; subst.
    destruct (IH w' eq_refl) as [-> ->]. now split.
Qed.

Lemma full_match_word (re : terminal) (first rest : ascii -> bool) (w : string) :
  regexp re = Some (match_class first rest) ->
  Lexer.full_match re w = true -> word first rest w = true.
Proof.
  unfold Lexer.full_match. intros ->. unfold match_class.
  destruct w as [|c w]; [discriminate|].
  destruct (first c) eqn:Hc; [|discriminate].
  destruct (Str.span rest w) as [w' r] eqn:Hs.
  destruct r; [|discriminate]. intros _.
  apply span_all in Hs as [_ Hs]. simpl. now rewrite Hc, Hs.
Qed.

Lemma match_class_word (first rest : ascii -> bool) (w r : string) :
  word first rest w = true -> stops rest r = true ->
  match_class first rest (w ++ r) = Some (w, r).
Proof.
  destruct w as [|c w]; [discriminate|]. simpl.
  intros H Hr. apply andb_true_iff in H as [-> Hw].
  now rewrite span_append.
Qed.

Lemma word_not_space (first rest : ascii -> bool) (w : string) :
  first " "%char = false -> word first rest w = true ->
  exists c w', w = String c w' /\ c <> " "%char.
Proof.
  intros Hf. destruct w as [|c w]; [discriminate|]. simpl. intros H.
  apply andb_true_iff in H as [Hc _]. exists c, w. split; [reflexivity|].
  intros ->. congruence.
Qed.

(** ** What may follow a token *)

Lemma delimited_stops (p : ascii -> bool) (rest : string) :
  p " "%char = false -> p ")"%char = false ->
  delimited rest = true -> stops p rest = true.
Proof.
  intros Hs Hp. destruct rest as [|c r]; simpl; [reflexivity|]. intros H.
  apply orb_true_iff in H as [H|H]; apply Ascii.eqb_eq in H; subst;
    now apply negb_true_iff.
Qed.

Lemma delimited_spaces (n : nat) (s : string) : delimited (Str.spaces (S n) ++ s) = true.
Proof. reflexivity. Qed.

(** ** Reading one token *)

Lemma next_token_word (accepts : list terminal) (re : terminal)
      (first rest : ascii -> bool) (w r : string) (alts : list terminal) :
  accepts = re :: alts ->
  regexp re = Some (match_class first rest) ->
  first " "%char = false ->
  word first rest w = true -> stops rest r = true ->
  Lexer.next_token accepts (w ++ r)
  = Ok (Token (Lexer.unless_callback accepts re w) w, r).
Proof.
  intros -> Hre Hf Hw Hr.
  destruct (word_not_space _ _ _ Hf Hw) as (c & w' & -> & Hc).
  change (String c w' ++ r) with (String c (w' ++ r)).
  rewrite next_token_other by assumption.
  change (String c (w' ++ r)) with (String c w' ++ r).
  cbn [Lexer.scan]. rewrite Hre. now rewrite match_class_word.
Qed.

(** An identifier, where keywords are looked for. *)
Lemma unless_callback_search_id (accepts : list terminal) (name : string) :
  Lexer.unless accepts SEARCH_ID = [ALL; NOT; KW_not]
  \/ Lexer.unless accepts SEARCH_ID = [ALL]
  \/ Lexer.unless accepts SEARCH_ID = [] ->
  valid_search_id name = true ->
  Lexer.unless_callback accepts SEARCH_ID name = SEARCH_ID.
Proof.
  unfold valid_search_id, Lexer.unless_callback. intros H Hv.
  apply andb_true_iff in Hv as [_ Hv]. apply negb_true_iff in Hv.
  cbn [existsb] in Hv. apply orb_false_iff in Hv as [H1 Hv].
  apply orb_false_iff in Hv as [H2 Hv]. apply orb_false_iff in Hv as [H3 _].
  rewrite String.eqb_sym in H1, H2, H3.
  destruct H as [-> | [-> | ->]]; cbn [find literal]; now rewrite ?H1, ?H2, ?H3.
Qed.

Lemma valid_search_id_word (name : string) :
  valid_search_id name = true -> word is_id_start is_id_char name = true.
Proof.
  unfold valid_search_id. intros H. apply andb_true_iff in H as [H _].
  now apply (full_match_word SEARCH_ID).
Qed.

Lemma next_token_search_id (accepts alts : list terminal) (name rest : string) :
  accepts = SEARCH_ID :: alts ->
  Lexer.unless accepts SEARCH_ID = [ALL; NOT; KW_not]
  \/ Lexer.unless accepts SEARCH_ID = [ALL]
  \/ Lexer.unless accepts SEARCH_ID = [] ->
  valid_search_id name = true -> delimited rest = true ->
  Lexer.next_token accepts (name ++ rest) = Ok (Token SEARCH_ID name, rest).
Proof.
  intros Ha Hu Hv Hd.
  rewrite (next_token_word accepts SEARCH_ID is_id_start is_id_char name rest alts);
    auto using valid_search_id_word.
  - now rewrite unless_callback_search_id.
  - now apply delimited_stops.
Qed.

(** A keyword or a punctuation mark after an atom. *)
Lemma next_token_after_atom (t : terminal) (l s : string) :
  In t Accepts.after_atom -> literal t = Some l ->
  Lexer.next_token Accepts.after_atom (l ++ s) = Ok (Token t l, s).
Proof.
  intros Hin Hl. unfold Accepts.after_atom in Hin. simpl in Hin.
  repeat (destruct Hin as [<- | Hin]; [inversion Hl; subst; reflexivity|]).
  contradiction.
Qed.

(** ** The lexer on a few texts *)

Example lex_search_id :
  Lexer.next_token Accepts.atom_start "  sel_1 and b"
  = Ok (Token SEARCH_ID "sel_1", " and b").
Proof. reflexivity. Qed.

Example lex_keyword_all :
  Lexer.next_token Accepts.atom_start "all of them" = Ok (Token ALL "all", " of them").
Proof. reflexivity. Qed.

Example lex_allx_is_an_identifier :
  Lexer.next_token Accepts.atom_start "allx" = Ok (Token SEARCH_ID "allx", "").
Proof. reflexivity. Qed.

Example lex_not_after_not_is_an_identifier :
  Lexer.next_token Accepts.after_not " not" = Ok (Token SEARCH_ID "not", "").
Proof. reflexivity. Qed.

Example lex_rpar_not_accepted_at_atom_start :
  Lexer.next_token Accepts.atom_start ")" = Err UnexpectedInput.
Proof. reflexivity. Qed.

Example lex_them :
  Lexer.next_token Accepts.after_of " them" = Ok (Token THEM "them", "").
Proof. reflexivity. Qed.

Example lex_pattern :
  Lexer.next_token Accepts.after_of " sel*" = Ok (Token PATTERN "sel*", "").
Proof. reflexivity. Qed.

(* ================================================================== *)
(** * Facts about the parser *)

Lemma Follow_incl (s1 s2 : list terminal) (rest : string) :
  incl s1 s2 -> Follow s1 rest -> Follow s2 rest.
Proof. intros Hi [Hd (t & Ht & Hin)]. split; [assumption|]. exists t. auto. Qed.

Lemma Follow_keyword (set : list terminal) (t : terminal) (l : string)
      (n : nat) (s : string) :
  In t set -> In t Accepts.after_atom -> literal t = Some l ->
  Follow set (Str.spaces (S n) ++ l ++ s).
Proof.
  intros Hs Ha Hl. split; [reflexivity|]. exists t. split; [|assumption].
  rewrite look_ahead_spaces. unfold look_ahead.
  now rewrite (next_token_after_atom t l s).
Qed.

Lemma Follow_rpar (set : list terminal) (n : nat) (s : string) :
  In RPAR set -> Follow set (Str.spaces n ++ ")" ++ s).
Proof.
  intros Hs. split.
  - destruct n; reflexivity.
  - exists RPAR. split; [|assumption]. now rewrite look_ahead_spaces.
Qed.

Lemma Follow_end (set : list terminal) (n : nat) :
  In T_END set -> Follow set (Str.spaces n).
Proof.
  intros Hs. split.
  - destruct n; reflexivity.
  - exists T_END. split; [|assumption].
    rewrite <- (append_nil_r (Str.spaces n)). now rewrite look_ahead_spaces.
Qed.

Section ParserFacts.

Context {Signature Event : Type}.
Variable match_search_id : Signature -> Event -> string -> bool.
Variable analyze_x_of : Signature -> Event -> option Z -> option string -> bool.

Local Abbreviation value := (@value Signature Event).
Local Abbreviation predicate := (@predicate Signature Event).
Local Abbreviation parser_out := (@parser_out Signature Event).
Local Abbreviation parse_pipe := (parse_pipe match_search_id analyze_x_of).
Local Abbreviation parse_atom := (parse_atom match_search_id analyze_x_of).
Local Abbreviation parse_x_of := (parse_x_of analyze_x_of).
Local Abbreviation parse_not_rule := (parse_not_rule match_search_id analyze_x_of).
Local Abbreviation parse_and_rule := (parse_and_rule match_search_id analyze_x_of).
Local Abbreviation parse_or_rule := (parse_or_rule match_search_id analyze_x_of).
Local Abbreviation parse_pipe_rule := (parse_pipe_rule match_search_id analyze_x_of).
Local Abbreviation and_loop := (and_loop match_search_id analyze_x_of).
Local Abbreviation or_loop := (or_loop match_search_id analyze_x_of).
Local Abbreviation parse_aggregation_expression :=
  (parse_aggregation_expression match_search_id analyze_x_of).
Local Abbreviation denote := (denote match_search_id analyze_x_of).
Local Abbreviation ParsesAtom := (ParsesAtom match_search_id analyze_x_of).
Local Abbreviation ParsesNot := (ParsesNot match_search_id analyze_x_of).
Local Abbreviation AndChain := (AndChain match_search_id analyze_x_of).
Local Abbreviation OrChain := (OrChain match_search_id analyze_x_of).
Local Abbreviation ParsesPipe := (ParsesPipe match_search_id analyze_x_of).
Local Abbreviation FailsAtom := (FailsAtom match_search_id analyze_x_of).
Local Abbreviation FailsNot := (FailsNot match_search_id analyze_x_of).
Local Abbreviation FailsAnd := (FailsAnd match_search_id analyze_x_of).
Local Abbreviation FailsOr := (FailsOr match_search_id analyze_x_of).
Local Abbreviation FailsPipe := (FailsPipe match_search_id analyze_x_of).
Local Abbreviation Parses := (Parses match_search_id analyze_x_of).
Local Abbreviation Fails := (Fails match_search_id analyze_x_of).

(** ** Leading blanks *)

Lemma parse_atom_spaces rec accepts n s :
  parse_atom rec accepts (Str.spaces n ++ s) = parse_atom rec accepts s.
Proof. unfold Parser.parse_atom. now rewrite next_token_spaces. Qed.

Lemma parse_not_rule_spaces rec n s :
  parse_not_rule rec (Str.spaces n ++ s) = parse_not_rule rec s.
Proof.
  unfold Parser.parse_not_rule.
  now rewrite next_token_spaces, parse_atom_spaces.
Qed.

Lemma parse_and_rule_spaces rec n s :
  parse_and_rule rec (Str.spaces n ++ s) = parse_and_rule rec s.
Proof. unfold Parser.parse_and_rule. now rewrite parse_not_rule_spaces. Qed.

Lemma parse_or_rule_spaces rec n s :
  parse_or_rule rec (Str.spaces n ++ s) = parse_or_rule rec s.
Proof. unfold Parser.parse_or_rule. now rewrite parse_and_rule_spaces. Qed.

Lemma parse_pipe_rule_spaces rec n s :
  parse_pipe_rule rec (Str.spaces n ++ s) = parse_pipe_rule rec s.
Proof. unfold Parser.parse_pipe_rule. now rewrite parse_or_rule_spaces. Qed.

Lemma parse_pipe_spaces f n s :
  parse_pipe f (Str.spaces n ++ s) = parse_pipe f s.
Proof. destruct f; simpl; [reflexivity|]. apply parse_pipe_rule_spaces. Qed.

(** ** What it means for a text to be read as a production

    [d] bounds the nesting of parentheses in the text [X]; the rest of
    the input is arbitrary, provided it starts with a token that may
    follow. *)

(** ** Atoms *)

Lemma Follow_look_ahead set rest :
  Follow set rest -> exists t, look_ahead Accepts.after_atom rest = Ok t.
Proof. intros [_ (t & Ht & _)]. now exists t. Qed.

Lemma next_token_not_keyword name rest :
  valid_search_id name = true -> delimited rest = true ->
  Lexer.next_token Accepts.atom_start (name ++ rest) = Ok (Token SEARCH_ID name, rest)
  /\ Lexer.next_token Accepts.after_not (name ++ rest) = Ok (Token SEARCH_ID name, rest).
Proof.
  intros Hv Hd. split.
  - apply (next_token_search_id _ [NUMBER; ALL; NOT; KW_not; LPAR]); auto.
  - apply (next_token_search_id _ [NUMBER; ALL; LPAR]); auto.
Qed.

Lemma parses_search_id name :
  valid_search_id name = true ->
  ParsesAtom 0 name (fun signature event => match_search_id signature event name).
Proof.
  intros Hv f rest _ HF. pose proof HF as [Hd _].
  destruct (Follow_look_ahead _ _ HF) as (t & Ht).
  destruct (next_token_not_keyword name rest Hv Hd) as [H1 H2].
  assert (Ha : forall accepts,
             Lexer.next_token accepts (name ++ rest) = Ok (Token SEARCH_ID name, rest) ->
             parse_atom (parse_pipe f) accepts (name ++ rest)
             = Ok (VFun (fun signature event => match_search_id signature event name), rest)).
  { intros accepts H. unfold Parser.parse_atom. rewrite H. cbn [bind tok_type].
    rewrite Ht. reflexivity. }
  split; [now apply Ha|].
  unfold Parser.parse_not_rule. rewrite H1. cbn [bind tok_type].
  rewrite (Ha _ H1). reflexivity.
Qed.

(** ** Quantified atoms *)

Lemma nonzero_digit_not_id_start c :
  is_nonzero_digit c = true -> is_id_start c = false.
Proof. destruct c as [[] [] [] [] [] [] [] []]; vm_compute; congruence. Qed.

Lemma int_digits_ok s : forall acc,
  Str.forallb is_digit s = true -> exists n, int_digits acc s = Ok n.
Proof.
  induction s as [|c s IH]; simpl; intros acc H.
  - now exists acc.
  - apply andb_true_iff in H as [-> H]. now apply IH.
Qed.

Lemma nonzero_digit_digit c : is_nonzero_digit c = true -> is_digit c = true.
Proof. destruct c as [[] [] [] [] [] [] [] []]; vm_compute; congruence. Qed.

Lemma valid_number_word d :
  valid_number d = true -> word is_nonzero_digit is_digit d = true.
Proof. now apply (full_match_word NUMBER). Qed.

Lemma int_valid_number d :
  valid_number d = true -> exists n, int d = Ok n.
Proof.
  intros H. apply valid_number_word in H. destruct d as [|c d]; [discriminate|].
  simpl in H. apply andb_true_iff in H as [Hc Hd]. unfold int.
  apply int_digits_ok. simpl. now rewrite (nonzero_digit_digit c Hc).
Qed.

Lemma unless_number accepts : Lexer.unless accepts NUMBER = [].
Proof.
  induction accepts as [|t accepts IH]; [reflexivity|].
  unfold Lexer.unless in *. cbn [filter]. rewrite IH. now destruct t.
Qed.

Lemma next_token_number (alts : list terminal) (d rest : string) :
  valid_number d = true -> stops is_digit rest = true ->
  Lexer.next_token (SEARCH_ID :: NUMBER :: alts) (d ++ rest)
  = Ok (Token NUMBER d, rest).
Proof.
  intros Hv Hr. apply valid_number_word in Hv.
  destruct d as [|c d]; [discriminate|]. pose proof Hv as Hw.
  simpl in Hv. apply andb_true_iff in Hv as [Hc Hd].
  change (String c d ++ rest) with (String c (d ++ rest)).
  rewrite next_token_other.
  2:{ intros ->. discriminate. }
  cbn [Lexer.scan regexp]. unfold match_class at 1.
  rewrite (nonzero_digit_not_id_start c Hc).
  change (String c (d ++ rest)) with (String c d ++ rest).
  rewrite match_class_word by assumption.
  unfold Lexer.unless_callback. now rewrite unless_number.
Qed.

Lemma next_token_x accepts x s :
  accepts = Accepts.atom_start \/ accepts = Accepts.after_not ->
  valid_x x = true ->
  Lexer.next_token accepts (render_x x ++ " " ++ s)
  = Ok (Token (match x with XAll => ALL | XNumber _ => NUMBER end) (render_x x),
        " " ++ s).
Proof.
  intros Ha Hv. destruct x as [|d]; simpl render_x.
  - destruct Ha as [-> | ->]; reflexivity.
  - destruct Ha as [-> | ->]; now apply next_token_number.
Qed.

Lemma valid_pattern_word p :
  valid_pattern p = true -> word is_id_start is_pattern_char p = true.
Proof.
  unfold valid_pattern. intros H. apply andb_true_iff in H as [H _].
  now apply (full_match_word PATTERN).
Qed.

Lemma next_token_y y rest :
  valid_y y = true -> delimited rest = true ->
  Lexer.next_token Accepts.after_of (" " ++ render_y y ++ rest)
  = Ok (Token (match y with YThem => THEM | YPattern _ => PATTERN end) (render_y y),
        rest).
Proof.
  intros Hv Hd. rewrite (next_token_spaces _ 1).
  assert (Hs : stops is_pattern_char rest = true) by now apply delimited_stops.
  destruct y as [|p]; simpl render_y.
  - now rewrite (next_token_word Accepts.after_of PATTERN is_id_start is_pattern_char
                                 "them" rest [THEM]).
  - simpl in Hv.
    rewrite (next_token_word Accepts.after_of PATTERN is_id_start is_pattern_char
                             p rest [THEM]); auto using valid_pattern_word.
    unfold valid_pattern in Hv. apply andb_true_iff in Hv as [_ Hv].
    apply negb_true_iff in Hv. rewrite String.eqb_sym in Hv.
    unfold Lexer.unless_callback.
    change (Lexer.unless Accepts.after_of PATTERN) with [THEM].
    cbn [find literal]. now rewrite Hv.
Qed.

Lemma parse_x_of_ok x y rest t :
  valid_x x = true -> valid_y y = true -> delimited rest = true ->
  look_ahead Accepts.after_atom rest = Ok t ->
  parse_x_of
    (Token (match x with XAll => ALL | XNumber _ => NUMBER end) (render_x x))
    (" of " ++ render_y y ++ rest)
  = Ok (VFun (fun signature event =>
                analyze_x_of signature event (count_of x) (selector_of y)), rest).
Proof.
  intros Hx Hy Hd Ht. unfold Parser.parse_x_of.
  change (Lexer.next_token Accepts.after_x (" of " ++ render_y y ++ rest))
    with (Ok (Token OF "of", " " ++ render_y y ++ rest) : result (token * string)).
  cbn [bind tree]. rewrite next_token_y by assumption.
  cbn [bind]. rewrite Ht. cbn [bind tok_type].
  destruct x as [|d]; destruct y as [|p]; cbn -[int];
    try reflexivity;
    destruct (int_valid_number d Hx) as (n & Hn); unfold count_of;
    rewrite Hn; reflexivity.
Qed.

Lemma parses_x_of x y :
  valid_x x = true -> valid_y y = true ->
  ParsesAtom 0 (render_x x ++ " of " ++ render_y y)
    (fun signature event => analyze_x_of signature event (count_of x) (selector_of y)).
Proof.
  intros Hx Hy f rest _ HF. pose proof HF as [Hd (t & Ht & _)].
  rewrite append_assoc.
  change (" of " ++ render_y y) with (" " ++ ("of " ++ render_y y)).
  assert (Ha : forall accepts,
             accepts = Accepts.atom_start \/ accepts = Accepts.after_not ->
             parse_atom (parse_pipe f) accepts
               (render_x x ++ (" " ++ "of " ++ render_y y) ++ rest)
             = Ok (VFun (fun signature event =>
                           analyze_x_of signature event (count_of x) (selector_of y)),
                   rest)).
  { intros accepts Hacc. unfold Parser.parse_atom.
    change ((" " ++ "of " ++ render_y y) ++ rest)
      with (" " ++ ("of " ++ render_y y ++ rest)).
    rewrite (next_token_x accepts x _ Hacc Hx). cbn [bind tok_type].
    change (" " ++ "of " ++ render_y y ++ rest) with (" of " ++ render_y y ++ rest).
    assert (Hp := parse_x_of_ok x y rest t Hx Hy Hd Ht).
    destruct x; rewrite Hp; reflexivity. }
  split; [apply Ha; now right|].
  unfold Parser.parse_not_rule.
  change ((" " ++ "of " ++ render_y y) ++ rest)
      with (" " ++ ("of " ++ render_y y ++ rest)).
  rewrite (next_token_x _ x _ (or_introl eq_refl) Hx). cbn [bind tok_type].
  assert (Hb := Ha _ (or_introl eq_refl)).
  change ((" " ++ "of " ++ render_y y) ++ rest)
      with (" " ++ ("of " ++ render_y y ++ rest)) in Hb.
  destruct x; rewrite Hb; reflexivity.
Qed.

(** ** Parentheses *)

Lemma next_token_lpar accepts s :
  accepts = Accepts.atom_start \/ accepts = Accepts.after_not ->
  Lexer.next_token accepts ("(" ++ s) = Ok (Token LPAR "(", s).
Proof. intros [-> | ->]; reflexivity. Qed.

Lemma next_token_rpar n s :
  Lexer.next_token Accepts.after_atom (Str.spaces n ++ ")" ++ s) = Ok (Token RPAR ")", s).
Proof. now rewrite next_token_spaces. Qed.

Lemma parses_group d X p l r :
  ParsesPipe d X p ->
  ParsesAtom (S d) ("(" ++ Str.spaces l ++ X ++ Str.spaces r ++ ")") p.
Proof.
  intros HP f rest Hf HF. destruct f as [|f]; [lia|].
  destruct (Follow_look_ahead _ _ HF) as (t & Ht).
  assert (Hrec : parse_pipe (S f) (Str.spaces l ++ X ++ Str.spaces r ++ ")" ++ rest)
                 = Ok (VFun p, Str.spaces r ++ ")" ++ rest)).
  { cbn [Parser.parse_pipe]. rewrite parse_pipe_rule_spaces.
    apply HP; [lia|]. apply Follow_rpar. simpl; auto. }
  assert (Ha : forall accepts,
             accepts = Accepts.atom_start \/ accepts = Accepts.after_not ->
             parse_atom (parse_pipe (S f)) accepts
               (("(" ++ Str.spaces l ++ X ++ Str.spaces r ++ ")") ++ rest)
             = Ok (VFun p, rest)).
  { intros accepts Hacc. unfold Parser.parse_atom.
    rewrite !append_assoc. rewrite (next_token_lpar accepts _ Hacc).
    cbn [bind tok_type]. rewrite ?append_assoc. rewrite Hrec. cbn [bind].
    rewrite next_token_rpar. cbn [bind tok_type]. rewrite Ht. reflexivity. }
  split; [apply Ha; now right|].
  unfold Parser.parse_not_rule.
  rewrite (Ha _ (or_introl eq_refl)).
  rewrite !append_assoc. rewrite (next_token_lpar _ _ (or_introl eq_refl)).
  reflexivity.
Qed.

(** ** Negation *)

Lemma parses_atom_not d X p : ParsesAtom d X p -> ParsesNot d X p.
Proof. intros H f rest Hf HF. now apply H. Qed.

Lemma next_token_not k n s :
  Lexer.next_token Accepts.atom_start (render_not k ++ Str.spaces (S n) ++ s)
  = Ok (Token (match k with Lower => KW_not | Upper => NOT end) (render_not k),
        Str.spaces (S n) ++ s).
Proof. destruct k; reflexivity. Qed.

Lemma parses_not d X p k n :
  ParsesAtom d X p ->
  ParsesNot d (render_not k ++ Str.spaces (S n) ++ X)
            (fun signature event => negb (p signature event)).
Proof.
  intros HP f rest Hf HF. unfold Parser.parse_not_rule.
  rewrite !append_assoc. rewrite next_token_not.
  destruct (HP f rest Hf HF) as [Ha _].
  destruct k; cbn [bind tok_type tree]; rewrite parse_atom_spaces, Ha; reflexivity.
Qed.

(** ** Conjunction *)

Lemma callable_map_VFun (ps : list predicate) :
  forallb callable (map (@VFun Signature Event) ps) = true.
Proof. induction ps; simpl; auto. Qed.

Lemma functions_map_VFun (ps : list predicate) :
  functions (map (@VFun Signature Event) ps) = ps.
Proof. induction ps; simpl; congruence. Qed.

Lemma and_rule_map_VFun (ps : list predicate) :
  ps <> [] -> and_rule (map VFun ps) = Ok (VFun (and_pred ps)).
Proof.
  intros Hne. unfold and_rule. rewrite callable_map_VFun. cbn [negb].
  rewrite functions_map_VFun.
  destruct ps as [|p [|p' ps]]; [congruence|reflexivity|reflexivity].
Qed.

Lemma or_rule_map_VFun (qs : list predicate) :
  qs <> [] -> or_rule (map VFun qs) = Ok (VFun (or_pred qs)).
Proof.
  intros Hne. unfold or_rule. rewrite callable_map_VFun. cbn [negb].
  rewrite functions_map_VFun.
  destruct qs as [|p [|p' ps]]; [congruence|reflexivity|reflexivity].
Qed.

Lemma and_pred_agree (ps : list predicate) : agree (and_pred ps) (_and_operation ps).
Proof.
  destruct ps as [|p [|p' ps]]; intros sig ev; try reflexivity.
  simpl. now destruct (p sig ev).
Qed.

Lemma or_pred_agree (qs : list predicate) : agree (or_pred qs) (_or_operation qs).
Proof.
  destruct qs as [|p [|p' ps]]; intros sig ev; try reflexivity.
  simpl. now destruct (p sig ev).
Qed.

Lemma and_operation_app (ps ps' : list predicate) sig ev :
  _and_operation (ps ++ ps') sig ev
  = _and_operation ps sig ev && _and_operation ps' sig ev.
Proof.
  induction ps as [|p ps IH]; simpl; [reflexivity|].
  destruct (p sig ev); simpl; auto.
Qed.

Lemma or_operation_app (qs qs' : list predicate) sig ev :
  _or_operation (qs ++ qs') sig ev
  = _or_operation qs sig ev || _or_operation qs' sig ev.
Proof.
  induction qs as [|p ps IH]; simpl; [reflexivity|].
  destruct (p sig ev); simpl; auto.
Qed.

Lemma and_loop_eq rec k args s :
  and_loop rec k args s
  = ('(t, s1) <- Lexer.next_token Accepts.after_atom s;;
     match tok_type t with
     | KW_and | KW_AND =>
         match k with
         | O => Err OutOfFuel
         | S k' =>
             '(v, s2) <- parse_not_rule rec s1;;
             and_loop rec k' (args ++ [v])%list s2
         end
     | _ => v <- and_rule args;; Ok (v, s)
     end).
Proof. destruct k; reflexivity. Qed.

Lemma or_loop_eq rec k args s :
  or_loop rec k args s
  = ('(t, s1) <- Lexer.next_token Accepts.after_atom s;;
     match tok_type t with
     | KW_or | KW_OR =>
         match k with
         | O => Err OutOfFuel
         | S k' =>
             '(v, s2) <- parse_and_rule rec s1;;
             or_loop rec k' (args ++ [v])%list s2
         end
     | _ => v <- or_rule args;; Ok (v, s)
     end).
Proof. destruct k; reflexivity. Qed.

Lemma look_ahead_next_token accepts s t :
  look_ahead accepts s = Ok t ->
  exists v s', Lexer.next_token accepts s = Ok (Token t v, s').
Proof.
  unfold look_ahead. destruct (Lexer.next_token accepts s) as [[[t' v] s']|e];
    [|discriminate]. cbn. intros H; inversion H; subst. now exists v, s'.
Qed.

Lemma and_loop_finish rec k ps rest :
  ps <> [] -> Follow follow_and rest ->
  and_loop rec k (map VFun ps) rest = Ok (VFun (and_pred ps), rest).
Proof.
  intros Hne [_ (t & Ht & Hin)]. rewrite and_loop_eq.
  destruct (look_ahead_next_token _ _ _ Ht) as (v & s' & ->).
  cbn [bind tok_type]. rewrite (and_rule_map_VFun ps Hne).
  simpl in Hin. decompose [or] Hin; subst; try reflexivity. contradiction.
Qed.

Lemma or_loop_finish rec k qs rest :
  qs <> [] -> Follow follow_or rest ->
  or_loop rec k (map VFun qs) rest = Ok (VFun (or_pred qs), rest).
Proof.
  intros Hne [_ (t & Ht & Hin)]. rewrite or_loop_eq.
  destruct (look_ahead_next_token _ _ _ Ht) as (v & s' & ->).
  cbn [bind tok_type]. rewrite (or_rule_map_VFun qs Hne).
  simpl in Hin. decompose [or] Hin; subst; try reflexivity. contradiction.
Qed.

Lemma and_chain_single d X p : ParsesNot d X p -> AndChain d X [p].
Proof.
  intros HP f rest Hf HF. exists (String.length rest). split; [lia|].
  unfold Parser.parse_and_rule. now rewrite (HP f rest Hf HF).
Qed.

Lemma next_token_and k n s :
  Lexer.next_token Accepts.after_atom (Str.spaces n ++ render_and k ++ s)
  = Ok (Token (match k with Lower => KW_and | Upper => KW_AND end) (render_and k), s).
Proof. rewrite next_token_spaces. destruct k; reflexivity. Qed.

Lemma next_token_or k n s :
  Lexer.next_token Accepts.after_atom (Str.spaces n ++ render_or k ++ s)
  = Ok (Token (match k with Lower => KW_or | Upper => KW_OR end) (render_or k), s).
Proof. rewrite next_token_spaces. destruct k; reflexivity. Qed.

Lemma Follow_and set k n s :
  incl [KW_and; KW_AND] set ->
  Follow set (Str.spaces (S n) ++ render_and k ++ s).
Proof.
  intros Hi. split; [reflexivity|].
  exists (match k with Lower => KW_and | Upper => KW_AND end). split.
  - unfold look_ahead. now rewrite next_token_and.
  - apply Hi. destruct k; simpl; auto.
Qed.

Lemma Follow_or set k n s :
  incl [KW_or; KW_OR] set ->
  Follow set (Str.spaces (S n) ++ render_or k ++ s).
Proof.
  intros Hi. split; [reflexivity|].
  exists (match k with Lower => KW_or | Upper => KW_OR end). split.
  - unfold look_ahead. now rewrite next_token_or.
  - apply Hi. destruct k; simpl; auto.
Qed.

Lemma and_chain_snoc d1 d2 X1 X2 ps p k l r :
  AndChain d1 X1 ps -> ParsesNot d2 X2 p ->
  AndChain (Nat.max d1 d2)
           (X1 ++ Str.spaces (S l) ++ render_and k ++ Str.spaces r ++ X2)
           (ps ++ [p]).
Proof.
  intros H1 H2 f rest Hf HF. rewrite !append_assoc.
  destruct (H1 f (Str.spaces (S l) ++ render_and k ++ Str.spaces r ++ X2 ++ rest))
    as (k1 & Hk1 & ->); [lia| |].
  { apply Follow_and. unfold Accepts.after_atom. intros x Hx. simpl in *. tauto. }
  rewrite and_loop_eq, next_token_and.
  rewrite !length_append, length_spaces in Hk1.
  destruct k1 as [|k1]; [simpl in Hk1; lia|].
  exists k1. split; [simpl in Hk1; lia|].
  rewrite map_app.
  destruct k; cbn [bind tok_type];
    rewrite parse_not_rule_spaces, (H2 f rest) by (auto; lia); reflexivity.
Qed.

(** ** Disjunction *)

Lemma incl_follow_and : incl follow_and Accepts.after_atom.
Proof. intros x Hx. unfold follow_and, Accepts.after_atom in *. simpl in *. tauto. Qed.

Lemma incl_follow_or : incl follow_or follow_and.
Proof. intros x Hx. unfold follow_and, follow_or in *. simpl in *. tauto. Qed.

Lemma incl_follow_pipe : incl follow_pipe follow_or.
Proof. intros x Hx. unfold follow_pipe, follow_or in *. simpl in *. tauto. Qed.

Lemma or_chain_single d X ps :
  AndChain d X ps -> ps <> [] -> OrChain d X [and_pred ps].
Proof.
  intros HP Hne f rest Hf HF. exists (String.length rest). split; [lia|].
  unfold Parser.parse_or_rule.
  destruct (HP f rest Hf (Follow_incl _ _ _ incl_follow_and HF)) as (k & _ & ->).
  now rewrite and_loop_finish.
Qed.

Lemma or_chain_snoc d1 d2 X1 X2 qs ps k l r :
  OrChain d1 X1 qs -> AndChain d2 X2 ps -> ps <> [] ->
  OrChain (Nat.max d1 d2)
          (X1 ++ Str.spaces (S l) ++ render_or k ++ Str.spaces r ++ X2)
          (qs ++ [and_pred ps]).
Proof.
  intros H1 H2 Hne f rest Hf HF. rewrite !append_assoc.
  destruct (H1 f (Str.spaces (S l) ++ render_or k ++ Str.spaces r ++ X2 ++ rest))
    as (k1 & Hk1 & ->); [lia| |].
  { apply Follow_or. unfold follow_and. intros x Hx. simpl in *. tauto. }
  rewrite or_loop_eq, next_token_or.
  rewrite !length_append, length_spaces in Hk1.
  destruct k1 as [|k1]; [simpl in Hk1; lia|].
  exists k1. split; [simpl in Hk1; lia|].
  rewrite map_app.
  destruct (H2 f rest ltac:(lia) (Follow_incl _ _ _ incl_follow_and HF))
    as (k2 & _ & Hk2).
  destruct k; cbn [bind tok_type];
    rewrite parse_and_rule_spaces, Hk2, and_loop_finish by assumption; reflexivity.
Qed.

(** ** The whole condition *)

Lemma parses_pipe_of_or d X qs :
  OrChain d X qs -> qs <> [] -> ParsesPipe d X (or_pred qs).
Proof.
  intros HP Hne f rest Hf HF. unfold Parser.parse_pipe_rule.
  pose proof (Follow_incl _ _ _ incl_follow_pipe HF) as HFo.
  destruct (HP f rest Hf (Follow_incl _ _ _ incl_follow_or HFo)) as (k & _ & ->).
  rewrite or_loop_finish by assumption. cbn [bind].
  destruct HF as [_ (t & Ht & Hin)].
  destruct (look_ahead_next_token _ _ _ Ht) as (v & s' & ->).
  simpl in Hin. decompose [or] Hin; subst; try reflexivity. contradiction.
Qed.

(** ** Texts that raise [UnsupportedFeature] *)

Lemma fails_group d X m l r :
  FailsPipe d X m ->
  FailsAtom (S d) ("(" ++ Str.spaces l ++ X ++ Str.spaces r ++ ")") m.
Proof.
  intros HP f rest Hf. destruct f as [|f]; [lia|].
  assert (Hrec : parse_pipe (S f) (Str.spaces l ++ X ++ Str.spaces r ++ ")" ++ rest)
                 = Err (UnsupportedFeature m)).
  { cbn [Parser.parse_pipe]. rewrite parse_pipe_rule_spaces.
    apply HP; [lia|]. apply Follow_rpar. simpl; auto. }
  assert (Ha : forall accepts,
             accepts = Accepts.atom_start \/ accepts = Accepts.after_not ->
             parse_atom (parse_pipe (S f)) accepts
               (("(" ++ Str.spaces l ++ X ++ Str.spaces r ++ ")") ++ rest)
             = Err (UnsupportedFeature m)).
  { intros accepts Hacc. unfold Parser.parse_atom.
    rewrite !append_assoc. rewrite (next_token_lpar accepts _ Hacc).
    cbn [bind tok_type]. rewrite ?append_assoc. now rewrite Hrec. }
  split; [apply Ha; now right|].
  unfold Parser.parse_not_rule.
  rewrite (Ha _ (or_introl eq_refl)).
  rewrite !append_assoc. rewrite (next_token_lpar _ _ (or_introl eq_refl)).
  reflexivity.
Qed.

Lemma fails_atom_not d X m : FailsAtom d X m -> FailsNot d X m.
Proof. intros H f rest Hf. now apply H. Qed.

Lemma fails_not d X m k n :
  FailsAtom d X m -> FailsNot d (render_not k ++ Str.spaces (S n) ++ X) m.
Proof.
  intros HP f rest Hf. unfold Parser.parse_not_rule.
  rewrite !append_assoc. rewrite next_token_not.
  destruct (HP f rest Hf) as [Ha _].
  destruct k; cbn [bind tok_type tree]; rewrite parse_atom_spaces, Ha; reflexivity.
Qed.

Lemma fails_not_and d X m : FailsNot d X m -> FailsAnd d X m.
Proof.
  intros H f rest Hf. unfold Parser.parse_and_rule. now rewrite H.
Qed.

Lemma fails_and_left d X Y m : FailsAnd d X m -> FailsAnd d (X ++ Y) m.
Proof. intros H f rest Hf. rewrite append_assoc. now apply H. Qed.

Lemma fails_and_right d1 d2 X1 X2 ps m k l r :
  AndChain d1 X1 ps -> FailsNot d2 X2 m ->
  FailsAnd (Nat.max d1 d2)
           (X1 ++ Str.spaces (S l) ++ render_and k ++ Str.spaces r ++ X2) m.
Proof.
  intros H1 H2 f rest Hf. rewrite !append_assoc.
  destruct (H1 f (Str.spaces (S l) ++ render_and k ++ Str.spaces r ++ X2 ++ rest))
    as (k1 & Hk1 & ->); [lia| |].
  { apply Follow_and. unfold Accepts.after_atom. intros x Hx. simpl in *. tauto. }
  rewrite and_loop_eq, next_token_and.
  rewrite !length_append, length_spaces in Hk1.
  destruct k1 as [|k1]; [simpl in Hk1; lia|].
  destruct k; cbn [bind tok_type];
    rewrite parse_not_rule_spaces, (H2 f rest) by lia; reflexivity.
Qed.

Lemma fails_and_or d X m : FailsAnd d X m -> FailsOr d X m.
Proof.
  intros H f rest Hf. unfold Parser.parse_or_rule. now rewrite H.
Qed.

Lemma fails_or_left d X Y m : FailsOr d X m -> FailsOr d (X ++ Y) m.
Proof. intros H f rest Hf. rewrite append_assoc. now apply H. Qed.

Lemma fails_or_right d1 d2 X1 X2 qs m k l r :
  OrChain d1 X1 qs -> FailsAnd d2 X2 m ->
  FailsOr (Nat.max d1 d2)
          (X1 ++ Str.spaces (S l) ++ render_or k ++ Str.spaces r ++ X2) m.
Proof.
  intros H1 H2 f rest Hf. rewrite !append_assoc.
  destruct (H1 f (Str.spaces (S l) ++ render_or k ++ Str.spaces r ++ X2 ++ rest))
    as (k1 & Hk1 & ->); [lia| |].
  { apply Follow_or. unfold follow_and. intros x Hx. simpl in *. tauto. }
  rewrite or_loop_eq, next_token_or.
  rewrite !length_append, length_spaces in Hk1.
  destruct k1 as [|k1]; [simpl in Hk1; lia|].
  destruct k; cbn [bind tok_type];
    rewrite parse_and_rule_spaces, (H2 f rest) by lia; reflexivity.
Qed.

Lemma fails_or_pipe d X m : FailsOr d X m -> FailsPipe d X m.
Proof.
  intros H f rest Hf _. unfold Parser.parse_pipe_rule. now rewrite H.
Qed.

Lemma fails_pipe_left d X Y m : FailsOr d X m -> FailsPipe d (X ++ Y) m.
Proof. intros H. apply fails_or_pipe. now apply fails_or_left. Qed.

(** ** Aggregation and near clauses *)

Lemma next_token_vbar n s :
  Lexer.next_token Accepts.after_atom (Str.spaces n ++ "|" ++ s) = Ok (Token VBAR "|", s).
Proof. now rewrite next_token_spaces. Qed.

Lemma Follow_vbar set n s :
  In VBAR set -> Follow set (Str.spaces (S n) ++ "|" ++ s).
Proof.
  intros Hin. split; [reflexivity|]. exists VBAR. split; [|assumption].
  unfold look_ahead. now rewrite next_token_vbar.
Qed.

Lemma next_token_function f s :
  exists t, Lexer.next_token Accepts.after_pipe (render_function f ++ s)
            = Ok (Token t (render_function f), s)
            /\ t <> NEAR.
Proof.
  destruct f;
    [exists COUNT | exists MIN | exists MAX | exists AVG | exists SUM];
    (split; [reflexivity | discriminate]).
Qed.

Lemma next_token_field accepts alts name rest :
  accepts = SEARCH_ID :: alts ->
  Lexer.unless accepts SEARCH_ID = [] ->
  Lexer.full_match SEARCH_ID name = true -> stops is_id_char rest = true ->
  Lexer.next_token accepts (name ++ rest) = Ok (Token SEARCH_ID name, rest).
Proof.
  intros Ha Hu Hv Hs.
  rewrite (next_token_word accepts SEARCH_ID is_id_start is_id_char name rest alts);
    auto.
  - unfold Lexer.unless_callback. now rewrite Hu.
  - now apply (full_match_word SEARCH_ID).
Qed.

Lemma next_token_value d rest :
  valid_number d = true -> delimited rest = true ->
  Lexer.next_token Accepts.after_comparison (d ++ rest) = Ok (Token NUMBER d, rest).
Proof.
  intros Hv Hd.
  assert (Hs : stops is_digit rest = true) by now apply delimited_stops.
  rewrite (next_token_word Accepts.after_comparison NUMBER is_nonzero_digit is_digit
                           d rest []); auto using valid_number_word.
Qed.

Lemma scan_literal accepts alts s tok r :
  (forall t, In t alts -> regexp t = None) ->
  Lexer.scan accepts alts s = Some (tok, r) ->
  In (tok_type tok) alts /\ literal (tok_type tok) = Some (tok_value tok)
  /\ Str.strip_prefix (tok_value tok) s = Some r.
Proof.
  induction alts as [|t alts IH]; cbn [Lexer.scan]; intros Hre H; [discriminate|].
  rewrite (Hre t (or_introl eq_refl)) in H.
  assert (Hrest : Lexer.scan accepts alts s = Some (tok, r) ->
                  In (tok_type tok) (t :: alts)
                  /\ literal (tok_type tok) = Some (tok_value tok)
                  /\ Str.strip_prefix (tok_value tok) s = Some r).
  { intros H'. destruct (IH (fun t' Ht' => Hre t' (or_intror Ht')) H') as (? & ? & ?).
    simpl; auto. }
  destruct (literal t) as [l|] eqn:Hl; [|auto].
  destruct (Lexer.embedded accepts t); [auto|].
  destruct (Str.strip_prefix l s) as [r'|] eqn:Hp; [|auto].
  inversion H; subst. simpl. auto.
Qed.

Lemma look_ahead_after_value rest :
  Follow follow_pipe rest ->
  exists t, look_ahead Accepts.after_value rest = Ok t.
Proof.
  intros [_ (t & Ht & Hin)]. unfold look_ahead, Lexer.next_token in *.
  destruct (Str.drop_spaces rest) as [|c s] eqn:Hs; [now exists T_END|].
  destruct (Lexer.scan Accepts.after_atom Accepts.after_atom (String c s))
    as [[tok r]|] eqn:Hscan; [|discriminate].
  cbn in Ht. inversion Ht; subst.
  apply scan_literal in Hscan as (_ & Hl & Hp).
  2:{ intros t Ht'. unfold Accepts.after_atom in Ht'. simpl in Ht'.
      decompose [or] Ht'; subst; try reflexivity. contradiction. }
  destruct tok as [ty v]. cbn [tok_type tok_value] in *.
  destruct Hin as [<- | [<- | []]].
  - inversion Hl; subst. cbn [Str.strip_prefix] in Hp.
    destruct (Ascii.eqb_spec ")" c); [subst|discriminate]. now exists RPAR.
  - discriminate.
Qed.

Lemma aggregation_function_fails t field group op num rest :
  valid_field field = true -> valid_field group = true ->
  valid_number num = true -> Follow follow_pipe rest ->
  parse_aggregation_function t
    ("(" ++ render_field field ++ ")" ++ render_group group
         ++ " " ++ render_op op ++ " " ++ num ++ rest)
  = (Err (UnsupportedFeature "Aggregation expressions not supported.") : parser_out).
Proof.
  intros Hf Hg Hv HF. pose proof HF as [Hd _].
  destruct (look_ahead_after_value rest HF) as (la & Hla).
  unfold parse_aggregation_function.
  change (Lexer.next_token Accepts.after_function
            ("(" ++ render_field field ++ ")" ++ render_group group
                 ++ " " ++ render_op op ++ " " ++ num ++ rest))
    with (Ok (Token LPAR "(",
              render_field field ++ ")" ++ render_group group
                           ++ " " ++ render_op op ++ " " ++ num ++ rest)
          : result (token * string)).
  cbn [bind tree].
  assert (Hop : forall s' : string,
             Lexer.next_token Accepts.after_group (" " ++ render_op op ++ " " ++ s')
             = Ok (Token (match op with OpGT => GT | OpLT => LT | OpEQ => EQ end)
                         (render_op op), " " ++ s')
             /\ Lexer.next_token Accepts.after_function_rpar
                                 (" " ++ render_op op ++ " " ++ s')
                = Ok (Token (match op with OpGT => GT | OpLT => LT | OpEQ => EQ end)
                            (render_op op), " " ++ s')).
  { intros s'. destruct op; split; reflexivity. }
  assert (Hval : Lexer.next_token Accepts.after_comparison (" " ++ num ++ rest)
                 = Ok (Token NUMBER num, rest)).
  { rewrite (next_token_spaces _ 1). now apply next_token_value. }
  assert (Htail : forall (fv fld : value),
             ('(t4, s4) <- Lexer.next_token Accepts.after_function_rpar
                             (render_group group ++ " " ++ render_op op ++ " "
                                           ++ num ++ rest);;
              '(group, op, s5) <- match tok_type t4 with
                                  | BY =>
                                      '(g, s') <- Lexer.next_token Accepts.after_by s4;;
                                      '(op, s'') <- Lexer.next_token Accepts.after_group s';;
                                      grp <- tree "group_field" [VToken g];;
                                      Ok (grp, op, s'')
                                  | _ => Ok (VNone, t4, s4)
                                  end;;
              '(n, s6) <- Lexer.next_token Accepts.after_comparison s5;;
              cmp <- tree "comparison_op" [VToken op];;
              _ <- look_ahead Accepts.after_value s6;;
              val <- tree "value" [VToken n];;
              a <- aggregation_expression [fv; fld; group; cmp; val];;
              Ok (a, s6))
             = (Err (UnsupportedFeature "Aggregation expressions not supported.")
                : parser_out)).
  { intros fv fld. destruct group as [g|]; cbn [render_group].
    - change (Lexer.next_token Accepts.after_function_rpar
                ((" by " ++ g) ++ " " ++ render_op op ++ " " ++ num ++ rest))
        with (Lexer.next_token Accepts.after_function_rpar
                (Str.spaces 1 ++ "by" ++ " " ++ g ++ " " ++ render_op op ++ " "
                            ++ num ++ rest)).
      rewrite next_token_spaces.
      change (Lexer.next_token Accepts.after_function_rpar
                ("by" ++ " " ++ g ++ " " ++ render_op op ++ " " ++ num ++ rest))
        with (Ok (Token BY "by",
                  Str.spaces 1 ++ g ++ " " ++ render_op op ++ " " ++ num ++ rest)
              : result (token * string)).
      cbn [bind tok_type]. rewrite next_token_spaces.
      rewrite (next_token_field Accepts.after_by [] g) by (auto; reflexivity).
      cbn [bind]. destruct (Hop (num ++ rest)) as [-> _]. cbn [bind tree].
      rewrite Hval. cbn [bind]. rewrite Hla. reflexivity.
    - change ("" ++ " " ++ render_op op ++ " " ++ num ++ rest)
        with (" " ++ render_op op ++ " " ++ num ++ rest).
      destruct (Hop (num ++ rest)) as [_ ->].
      destruct op; cbn [bind tok_type tree]; rewrite Hval; cbn [bind];
        rewrite Hla; reflexivity. }
  destruct field as [fld|]; cbn [render_field].
  - rewrite (next_token_field Accepts.after_function_lpar [RPAR] fld)
      by (auto; reflexivity).
    cbn [bind tok_type].
    change (Lexer.next_token Accepts.after_field
              (")" ++ render_group group ++ " " ++ render_op op ++ " " ++ num ++ rest))
      with (Ok (Token RPAR ")",
                render_group group ++ " " ++ render_op op ++ " " ++ num ++ rest)
            : result (token * string)).
    cbn [bind tree].
    exact (Htail (VTree "aggregation_function" [VToken t])
                 (VTree "aggregation_field" [VToken (Token SEARCH_ID fld)])).
  - change (Lexer.next_token Accepts.after_function_lpar
              ("" ++ ")" ++ render_group group ++ " " ++ render_op op ++ " "
                  ++ num ++ rest))
      with (Ok (Token RPAR ")",
                render_group group ++ " " ++ render_op op ++ " " ++ num ++ rest)
            : result (token * string)).
    cbn [bind tok_type].
    exact (Htail (VTree "aggregation_function" [VToken t]) VNone).
Qed.

Lemma next_token_near s :
  Lexer.next_token Accepts.after_pipe ("near " ++ s) = Ok (Token NEAR "near", " " ++ s).
Proof. reflexivity. Qed.

Lemma pipe_rule_reads_or d X qs f rest l :
  OrChain d X qs -> qs <> [] -> d <= f ->
  parse_or_rule (parse_pipe f) (X ++ Str.spaces (S l) ++ "|" ++ rest)
  = Ok (VFun (or_pred qs), Str.spaces (S l) ++ "|" ++ rest).
Proof.
  intros HP Hne Hf.
  destruct (HP f (Str.spaces (S l) ++ "|" ++ rest) Hf) as (k1 & _ & ->).
  { apply Follow_vbar. unfold follow_and; simpl; auto. }
  apply or_loop_finish; [assumption|].
  apply Follow_vbar. unfold follow_or; simpl; auto.
Qed.

Lemma fails_aggregate d X qs l r f field group op num :
  OrChain d X qs -> qs <> [] ->
  valid_field field = true -> valid_field group = true ->
  valid_number num = true ->
  FailsPipe d (X ++ Str.spaces (S l) ++ "|" ++ Str.spaces r
                 ++ render_aggregation f field group op num)
            "Aggregation expressions not supported.".
Proof.
  intros HP Hne Hfield Hgroup Hnum f0 rest Hf HF.
  unfold Parser.parse_pipe_rule, render_aggregation. rewrite !append_assoc.
  rewrite (pipe_rule_reads_or d X qs f0 _ l HP Hne Hf).
  cbn [bind]. rewrite next_token_vbar. cbn [bind tok_type].
  unfold Parser.parse_aggregation_expression. rewrite next_token_spaces.
  destruct (next_token_function f
              ("(" ++ render_field field ++ ")" ++ render_group group ++ " "
                   ++ render_op op ++ " " ++ num ++ rest)) as (t & -> & Ht).
  cbn [bind tok_type].
  rewrite (aggregation_function_fails _ field group op num rest) by assumption.
  now destruct t.
Qed.

Lemma fails_near d1 d2 X Y qs qs' l r :
  OrChain d1 X qs -> qs <> [] -> OrChain d2 Y qs' -> qs' <> [] ->
  FailsPipe (Nat.max d1 d2)
            (X ++ Str.spaces (S l) ++ "|" ++ Str.spaces r ++ "near " ++ Y)
            "Near operation not supported.".
Proof.
  intros HX Hne HY Hne' f0 rest Hf HF.
  unfold Parser.parse_pipe_rule. rewrite !append_assoc.
  rewrite (pipe_rule_reads_or d1 X qs f0 _ l HX Hne) by lia.
  cbn [bind]. rewrite next_token_vbar. cbn [bind tok_type].
  unfold Parser.parse_aggregation_expression.
  rewrite next_token_spaces, next_token_near. cbn [bind tok_type].
  rewrite (parse_or_rule_spaces _ 1).
  pose proof (Follow_incl _ _ _ incl_follow_pipe HF) as HFo.
  destruct (HY f0 rest ltac:(lia) (Follow_incl _ _ _ incl_follow_or HFo))
    as (k & _ & ->).
  rewrite or_loop_finish by assumption. cbn [bind].
  destruct HF as [_ (t & -> & Hin)]. cbn [bind].
  simpl in Hin. decompose [or] Hin; subst; try reflexivity. contradiction.
Qed.

Lemma fails_near_inner d1 d2 X Y qs m l r :
  OrChain d1 X qs -> qs <> [] -> FailsOr d2 Y m ->
  FailsPipe (Nat.max d1 d2)
            (X ++ Str.spaces (S l) ++ "|" ++ Str.spaces r ++ "near " ++ Y) m.
Proof.
  intros HX Hne HY f0 rest Hf HF.
  unfold Parser.parse_pipe_rule. rewrite !append_assoc.
  rewrite (pipe_rule_reads_or d1 X qs f0 _ l HX Hne) by lia.
  cbn [bind]. rewrite next_token_vbar. cbn [bind tok_type].
  unfold Parser.parse_aggregation_expression.
  rewrite next_token_spaces, next_token_near. cbn [bind tok_type].
  rewrite (parse_or_rule_spaces _ 1), (HY f0 rest) by lia. reflexivity.
Qed.

(** ** Reading a text at a level of the grammar *)

Lemma agree_trans (p q r : predicate) : agree p q -> agree q r -> agree p r.
Proof. intros H1 H2 sig ev. now rewrite H1. Qed.

Lemma Parses_step L d X sem : L < 4 -> Parses (S L) d X sem -> Parses L d X sem.
Proof.
  intros HL. destruct L as [|[|[|[|L]]]]; [| | | |lia]; cbn [Reading.Parses].
  - intros (qs & Hne & HP & Ha). exists (or_pred qs). split.
    + now apply parses_pipe_of_or.
    + eapply agree_trans; [apply or_pred_agree | exact Ha].
  - intros (ps & Hne & HP & Ha). exists [and_pred ps]. repeat split.
    + discriminate.
    + now apply or_chain_single.
    + intros sig ev. simpl. rewrite <- Ha, <- (and_pred_agree ps).
      now destruct (and_pred ps sig ev).
  - intros (p & HP & Ha). exists [p]. repeat split.
    + discriminate.
    + now apply and_chain_single.
    + intros sig ev. simpl. rewrite <- Ha. now destruct (p sig ev).
  - intros (p & HP & Ha). exists p. split; [now apply parses_atom_not | assumption].
Qed.

Lemma Parses_le L L' d X sem :
  L' <= L -> L <= 4 -> Parses L d X sem -> Parses L' d X sem.
Proof.
  induction 1 as [|L Hle IH]; [auto|]. intros HL HP.
  apply IH; [lia|]. apply Parses_step; [lia | assumption].
Qed.

Lemma Fails_step L d X m : L < 4 -> Fails (S L) d X m -> Fails L d X m.
Proof.
  intros HL. destruct L as [|[|[|[|L]]]]; [| | | |lia]; cbn [Reading.Fails].
  - apply fails_or_pipe.
  - apply fails_and_or.
  - apply fails_not_and.
  - apply fails_atom_not.
Qed.

Lemma Fails_le L L' d X m :
  L' <= L -> L <= 4 -> Fails L d X m -> Fails L' d X m.
Proof.
  induction 1 as [|L Hle IH]; [auto|]. intros HL HP.
  apply IH; [lia|]. apply Fails_step; [lia | assumption].
Qed.

Lemma Parses_deeper L d d' X sem : d <= d' -> Parses L d X sem -> Parses L d' X sem.
Proof.
  intros Hd. destruct L as [|[|[|[|L]]]]; cbn [Reading.Parses].
  - intros (p & HP & Ha). exists p. split; [|assumption].
    intros f rest Hf. apply HP. lia.
  - intros (qs & Hne & HP & Ha). exists qs. repeat split; [assumption| |assumption].
    intros f rest Hf. apply HP. lia.
  - intros (ps & Hne & HP & Ha). exists ps. repeat split; [assumption| |assumption].
    intros f rest Hf. apply HP. lia.
  - intros (p & HP & Ha). exists p. split; [|assumption].
    intros f rest Hf. apply HP. lia.
  - intros (p & HP & Ha). exists p. split; [|assumption].
    intros f rest Hf. apply HP. lia.
Qed.

Lemma Fails_deeper L d d' X m : d <= d' -> Fails L d X m -> Fails L d' X m.
Proof.
  intros Hd. destruct L as [|[|[|[|L]]]]; cbn [Reading.Fails];
    intros HP f rest Hf; apply HP; lia.
Qed.

Lemma Parses_paren L lvl d X sem :
  L <= 4 -> lvl <= 4 -> Parses lvl d X sem ->
  Parses L (nest (Nat.ltb lvl L) d) (paren (Nat.ltb lvl L) X) sem.
Proof.
  intros HL Hlvl HP. destruct (Nat.ltb_spec lvl L) as [Hlt|Hge]; cbn [nest paren].
  - apply (Parses_le 4); [lia|lia|].
    apply (Parses_le lvl 0) in HP; [|lia|lia].
    destruct HP as (p & HP & Ha). exists p. split; [|assumption].
    exact (parses_group d X p 0 0 HP).
  - now apply (Parses_le lvl).
Qed.

Lemma Fails_paren L lvl d X m :
  L <= 4 -> lvl <= 4 -> Fails lvl d X m ->
  Fails L (nest (Nat.ltb lvl L) d) (paren (Nat.ltb lvl L) X) m.
Proof.
  intros HL Hlvl HP. destruct (Nat.ltb_spec lvl L) as [Hlt|Hge]; cbn [nest paren].
  - apply (Fails_le 4); [lia|lia|].
    apply (Fails_le lvl 0) in HP; [|lia|lia].
    exact (fails_group d X m 0 0 HP).
  - now apply (Fails_le lvl).
Qed.

(** ** Every text of the grammar is read as it is written *)

Lemma rule_level_le c : rule_level c <= 4.
Proof. destruct c; simpl; lia. Qed.

Ltac split_well_formed :=
  repeat match goal with
         | H : _ && _ = true |- _ => apply andb_true_iff in H as [? ?]
         end.

Lemma render_reads c :
  well_formed c = true ->
  match first_clause c with
  | None => Parses (rule_level c) (depth c) (render c) (denote c)
  | Some m => Fails (rule_level c) (depth c) (render c) m
  end.
Proof.
  induction c as [name | x y | l r c IH | k n c IH | k l r a IHa b IHb
                  | k l r a IHa b IHb | l r c IH f field group op num
                  | l r c IHc d IHd];
    cbn [well_formed first_clause rule_level depth render]; intros Hwf;
    split_well_formed.
  - exists (fun signature event => match_search_id signature event name).
    split; [now apply parses_search_id | now intros sig ev].
  - eexists. split; [now apply parses_x_of | now intros sig ev].
  - specialize (IH Hwf). pose proof (rule_level_le c) as Hl.
    destruct (first_clause c) as [m|].
    + apply (Fails_le _ 0) in IH; [|lia|lia]. now apply fails_group.
    + apply (Parses_le _ 0) in IH; [|lia|lia]. destruct IH as (p & HP & Ha).
      exists p. split; [now apply parses_group | exact Ha].
  - specialize (IH Hwf). pose proof (rule_level_le c) as Hl.
    destruct (first_clause c) as [m|].
    + apply (Fails_paren 4) in IH; [|lia|lia]. now apply fails_not.
    + apply (Parses_paren 4) in IH; [|lia|lia]. destruct IH as (p & HP & Ha).
      exists (fun signature event => negb (p signature event)).
      split; [now apply parses_not|]. intros sig ev. unfold Reading.denote. cbn [eval].
      now rewrite Ha.
  - specialize (IHa ltac:(assumption)). specialize (IHb ltac:(assumption)).
    pose proof (rule_level_le a) as Hla. pose proof (rule_level_le b) as Hlb.
    destruct (first_clause a) as [m|].
    + apply (Fails_paren 2) in IHa; [|lia|lia].
      eapply (Fails_deeper 2); [apply Nat.le_max_l|].
      now apply fails_and_left.
    + apply (Parses_paren 2) in IHa; [|lia|lia].
      destruct IHa as (ps & Hne & HP & Ha).
      destruct (first_clause b) as [m|].
      * apply (Fails_paren 3) in IHb; [|lia|lia].
        exact (fails_and_right _ _ _ _ ps m k l (S r) HP IHb).
      * apply (Parses_paren 3) in IHb; [|lia|lia].
        destruct IHb as (p & HPb & Hb).
        exists (ps ++ [p])%list. repeat split.
        -- now destruct ps.
        -- exact (and_chain_snoc _ _ _ _ ps p k l (S r) HP HPb).
        -- intros sig ev. rewrite and_operation_app, Ha. unfold Reading.denote.
           cbn [eval _and_operation]. rewrite Hb. unfold Reading.denote.
           now destruct (eval _ _ b).
  - specialize (IHa ltac:(assumption)). specialize (IHb ltac:(assumption)).
    pose proof (rule_level_le a) as Hla. pose proof (rule_level_le b) as Hlb.
    destruct (first_clause a) as [m|].
    + apply (Fails_paren 1) in IHa; [|lia|lia].
      eapply (Fails_deeper 1); [apply Nat.le_max_l|].
      now apply fails_or_left.
    + apply (Parses_paren 1) in IHa; [|lia|lia].
      destruct IHa as (qs & Hne & HP & Ha).
      destruct (first_clause b) as [m|].
      * apply (Fails_paren 2) in IHb; [|lia|lia].
        exact (fails_or_right _ _ _ _ qs m k l (S r) HP IHb).
      * apply (Parses_paren 2) in IHb; [|lia|lia].
        destruct IHb as (ps & Hnb & HPb & Hb).
        exists (qs ++ [and_pred ps])%list. repeat split.
        -- now destruct qs.
        -- exact (or_chain_snoc _ _ _ _ qs ps k l (S r) HP HPb Hnb).
        -- intros sig ev. rewrite or_operation_app, Ha. unfold Reading.denote.
           cbn [eval _or_operation]. rewrite (and_pred_agree ps), Hb. unfold Reading.denote.
           now destruct (eval _ _ b).
  - specialize (IH ltac:(assumption)). pose proof (rule_level_le c) as Hl.
    destruct (first_clause c) as [m|].
    + apply (Fails_paren 1) in IH; [|lia|lia]. now apply fails_pipe_left.
    + apply (Parses_paren 1) in IH; [|lia|lia].
      destruct IH as (qs & Hne & HP & _). now apply (fails_aggregate _ _ qs).
  - specialize (IHc ltac:(assumption)). specialize (IHd ltac:(assumption)).
    pose proof (rule_level_le c) as Hlc. pose proof (rule_level_le d) as Hld.
    destruct (first_clause c) as [m|].
    + apply (Fails_paren 1) in IHc; [|lia|lia].
      eapply (Fails_deeper 0); [apply Nat.le_max_l|].
      now apply fails_pipe_left.
    + apply (Parses_paren 1) in IHc; [|lia|lia].
      destruct IHc as (qs & Hne & HP & _).
      destruct (first_clause d) as [m|].
      * apply (Fails_paren 1) in IHd; [|lia|lia].
        now apply (fails_near_inner _ _ _ _ qs).
      * apply (Parses_paren 1) in IHd; [|lia|lia].
        destruct IHd as (qs' & Hne' & HP' & _).
        now apply (fails_near _ _ _ _ qs qs').
Qed.

(** ** [prepare_condition] on the texts of the grammar *)

Lemma nest_le_length b n X :
  n <= String.length X -> nest b n <= String.length (paren b X).
Proof.
  destruct b; cbn [nest paren]; [|auto].
  rewrite !length_append. simpl. lia.
Qed.

Lemma depth_le_length c : depth c <= String.length (render c).
Proof.
  induction c as [name | x y | l r c IH | k n c IH | k l r a IHa b IHb
                  | k l r a IHa b IHb | l r c IH f field group op num
                  | l r c IHc d IHd];
    cbn [depth render]; rewrite ?length_append; try lia.
  - change (String.length "(") with 1. lia.
  - pose proof (nest_le_length (Nat.ltb (rule_level c) 4) _ _ IH). lia.
  - pose proof (nest_le_length (Nat.ltb (rule_level a) 2) _ _ IHa).
    pose proof (nest_le_length (Nat.ltb (rule_level b) 3) _ _ IHb). lia.
  - pose proof (nest_le_length (Nat.ltb (rule_level a) 1) _ _ IHa).
    pose proof (nest_le_length (Nat.ltb (rule_level b) 2) _ _ IHb). lia.
  - pose proof (nest_le_length (Nat.ltb (rule_level c) 1) _ _ IH). lia.
  - pose proof (nest_le_length (Nat.ltb (rule_level c) 1) _ _ IHc).
    pose proof (nest_le_length (Nat.ltb (rule_level d) 1) _ _ IHd). lia.
Qed.

Local Abbreviation prepare_condition :=
  (prepare_condition match_search_id analyze_x_of).

Lemma prepare_condition_reads c l r :
  well_formed c = true ->
  match first_clause c with
  | None =>
      exists p,
        prepare_condition (RawStr (Str.spaces l ++ render c ++ Str.spaces r))
        = Ok (VFun p)
        /\ agree p (denote c)
  | Some m =>
      prepare_condition (RawStr (Str.spaces l ++ render c ++ Str.spaces r))
      = Err (UnsupportedFeature m)
  end.
Proof.
  intros Hwf. pose proof (render_reads c Hwf) as H.
  pose proof (rule_level_le c) as Hl. pose proof (depth_le_length c) as Hd.
  cbn [Parser.prepare_condition]. unfold parse.
  cbn [Parser.parse_pipe]. rewrite parse_pipe_rule_spaces.
  assert (Hf : depth c <= String.length (Str.spaces l ++ render c ++ Str.spaces r)).
  { rewrite !length_append. lia. }
  assert (HF : Follow follow_pipe (Str.spaces r)).
  { apply Follow_end. unfold follow_pipe; simpl; auto. }
  destruct (first_clause c) as [m|].
  - apply (Fails_le _ 0) in H; [|lia|lia]. now rewrite (H _ _ Hf HF).
  - apply (Parses_le _ 0) in H; [|lia|lia]. destruct H as (p & HP & Ha).
    exists p. split; [|assumption]. rewrite (HP _ _ Hf HF). cbn [bind].
    destruct HF as [_ (t & Ht & Hin)].
    rewrite <- (append_nil_r (Str.spaces r)), look_ahead_spaces. reflexivity.
Qed.

Lemma boolean_only_first_clause c : boolean_only c = true -> first_clause c = None.
Proof.
  induction c; cbn [boolean_only first_clause]; intros H; try discriminate; auto.
  - apply andb_true_iff in H as [H1 H2]. now rewrite IHc1, IHc2.
  - apply andb_true_iff in H as [H1 H2]. now rewrite IHc1, IHc2.
Qed.

Lemma boolean_only_eval atoms q q' c :
  boolean_only c = true -> eval atoms q c = eval atoms q' c.
Proof.
  induction c; cbn [boolean_only eval]; intros H; try discriminate; auto.
  - now rewrite IHc.
  - apply andb_true_iff in H as [H1 H2]. now rewrite IHc1, IHc2.
  - apply andb_true_iff in H as [H1 H2]. now rewrite IHc1, IHc2.
Qed.

Lemma has_clause_first_clause c :
  has_clause c = true -> first_clause c <> None.
Proof.
  induction c as [name | x y | l r c IH | k n c IH | k l r a IHa b IHb
                  | k l r a IHa b IHb | l r c IH f field group op num
                  | l r c IHc d IHd];
    cbn [has_clause first_clause]; intros H; try discriminate; auto.
  - destruct (first_clause a); [discriminate|].
    destruct (has_clause a); [now elim IHa|auto].
  - destruct (first_clause a); [discriminate|].
    destruct (has_clause a); [now elim IHa|auto].
  - now destruct (first_clause c).
  - destruct (first_clause c); [discriminate|]. now destruct (first_clause d).
Qed.

Lemma first_clause_message c m :
  first_clause c = Some m ->
  m = "Aggregation expressions not supported."
  \/ m = "Near operation not supported.".
Proof.
  induction c as [name | x y | l r c IH | k n c IH | k l r a IHa b IHb
                  | k l r a IHa b IHb | l r c IH f field group op num
                  | l r c IHc d IHd];
    cbn [first_clause]; intros H; try discriminate; auto.
  - destruct (first_clause a); auto.
  - destruct (first_clause a); auto.
  - destruct (first_clause c); [auto|]. inversion H. now left.
  - destruct (first_clause c); [auto|].
    destruct (first_clause d); [auto|]. inversion H. now right.
Qed.

End ParserFacts.

(* ================================================================== *)
(** * The parser on arbitrary texts *)

(** ** What the lexer consumes *)

Lemma literal_nonempty t l : literal t = Some l -> 1 <= String.length l.
Proof. destruct t; intros H; inversion H; subst; simpl; lia. Qed.

Lemma match_class_consumes first rest s w r :
  match_class first rest s = Some (w, r) -> String.length r < String.length s.
Proof.
  unfold match_class. destruct s as [|c s]; [discriminate|].
  destruct (first c); [|discriminate].
  pose proof (span_length rest s) as Hl.
  destruct (Str.span rest s) as [w' r']. intros H; inversion H; subst.
  simpl in *. lia.
Qed.

Lemma regexp_class t m :
  regexp t = Some m -> exists first rest, m = match_class first rest.
Proof. destruct t; intros H; inversion H; subst; eauto. Qed.

Lemma scan_consumes accepts alts s tok r :
  Lexer.scan accepts alts s = Some (tok, r) -> String.length r < String.length s.
Proof.
  induction alts as [|t alts IH]; cbn [Lexer.scan]; [discriminate|].
  destruct (regexp t) as [m|] eqn:Hre.
  - destruct (regexp_class t m Hre) as (first & rest & ->).
    destruct (match_class first rest s) as [[w r']|] eqn:Hm; [|exact IH].
    intros H; inversion H; subst. now apply match_class_consumes in Hm.
  - destruct (literal t) as [l|] eqn:Hl; [|exact IH].
    destruct (Lexer.embedded accepts t); [exact IH|].
    destruct (Str.strip_prefix l s) as [r'|] eqn:Hp; [|exact IH].
    intros H; inversion H; subst.
    apply strip_prefix_length in Hp. apply literal_nonempty in Hl. lia.
Qed.

Lemma next_token_consumes accepts s t s' :
  Lexer.next_token accepts s = Ok (t, s') ->
  String.length s' <= String.length s
  /\ (tok_type t <> T_END -> String.length s' < String.length s).
Proof.
  unfold Lexer.next_token. pose proof (length_drop_spaces s) as Hd.
  destruct (Str.drop_spaces s) as [|c s0] eqn:Hs.
  - destruct (existsb (terminal_eqb T_END) accepts); [|discriminate].
    intros H; inversion H; subst. simpl. split; [lia|congruence].
  - destruct (Lexer.scan accepts accepts (String c s0)) as [[tok r]|] eqn:Hscan;
      [|discriminate].
    intros H; inversion H; subst. apply scan_consumes in Hscan. lia.
Qed.

(** ** What a NUMBER token holds *)

Lemma span_forallb p s : Str.forallb p (fst (Str.span p s)) = true.
Proof.
  induction s as [|c s IH]; simpl; [reflexivity|].
  destruct (p c) eqn:Hc; [|reflexivity].
  destruct (Str.span p s). simpl in *. now rewrite Hc.
Qed.

Lemma unless_callback_literal accepts re w :
  Lexer.unless_callback accepts re w = re
  \/ literal (Lexer.unless_callback accepts re w) <> None.
Proof.
  unfold Lexer.unless_callback.
  destruct (find _ (Lexer.unless accepts re)) as [t|] eqn:Hf; [|now left].
  right. apply find_some in Hf as [_ Hf]. destruct (literal t); congruence.
Qed.

Lemma scan_number accepts alts s v r :
  Lexer.scan accepts alts s = Some (Token NUMBER v, r) ->
  word is_nonzero_digit is_digit v = true.
Proof.
  induction alts as [|t alts IH]; cbn [Lexer.scan]; [discriminate|].
  destruct (regexp t) as [m|] eqn:Hre.
  - destruct (m s) as [[w r']|] eqn:Hm; [|exact IH].
    intros H; inversion H; subst.
    destruct (unless_callback_literal accepts t v) as [Hu|Hu].
    + rewrite Hu in *. subst t. inversion Hre; subst. unfold match_class in Hm.
      destruct s as [|c s]; [discriminate|].
      destruct (is_nonzero_digit c) eqn:Hc; [|discriminate].
      pose proof (span_forallb is_digit s) as Hs.
      destruct (Str.span is_digit s) as [w' r'']. inversion Hm; subst.
      simpl in *. now rewrite Hc, Hs.
    + rewrite H1 in Hu. now elim Hu.
  - destruct (literal t) as [l|] eqn:Hl; [|exact IH].
    destruct (Lexer.embedded accepts t); [exact IH|].
    destruct (Str.strip_prefix l s) as [r'|] eqn:Hp; [|exact IH].
    intros H; inversion H; subst. discriminate.
Qed.

Lemma next_token_number_int accepts s v r :
  Lexer.next_token accepts s = Ok (Token NUMBER v, r) -> exists n, int v = Ok n.
Proof.
  unfold Lexer.next_token.
  destruct (Str.drop_spaces s) as [|c s0].
  - destruct (existsb (terminal_eqb T_END) accepts); discriminate.
  - destruct (Lexer.scan accepts accepts (String c s0)) as [[tok r']|] eqn:Hscan;
      [|discriminate].
    intros H; inversion H; subst. apply scan_number in Hscan.
    destruct v as [|d v]; [discriminate|]. simpl in Hscan.
    apply andb_true_iff in Hscan as [Hd Hv]. unfold int.
    apply int_digits_ok. simpl. now rewrite (nonzero_digit_digit d Hd).
Qed.

(** ** Every text is read or refused *)

Section Total.

Context {Signature Event : Type}.
Variable match_search_id : Signature -> Event -> string -> bool.
Variable analyze_x_of : Signature -> Event -> option Z -> option string -> bool.

Local Abbreviation value := (@value Signature Event).
Local Abbreviation parser_out := (@parser_out Signature Event).
Local Abbreviation parse_pipe := (parse_pipe match_search_id analyze_x_of).
Local Abbreviation parse_atom := (parse_atom match_search_id analyze_x_of).
Local Abbreviation parse_x_of := (parse_x_of analyze_x_of).
Local Abbreviation parse_not_rule := (parse_not_rule match_search_id analyze_x_of).
Local Abbreviation parse_and_rule := (parse_and_rule match_search_id analyze_x_of).
Local Abbreviation parse_or_rule := (parse_or_rule match_search_id analyze_x_of).
Local Abbreviation parse_pipe_rule := (parse_pipe_rule match_search_id analyze_x_of).
Local Abbreviation and_loop := (and_loop match_search_id analyze_x_of).
Local Abbreviation or_loop := (or_loop match_search_id analyze_x_of).
Local Abbreviation parse_aggregation_expression :=
  (parse_aggregation_expression match_search_id analyze_x_of).

Lemma reads_le n n' (r : parser_out) : n <= n' -> reads n r -> reads n' r.
Proof. intros Hn. destruct r as [[v s']|e]; simpl; [|auto]. intros [? ?]. split; [auto|lia]. Qed.

Lemma refuses_reads n (r : parser_out) : refuses r -> reads n r.
Proof. destruct r as [[v s']|e]; simpl; tauto. Qed.

Lemma reads_refusal n : reads n (Err UnexpectedInput : parser_out).
Proof. now left. Qed.

Lemma reads_bind_token n (r : result (token * string)) (k : token * string -> parser_out) :
  (forall t s', r = Ok (t, s') -> reads n (k (t, s'))) ->
  (forall e, r = Err e -> refusal e) ->
  reads n (bind r k).
Proof. destruct r as [[t s']|e]; simpl; auto. Qed.

Lemma next_token_refusal accepts s e :
  Lexer.next_token accepts s = Err e -> refusal e.
Proof.
  unfold Lexer.next_token. destruct (Str.drop_spaces s).
  - destruct (existsb _ _); [discriminate|]. intros H; inversion H. now left.
  - destruct (Lexer.scan _ _ _); [discriminate|]. intros H; inversion H. now left.
Qed.

Lemma look_ahead_refusal accepts s e :
  look_ahead accepts s = Err e -> refusal e.
Proof.
  unfold look_ahead. destruct (Lexer.next_token accepts s) as [[t s']|e'] eqn:H.
  - discriminate.
  - simpl. intros H'; inversion H'; subst. eapply next_token_refusal; eauto.
Qed.

Lemma parse_x_of_reads x s n :
  (tok_type x = NUMBER -> exists k, int (tok_value x) = Ok k) ->
  String.length s <= n ->
  reads n (parse_x_of x s).
Proof.
  intros Hx Hs. unfold Parser.parse_x_of.
  destruct (Lexer.next_token Accepts.after_x s) as [[t_of s1]|e] eqn:H1;
    [|eapply next_token_refusal; eauto].
  cbn [bind tree].
  destruct (Lexer.next_token Accepts.after_of s1) as [[t s2]|e] eqn:H2;
    [|eapply next_token_refusal; eauto].
  cbn [bind].
  destruct (look_ahead Accepts.after_atom s2) as [la|e] eqn:H3;
    [|eapply look_ahead_refusal; eauto].
  cbn [bind].
  apply next_token_consumes in H1 as [H1 _]. apply next_token_consumes in H2 as [H2 _].
  assert (Hy : exists y : value,
             match tok_type t with
             | THEM => Ok (VToken t)
             | _ => search_pattern [VToken t]
             end = Ok y /\ as_str y <> None).
  { destruct t as [ty v]. destruct ty; cbn; eexists; (split; [reflexivity|]);
      cbn; congruence. }
  destruct Hy as (y & -> & Hy). cbn [bind].
  unfold x_of. cbn [item nth_error bind get_children get_type tok_type get_value].
  destruct (as_str y) as [sel|]; [|congruence].
  destruct (terminal_eqb (tok_type x) NUMBER) eqn:Heq.
  - unfold terminal_eqb in Heq. destruct (terminal_eq_dec (tok_type x) NUMBER);
      [|discriminate].
    destruct (Hx e) as (k & ->). cbn. split; [reflexivity|lia].
  - cbn. split; [reflexivity|lia].
Qed.

Section Productions.

Variable rec : string -> parser_out.
Variable n : nat.
Hypothesis rec_reads : forall s, String.length s < n -> reads (String.length s) (rec s).

Lemma parse_atom_reads accepts s :
  String.length s <= n ->
  reads (String.length s - 1) (parse_atom rec accepts s).
Proof.
  intros Hs. unfold Parser.parse_atom.
  destruct (Lexer.next_token accepts s) as [[t s1]|e] eqn:H1;
    [|eapply next_token_refusal; eauto].
  cbn [bind]. pose proof H1 as Heq.
  apply next_token_consumes in H1 as [H1 H1'].
  destruct t as [ty v]. cbn [tok_type] in *.
  destruct ty; try apply reads_refusal.
  - (* SEARCH_ID *)
    destruct (look_ahead Accepts.after_atom s1) as [la|e] eqn:H2;
      [|eapply look_ahead_refusal; eauto].
    cbn. split; [reflexivity|]. specialize (H1' ltac:(discriminate)). lia.
  - (* NUMBER *)
    specialize (H1' ltac:(discriminate)).
    pose proof (parse_x_of_reads (Token NUMBER v) s1 (String.length s - 1)) as Hx.
    destruct (parse_x_of (Token NUMBER v) s1) as [[w s2]|e]; cbn [bind].
    + destruct Hx as [Hc Hl];
        [intros _; eapply next_token_number_int; exact Heq | lia |].
      destruct w; try discriminate. cbn. split; [reflexivity|lia].
    + apply Hx; [intros _; eapply next_token_number_int; exact Heq | lia].
  - (* ALL *)
    specialize (H1' ltac:(discriminate)).
    pose proof (parse_x_of_reads (Token ALL v) s1 (String.length s - 1)) as Hx.
    destruct (parse_x_of (Token ALL v) s1) as [[w s2]|e]; cbn [bind].
    + destruct Hx as [Hc Hl]; [discriminate | lia |].
      destruct w; try discriminate. cbn. split; [reflexivity|lia].
    + apply Hx; [discriminate | lia].
  - (* LPAR *)
    specialize (H1' ltac:(discriminate)).
    pose proof (rec_reads s1 ltac:(lia)) as Hr.
    destruct (rec s1) as [[w s2]|e]; cbn [bind]; [|exact Hr].
    destruct Hr as [Hc Hl].
    destruct (Lexer.next_token Accepts.after_atom s2) as [[t2 s3]|e] eqn:H2;
      [|eapply next_token_refusal; eauto].
    cbn [bind]. apply next_token_consumes in H2 as [H2 _].
    destruct (tok_type t2); try apply reads_refusal.
    destruct (look_ahead Accepts.after_atom s3) as [la|e] eqn:H3;
      [|eapply look_ahead_refusal; eauto].
    destruct w; try discriminate. cbn. split; [reflexivity|lia].
Qed.

Lemma parse_not_rule_reads s :
  String.length s <= n ->
  reads (String.length s - 1) (parse_not_rule rec s).
Proof.
  intros Hs. unfold Parser.parse_not_rule.
  destruct (Lexer.next_token Accepts.atom_start s) as [[t s1]|e] eqn:H1;
    [|eapply next_token_refusal; eauto].
  cbn [bind]. apply next_token_consumes in H1 as [H1 H1'].
  assert (Hplain :
            reads (String.length s - 1)
                  ('(a, s2) <- parse_atom rec Accepts.atom_start s;;
                   v <- not_rule [VNone; a];; Ok (v, s2))).
  { pose proof (parse_atom_reads Accepts.atom_start s Hs) as Ha.
    destruct (parse_atom rec Accepts.atom_start s) as [[a s2]|e]; cbn [bind]; [|exact Ha].
    destruct Ha as [Hc Hl]. destruct a; try discriminate. cbn. now split. }
  assert (Hneg :
            tok_type t <> T_END ->
            reads (String.length s - 1)
                  (negate <- tree "not" [];;
                   '(a, s2) <- parse_atom rec Accepts.after_not s1;;
                   v <- not_rule [negate; a];; Ok (v, s2))).
  { intros Ht. specialize (H1' Ht). cbn [bind tree].
    pose proof (parse_atom_reads Accepts.after_not s1 ltac:(lia)) as Ha.
    destruct (parse_atom rec Accepts.after_not s1) as [[a s2]|e]; cbn [bind]; [|exact Ha].
    destruct Ha as [Hc Hl]. destruct a; try discriminate. cbn. split; [reflexivity|lia]. }
  destruct (tok_type t); try exact Hplain; apply Hneg; discriminate.
Qed.

Lemma and_rule_callable (args : list value) :
  forallb callable args = true -> args <> [] ->
  exists v, and_rule args = Ok v /\ callable v = true.
Proof.
  intros Hc Hne. unfold and_rule. rewrite Hc. cbn [negb].
  destruct args as [|a [|b args]]; [congruence| |].
  - cbn in *. exists a. split; [reflexivity|]. now rewrite andb_true_r in Hc.
  - cbn. eauto.
Qed.

Lemma or_rule_callable (args : list value) :
  forallb callable args = true -> args <> [] ->
  exists v, or_rule args = Ok v /\ callable v = true.
Proof.
  intros Hc Hne. unfold or_rule. rewrite Hc. cbn [negb].
  destruct args as [|a [|b args]]; [congruence| |].
  - cbn in *. exists a. split; [reflexivity|]. now rewrite andb_true_r in Hc.
  - cbn. eauto.
Qed.

Lemma forallb_callable_snoc (args : list value) v :
  forallb callable args = true -> callable v = true ->
  forallb callable (args ++ [v]) = true.
Proof. intros H1 H2. rewrite forallb_app. simpl. now rewrite H1, H2. Qed.

Lemma and_loop_reads k : forall args s,
  String.length s <= k -> String.length s <= n ->
  forallb callable args = true -> args <> [] ->
  reads (String.length s) (and_loop rec k args s).
Proof.
  induction k as [|k IH]; intros args s Hk Hs Hc Hne; rewrite and_loop_eq.
  - destruct (Lexer.next_token Accepts.after_atom s) as [[t s1]|e] eqn:H1;
      [|eapply next_token_refusal; eauto].
    cbn [bind]. apply next_token_consumes in H1 as [_ H1].
    destruct (and_rule_callable args Hc Hne) as (v & -> & Hv).
    destruct (tok_type t) eqn:Ht; cbn [bind]; try (split; [assumption|lia]);
      specialize (H1 ltac:(discriminate)); lia.
  - destruct (Lexer.next_token Accepts.after_atom s) as [[t s1]|e] eqn:H1;
      [|eapply next_token_refusal; eauto].
    cbn [bind]. apply next_token_consumes in H1 as [_ H1].
    destruct (and_rule_callable args Hc Hne) as (v & -> & Hv).
    assert (Hstep :
              tok_type t <> T_END ->
              reads (String.length s)
                    ('(v, s2) <- parse_not_rule rec s1;;
                     and_loop rec k (args ++ [v])%list s2)).
    { intros Ht. specialize (H1 Ht).
      pose proof (parse_not_rule_reads s1 ltac:(lia)) as Hn.
      destruct (parse_not_rule rec s1) as [[w s2]|e]; cbn [bind]; [|exact Hn].
      destruct Hn as [Hw Hl]. eapply reads_le; [|apply IH]; try lia.
      - now apply forallb_callable_snoc.
      - now destruct args. }
    destruct (tok_type t) eqn:Ht; cbn [bind]; try (split; [assumption|lia]);
      apply Hstep; discriminate.
Qed.

Lemma parse_and_rule_reads s :
  String.length s <= n ->
  reads (String.length s - 1) (parse_and_rule rec s).
Proof.
  intros Hs. unfold Parser.parse_and_rule.
  pose proof (parse_not_rule_reads s Hs) as Hn.
  destruct (parse_not_rule rec s) as [[v s1]|e]; cbn [bind]; [|exact Hn].
  destruct Hn as [Hv Hl]. eapply reads_le; [|apply and_loop_reads]; try lia.
  - cbn. now rewrite Hv.
  - discriminate.
Qed.

Lemma or_loop_reads k : forall args s,
  String.length s <= k -> String.length s <= n ->
  forallb callable args = true -> args <> [] ->
  reads (String.length s) (or_loop rec k args s).
Proof.
  induction k as [|k IH]; intros args s Hk Hs Hc Hne; rewrite or_loop_eq.
  - destruct (Lexer.next_token Accepts.after_atom s) as [[t s1]|e] eqn:H1;
      [|eapply next_token_refusal; eauto].
    cbn [bind]. apply next_token_consumes in H1 as [_ H1].
    destruct (or_rule_callable args Hc Hne) as (v & -> & Hv).
    destruct (tok_type t) eqn:Ht; cbn [bind]; try (split; [assumption|lia]);
      specialize (H1 ltac:(discriminate)); lia.
  - destruct (Lexer.next_token Accepts.after_atom s) as [[t s1]|e] eqn:H1;
      [|eapply next_token_refusal; eauto].
    cbn [bind]. apply next_token_consumes in H1 as [_ H1].
    destruct (or_rule_callable args Hc Hne) as (v & -> & Hv).
    assert (Hstep :
              tok_type t <> T_END ->
              reads (String.length s)
                    ('(v, s2) <- parse_and_rule rec s1;;
                     or_loop rec k (args ++ [v])%list s2)).
    { intros Ht. specialize (H1 Ht).
      pose proof (parse_and_rule_reads s1 ltac:(lia)) as Hn.
      destruct (parse_and_rule rec s1) as [[w s2]|e]; cbn [bind]; [|exact Hn].
      destruct Hn as [Hw Hl]. eapply reads_le; [|apply IH]; try lia.
      - now apply forallb_callable_snoc.
      - now destruct args. }
    destruct (tok_type t) eqn:Ht; cbn [bind]; try (split; [assumption|lia]);
      apply Hstep; discriminate.
Qed.

Lemma parse_or_rule_reads s :
  String.length s <= n ->
  reads (String.length s - 1) (parse_or_rule rec s).
Proof.
  intros Hs. unfold Parser.parse_or_rule.
  pose proof (parse_and_rule_reads s Hs) as Hn.
  destruct (parse_and_rule rec s) as [[v s1]|e]; cbn [bind]; [|exact Hn].
  destruct Hn as [Hv Hl]. eapply reads_le; [|apply or_loop_reads]; try lia.
  - cbn. now rewrite Hv.
  - discriminate.
Qed.

Lemma parse_aggregation_function_refuses t s :
  refuses (parse_aggregation_function t s : parser_out).
Proof.
  unfold parse_aggregation_function.
  destruct (Lexer.next_token Accepts.after_function s) as [[t1 s1]|e] eqn:H1;
    [|eapply next_token_refusal; eauto].
  cbn [bind tree].
  destruct (Lexer.next_token Accepts.after_function_lpar s1) as [[t2 s2]|e] eqn:H2;
    [|eapply next_token_refusal; eauto].
  cbn [bind].
  assert (Htail : forall (fld : value) s3,
             refuses
               ('(t4, s4) <- Lexer.next_token Accepts.after_function_rpar s3;;
                '(group, op, s5) <- match tok_type t4 with
                                    | BY =>
                                        '(g, s') <- Lexer.next_token Accepts.after_by s4;;
                                        '(op, s'') <- Lexer.next_token Accepts.after_group s';;
                                        grp <- tree "group_field" [VToken g];;
                                        Ok (grp, op, s'')
                                    | _ => Ok (VNone, t4, s4)
                                    end;;
                '(n, s6) <- Lexer.next_token Accepts.after_comparison s5;;
                cmp <- tree "comparison_op" [VToken op];;
                _ <- look_ahead Accepts.after_value s6;;
                val <- tree "value" [VToken n];;
                a <- aggregation_expression
                       [VTree "aggregation_function" [VToken t]; fld; group; cmp; val];;
                Ok (a, s6) : parser_out)).
  { intros fld s3.
    destruct (Lexer.next_token Accepts.after_function_rpar s3) as [[t4 s4]|e] eqn:H4;
      [|eapply next_token_refusal; eauto].
    cbn [bind].
    assert (Hend : forall (group : value) (op : token) s5,
               refuses
                 ('(n, s6) <- Lexer.next_token Accepts.after_comparison s5;;
                  cmp <- tree "comparison_op" [VToken op];;
                  _ <- look_ahead Accepts.after_value s6;;
                  val <- tree "value" [VToken n];;
                  a <- aggregation_expression
                         [VTree "aggregation_function" [VToken t]; fld; group; cmp; val];;
                  Ok (a, s6) : parser_out)).
    { intros group op s5.
      destruct (Lexer.next_token Accepts.after_comparison s5) as [[n0 s6]|e] eqn:H6;
        [|eapply next_token_refusal; eauto].
      cbn [bind tree].
      destruct (look_ahead Accepts.after_value s6) as [la|e] eqn:H7;
        [|eapply look_ahead_refusal; eauto].
      cbn. right. eauto. }
    destruct (tok_type t4); cbn [bind]; try exact (Hend VNone t4 s4).
    destruct (Lexer.next_token Accepts.after_by s4) as [[g s']|e] eqn:H5;
      [|eapply next_token_refusal; eauto].
    cbn [bind].
    destruct (Lexer.next_token Accepts.after_group s') as [[op s'']|e] eqn:H6;
      [|eapply next_token_refusal; eauto].
    cbn [bind tree]. exact (Hend (VTree "group_field" [VToken g]) op s''). }
  destruct (tok_type t2); cbn [bind]; try exact (Htail VNone s2).
  destruct (Lexer.next_token Accepts.after_field s2) as [[t3 s3]|e] eqn:H3;
    [|eapply next_token_refusal; eauto].
  cbn [bind tree].
  exact (Htail (VTree "aggregation_field" [VToken t2]) s3).
Qed.

Lemma parse_aggregation_expression_refuses s :
  String.length s <= n ->
  refuses (parse_aggregation_expression rec s).
Proof.
  intros Hs. unfold Parser.parse_aggregation_expression.
  destruct (Lexer.next_token Accepts.after_pipe s) as [[t s1]|e] eqn:H1;
    [|eapply next_token_refusal; eauto].
  cbn [bind]. apply next_token_consumes in H1 as [H1 _].
  destruct (tok_type t); try apply parse_aggregation_function_refuses.
  pose proof (parse_or_rule_reads s1 ltac:(lia)) as Ho.
  destruct (parse_or_rule rec s1) as [[v s2]|e]; cbn [bind]; [|exact Ho].
  destruct (look_ahead Accepts.after_atom s2) as [la|e] eqn:H2;
    [|eapply look_ahead_refusal; eauto].
  cbn [bind]. destruct la; cbn; try (now left); right; eauto.
Qed.

Lemma parse_pipe_rule_reads s :
  String.length s <= n ->
  reads (String.length s - 1) (parse_pipe_rule rec s).
Proof.
  intros Hs. unfold Parser.parse_pipe_rule.
  pose proof (parse_or_rule_reads s Hs) as Ho.
  destruct (parse_or_rule rec s) as [[v s1]|e]; cbn [bind]; [|exact Ho].
  destruct Ho as [Hv Hl].
  destruct (Lexer.next_token Accepts.after_atom s1) as [[t s2]|e] eqn:H1;
    [|eapply next_token_refusal; eauto].
  cbn [bind]. apply next_token_consumes in H1 as [H1 _].
  destruct (tok_type t); try apply reads_refusal; try (cbn; now split).
  pose proof (parse_aggregation_expression_refuses s2 ltac:(lia)) as Ha.
  destruct (parse_aggregation_expression rec s2) as [[a s3]|e]; cbn [bind];
    [contradiction | exact Ha].
Qed.

End Productions.

Lemma parse_pipe_reads f : forall s,
  String.length s < f -> reads (String.length s) (parse_pipe f s).
Proof.
  induction f as [|f IH]; intros s Hs; [lia|].
  cbn [Parser.parse_pipe].
  eapply reads_le; [|apply (parse_pipe_rule_reads (parse_pipe f) f)]; auto; lia.
Qed.

(** [parse] gives a predicate or refuses the text: the descent never
    runs out of fuel and no callback meets a value it does not expect. *)
Lemma parse_total text :
  match parse match_search_id analyze_x_of text with
  | Ok v => callable v = true
  | Err e => refusal e
  end.
Proof.
  unfold parse.
  pose proof (parse_pipe_reads (S (String.length text)) text ltac:(lia)) as H.
  destruct (parse_pipe (S (String.length text)) text) as [[v s1]|e]; cbn [bind];
    [|exact H].
  destruct H as [Hv _].
  destruct (look_ahead Accepts.after_atom s1) as [la|e] eqn:H2;
    [|eapply look_ahead_refusal; eauto].
  cbn [bind]. destruct la; try (now left). exact Hv.
Qed.

End Total.

(* ================================================================== *)
(** * Facts about dictionaries *)

Module DictFacts.

Lemma get_set_same {V} (d : Dict.t V) k v : Dict.get (Dict.set d k v) k = Some v.
Proof.
  induction d as [|[k' v'] d IH]; simpl.
  - now rewrite String.eqb_refl.
  - destruct (String.eqb k' k) eqn:E; simpl; rewrite E; auto.
Qed.

Lemma get_set_other {V} (d : Dict.t V) k k' v :
  k' <> k -> Dict.get (Dict.set d k v) k' = Dict.get d k'.
Proof.
  intros Hne. induction d as [|[k0 v0] d IH]; simpl.
  - destruct (String.eqb_spec k k'); [congruence|reflexivity].
  - destruct (String.eqb_spec k0 k); simpl.
    + subst. destruct (String.eqb_spec k k'); [congruence|reflexivity].
    + now rewrite IH.
Qed.

Lemma keys_set_present {V} (d : Dict.t V) k v :
  Dict.contains d k = true -> Dict.keys (Dict.set d k v) = Dict.keys d.
Proof.
  unfold Dict.contains, Dict.keys. induction d as [|[k0 v0] d IH]; simpl; [discriminate|].
  destruct (String.eqb k0 k) eqn:E; simpl; [reflexivity|].
  intros H. now rewrite IH.
Qed.

Lemma keys_set_absent {V} (d : Dict.t V) k v :
  Dict.contains d k = false -> Dict.keys (Dict.set d k v) = (Dict.keys d ++ [k])%list.
Proof.
  unfold Dict.contains, Dict.keys. induction d as [|[k0 v0] d IH]; simpl; [reflexivity|].
  destruct (String.eqb k0 k) eqn:E; simpl; [discriminate|].
  intros H. now rewrite IH.
Qed.

Lemma get_remove_same {V} (d : Dict.t V) k : Dict.get (Dict.remove d k) k = None.
Proof.
  unfold Dict.remove. induction d as [|[k0 v0] d IH]; simpl; [reflexivity|].
  destruct (String.eqb k0 k) eqn:E; simpl; [assumption|]. now rewrite E.
Qed.

Lemma get_remove_other {V} (d : Dict.t V) k k' :
  k' <> k -> Dict.get (Dict.remove d k) k' = Dict.get d k'.
Proof.
  intros Hne. unfold Dict.remove. induction d as [|[k0 v0] d IH]; simpl; [reflexivity|].
  destruct (String.eqb_spec k0 k); simpl.
  - subst. destruct (String.eqb_spec k k'); [congruence|assumption].
  - now rewrite IH.
Qed.

Lemma remove_absent {V} (d : Dict.t V) k :
  Dict.contains d k = false -> Dict.remove d k = d.
Proof.
  unfold Dict.contains, Dict.remove. induction d as [|[k0 v0] d IH]; simpl; [reflexivity|].
  destruct (String.eqb k0 k) eqn:E; simpl; [discriminate|].
  intros H. now rewrite IH.
Qed.

Lemma del_guarded {V} (d : Dict.t V) k :
  (if Dict.contains d k
   then match Dict.del d k with
        | Some d' => Some d'
        | None => None
        end
   else Some d) = Some (Dict.remove d k).
Proof.
  unfold Dict.del. destruct (Dict.contains d k) eqn:E; [reflexivity|].
  now rewrite remove_absent.
Qed.

End DictFacts.

Lemma purged_nil {V} (d : Dict.t V) : purged [] d = d.
Proof. unfold purged. induction d as [|kv d IH]; simpl in *; congruence. Qed.

Lemma filter_twice {A} (f g h : A -> bool) (l : list A) :
  (forall x, f x = h x && g x) -> filter f l = filter g (filter h l).
Proof.
  intros Hext. induction l as [|a l IH]; simpl; [reflexivity|].
  rewrite Hext. destruct (h a); simpl; [destruct (g a)|]; now rewrite IH.
Qed.

Lemma purged_cons {V} name names (d : Dict.t V) :
  purged (name :: names) d = purged names (Dict.remove d name).
Proof.
  unfold purged, Dict.remove. apply filter_twice. intros [k v]. simpl.
  now destruct (String.eqb k name).
Qed.

Lemma get_purged_forbidden {V} names (d : Dict.t V) k :
  In k names -> Dict.get (purged names d) k = None.
Proof.
  intros Hin. unfold purged. induction d as [|[k0 v0] d IH]; simpl; [reflexivity|].
  destruct (existsb (String.eqb k0) names) eqn:E; simpl; [assumption|].
  destruct (String.eqb_spec k0 k); [|assumption]. subst.
  assert (existsb (String.eqb k) names = true).
  { apply existsb_exists. exists k. split; [assumption | apply String.eqb_refl]. }
  congruence.
Qed.

Lemma get_purged_other {V} names (d : Dict.t V) k :
  ~ In k names -> Dict.get (purged names d) k = Dict.get d k.
Proof.
  intros Hin. unfold purged. induction d as [|[k0 v0] d IH]; simpl; [reflexivity|].
  destruct (existsb (String.eqb k0) names) eqn:E; simpl.
  - destruct (String.eqb_spec k0 k); [|assumption]. subst.
    apply existsb_exists in E as (x & Hx & Hk). apply String.eqb_eq in Hk. now subst.
  - now rewrite IH.
Qed.

Lemma keys_purged {V} names (d : Dict.t V) k :
  In k (Dict.keys (purged names d)) -> ~ In k names.
Proof.
  unfold Dict.keys, purged. rewrite in_map_iff. intros ([k0 v0] & <- & Hin) Hk.
  apply filter_In in Hin as [_ Hf]. simpl in Hf. apply negb_true_iff in Hf.
  assert (existsb (String.eqb k0) names = true); [|congruence].
  apply existsb_exists. exists k0. split; [assumption | apply String.eqb_refl].
Qed.

Lemma purged_idempotent {V} names (d : Dict.t V) :
  purged names (purged names d) = purged names d.
Proof.
  unfold purged. induction d as [|kv d IH]; simpl; [reflexivity|].
  destruct (existsb (String.eqb (fst kv)) names) eqn:E; simpl; [assumption|].
  now rewrite E, IH.
Qed.

(* ================================================================== *)
(** * Facts about the driver *)

Section DriverFacts.

Context {RawEvent Event Signature Timeframe TimedEvent : Type}.
Variable prepare_event_log : RawEvent -> Event.
Variable get_condition : Signature -> Signature -> Event -> bool.
Variable get_timeframe : Signature -> option Timeframe.
Variable title : Signature -> string.
Variable description : Signature -> string.
Variable level : Signature -> string.
Variable file_name : Signature -> string.
Variable check_timeframe :
  Signature -> string -> list TimedEvent -> Event -> list (Alert Event) ->
  list TimedEvent * list (Alert Event).

Local Abbreviation check_rule :=
  (check_rule get_condition get_timeframe description level file_name check_timeframe).
Local Abbreviation check_event_from :=
  (check_event_from get_condition get_timeframe description level file_name
                    check_timeframe).
Local Abbreviation check_event :=
  (check_event prepare_event_log get_condition get_timeframe description level
               file_name check_timeframe).
Local Abbreviation events_loop :=
  (events_loop prepare_event_log get_condition get_timeframe description level
               file_name check_timeframe).
Local Abbreviation check_events :=
  (check_events prepare_event_log get_condition get_timeframe description level
                file_name check_timeframe).
Local Abbreviation PySigma := (@PySigma Signature).
Local Abbreviation remove_forbidden := (@remove_forbidden Signature).
Local Abbreviation notified :=
  (notified prepare_event_log get_condition get_timeframe description level
            file_name check_timeframe).
Local Abbreviation names_its_alerts := (names_its_alerts check_timeframe).

Lemma remove_forbidden_purged names : forall rs : Dict.t Signature,
  remove_forbidden names rs = Some (purged names rs).
Proof.
  induction names as [|r names IH]; intros rs; cbn [Driver.remove_forbidden].
  - now rewrite purged_nil.
  - rewrite purged_cons. unfold Dict.del.
    destruct (Dict.contains rs r) eqn:E.
    + apply IH.
    + rewrite IH. now rewrite (DictFacts.remove_absent rs r E).
Qed.

Lemma events_loop_flat_map notify rs events : forall acc,
  events_loop notify rs events acc
  = ((fst acc ++ flat_map (fun event => check_event event rs) events)%list,
     (snd acc ++ flat_map (notified notify rs) events)%list).
Proof.
  induction events as [|event events IH]; intros [alerts calls].
  - simpl. now rewrite !app_nil_r.
  - cbn [Driver.events_loop flat_map fst snd]. rewrite IH. cbn [fst snd].
    now rewrite <- !app_assoc.
Qed.

Lemma check_events_pass (self : PySigma) events :
  check_events self events
  = Some (mkPass (flat_map (fun event =>
                              check_event event (purged forbidden_rules (rules self)))
                           events)
                 (flat_map (notified (callback self)
                                     (purged forbidden_rules (rules self)))
                           events)
                 (mkPySigma (purged forbidden_rules (rules self)) (callback self))).
Proof.
  unfold Driver.check_events. rewrite remove_forbidden_purged.
  now rewrite events_loop_flat_map.
Qed.

(** ** The names of the alerts *)

Lemma check_rule_names (keys : list string) event st name rule :
  names_its_alerts -> In name keys ->
  (forall a, In a (snd st) -> In (alert_rule_name a) keys) ->
  forall a, In a (snd (check_rule event st (name, rule))) ->
            In (alert_rule_name a) keys.
Proof.
  intros Hct Hname Hst a. destruct st as [timed alerts].
  cbn [Driver.check_rule]. destruct (get_condition rule rule event); [|apply Hst].
  destruct (get_timeframe rule).
  - intros Ha. destruct (Hct _ _ _ _ _ _ Ha) as [H| ->]; [now apply Hst | assumption].
  - cbn [snd]. unfold callback_buildReport. rewrite in_app_iff.
    intros [H|[<-|[]]]; [now apply Hst | assumption].
Qed.

Lemma check_event_from_names (keys : list string) event (rs : Dict.t Signature) :
  names_its_alerts -> forall st,
  incl (Dict.keys rs) keys ->
  (forall a, In a (snd st) -> In (alert_rule_name a) keys) ->
  forall a, In a (snd (check_event_from st event rs)) -> In (alert_rule_name a) keys.
Proof.
  intros Hct. unfold Driver.check_event_from, Dict.items.
  induction rs as [|[name rule] rs IH]; intros st Hk Hst; [exact Hst|].
  cbn [fold_left]. apply IH.
  - intros k Hin. apply Hk. now right.
  - apply check_rule_names; auto. apply Hk. now left.
Qed.

Lemma check_event_names event (rs : Dict.t Signature) a :
  names_its_alerts ->
  In a (check_event event rs) -> In (alert_rule_name a) (Dict.keys rs).
Proof.
  intros Hct. unfold Driver.check_event.
  apply check_event_from_names; [assumption | apply incl_refl | intros ? []].
Qed.

End DriverFacts.

(* ================================================================== *)
(** * The compiler on condition texts *)

(** ** A few texts *)

Example run_a_and_b :
  BlocksExample.run "a and b" [("a", true); ("b", false)] = Ok false.
Proof. reflexivity. Qed.

Example run_a_or_b :
  BlocksExample.run "a or b" [("a", true); ("b", false)] = Ok true.
Proof. reflexivity. Qed.

Example run_not_binds_tighter_than_and :
  BlocksExample.run "not a and b" [("a", true); ("b", false)] = Ok false.
Proof. reflexivity. Qed.

Example run_and_binds_tighter_than_or :
  BlocksExample.run "a or b and c" [("a", true); ("b", true); ("c", false)] = Ok true.
Proof. reflexivity. Qed.

Example run_parentheses_override :
  BlocksExample.run "(a or b) and c" [("a", true); ("b", true); ("c", false)]
  = Ok false.
Proof. reflexivity. Qed.

Example run_pattern :
  BlocksExample.run "1 of sel*" [("sel1", false); ("sel2", true); ("other", false)]
  = Ok true.
Proof. reflexivity. Qed.

(** A second NOT is read as a search-id: NOT is not accepted after
    NOT. *)
Example run_doubled_not :
  BlocksExample.run "not not a" [("a", true)] = Err UnexpectedInput.
Proof. reflexivity. Qed.

Example run_unbalanced :
  BlocksExample.run "(a and b" [("a", true); ("b", true)] = Err UnexpectedInput.
Proof. reflexivity. Qed.

Example run_count :
  BlocksExample.run "a | count(user) by host > 5" [("a", true)]
  = Err (UnsupportedFeature "Aggregation expressions not supported.").
Proof. reflexivity. Qed.

Example run_near :
  BlocksExample.run "(a | near b) and c" [("a", true)]
  = Err (UnsupportedFeature "Near operation not supported.").
Proof. reflexivity. Qed.

(** [x of them] hands the resolver the count and the text of the THEM
    token: a [Token] is a [str], so the first test of [x_of] takes it
    for a pattern and the branch for THEM is never reached. *)
Lemma them_is_passed_as_a_pattern
      {Signature Event : Type}
      (match_search_id : Signature -> Event -> string -> bool)
      (analyze_x_of : Signature -> Event -> option Z -> option string -> bool)
      (x : count_spec) :
  valid_x x = true ->
  exists p,
    prepare_condition match_search_id analyze_x_of (RawStr (render (CXOf x YThem)))
    = Ok (VFun p)
    /\ forall signature event,
         p signature event = analyze_x_of signature event (count_of x) (Some "them").
Proof.
  intros Hx.
  pose proof (prepare_condition_reads match_search_id analyze_x_of
                                      (CXOf x YThem) 0 0) as H.
  cbn [first_clause well_formed valid_y] in H. rewrite Hx in H.
  destruct (H eq_refl) as (p & Hp & Ha). exists p. split; [|exact Ha].
  cbn [Str.spaces] in Hp. rewrite append_nil_r in Hp. exact Hp.
Qed.

(** C1: for every condition built from search-ids, NOT, AND, OR and
    parentheses, whatever the spelling of the keywords and the blanks
    around them, [prepare_condition] returns a predicate, and for every
    rule and event, that is for every behaviour of the single-match
    resolver, the predicate gives the value of the expression under the
    precedence NOT > AND > OR with parentheses overriding. *)
Theorem compiled_condition_follows_precedence
        {Signature Event : Type}
        (match_search_id : Signature -> Event -> string -> bool)
        (analyze_x_of : Signature -> Event -> option Z -> option string -> bool)
        (c : condition) (l r : nat) :
  boolean_only c = true -> well_formed c = true ->
  exists p,
    prepare_condition match_search_id analyze_x_of
                      (RawStr (Str.spaces l ++ render c ++ Str.spaces r))
    = Ok (VFun p)
    /\ forall signature event quantified,
         p signature event = eval (match_search_id signature event) quantified c.
Proof.
  intros Hb Hwf.
  pose proof (prepare_condition_reads match_search_id analyze_x_of c l r Hwf) as H.
  rewrite (boolean_only_first_clause c Hb) in H.
  destruct H as (p & Hp & Ha). exists p. split; [exact Hp|].
  intros signature event quantified. rewrite Ha. unfold Reading.denote.
  now apply boolean_only_eval.
Qed.

Lemma compiled_condition_follows_precedence_witness :
  boolean_only BlocksExample.selection_and_not_filters = true
  /\ well_formed BlocksExample.selection_and_not_filters = true
  /\ exists p,
       prepare_condition BlocksExample.match_search_id BlocksExample.analyze_x_of
         (RawStr (Str.spaces 0 ++ render BlocksExample.selection_and_not_filters
                             ++ Str.spaces 0))
       = Ok (VFun p)
       /\ forall signature event quantified,
            p signature event
            = eval (BlocksExample.match_search_id signature event) quantified
                   BlocksExample.selection_and_not_filters.
Proof.
  split; [reflexivity|]. split; [reflexivity|].
  apply (compiled_condition_follows_precedence
           BlocksExample.match_search_id BlocksExample.analyze_x_of
           BlocksExample.selection_and_not_filters 0 0); reflexivity.
Defined.

(** C2: for every text of the grammar that holds an aggregation clause
    or a near clause, wherever the clause stands and whatever the rest
    of the expression is, [prepare_condition] fails with
    [UnsupportedFeature], its message naming the clause the parser
    completes first; the failure is that of compilation, not a syntax
    error, and no predicate is returned. *)
Theorem clause_raises_unsupported_feature
        {Signature Event : Type}
        (match_search_id : Signature -> Event -> string -> bool)
        (analyze_x_of : Signature -> Event -> option Z -> option string -> bool)
        (c : condition) (l r : nat) :
  has_clause c = true -> well_formed c = true ->
  exists m,
    prepare_condition match_search_id analyze_x_of
                      (RawStr (Str.spaces l ++ render c ++ Str.spaces r))
    = Err (UnsupportedFeature m)
    /\ first_clause c = Some m
    /\ (m = "Aggregation expressions not supported."
        \/ m = "Near operation not supported.").
Proof.
  intros Hc Hwf.
  pose proof (prepare_condition_reads match_search_id analyze_x_of c l r Hwf) as H.
  pose proof (has_clause_first_clause c Hc) as Hf.
  destruct (first_clause c) as [m|] eqn:Hm; [|congruence].
  exists m. repeat split; [exact H|]. now apply (first_clause_message c).
Qed.

Lemma clause_raises_unsupported_feature_witness :
  has_clause BlocksExample.counted = true
  /\ well_formed BlocksExample.counted = true
  /\ exists m,
       prepare_condition BlocksExample.match_search_id BlocksExample.analyze_x_of
         (RawStr (Str.spaces 0 ++ render BlocksExample.counted ++ Str.spaces 0))
       = Err (UnsupportedFeature m)
       /\ first_clause BlocksExample.counted = Some m
       /\ (m = "Aggregation expressions not supported."
           \/ m = "Near operation not supported.").
Proof.
  split; [reflexivity|]. split; [reflexivity|].
  apply (clause_raises_unsupported_feature
           BlocksExample.match_search_id BlocksExample.analyze_x_of
           BlocksExample.counted 0 0); reflexivity.
Defined.

(** C5: with the x-of resolver of the specification, [all of them] on
    a rule whose search blocks [a] and [b] match and [c] does not gives
    [true], and [1 of them] on a rule whose only search block [a]
    matches gives [false]: the resolver is handed the selector
    ["them"], that is the blocks named [them], where the specification
    has every declared block. *)
Theorem of_them_selects_the_blocks_named_them :
  BlocksExample.run "all of them" [("a", true); ("b", true); ("c", false)] = Ok true
  /\ forallb (BlocksExample.match_search_id [("a", true); ("b", true); ("c", false)] tt)
             (BlocksExample.search_blocks [("a", true); ("b", true); ("c", false)])
     = false
  /\ BlocksExample.run "1 of them" [("a", true)] = Ok false
  /\ matching_blocks BlocksExample.search_blocks BlocksExample.match_search_id
                     [("a", true)] tt = 1.
Proof. repeat split; reflexivity. Qed.

Lemma join_parenthesised (fragments : list string) :
  fragments <> [] ->
  "(" ++ Str.join ") or (" fragments ++ ")" = parenthesised_or fragments.
Proof.
  destruct fragments as [|a l]; [congruence|]. intros _. revert a.
  unfold parenthesised_or, Str.join.
  induction l as [|b l IH]; intros a; [reflexivity|].
  cbn [map String.concat] in *. rewrite <- (IH b).
  rewrite !append_assoc. reflexivity.
Qed.

(** C7: for every text, grammatical or not, and for every list of
    fragments, [prepare_condition] returns a callable or fails with a
    syntax error or with [UnsupportedFeature]: the [ValueError] of
    [atom], [and_rule] and [or_rule] and the assertion of [not_rule]
    are never raised, every folded child being a predicate. *)
Theorem consistency_checks_never_fire
        {Signature Event : Type}
        (match_search_id : Signature -> Event -> string -> bool)
        (analyze_x_of : Signature -> Event -> option Z -> option string -> bool)
        (raw : raw_condition) :
  match prepare_condition match_search_id analyze_x_of raw with
  | Ok v => callable v = true
  | Err e => e = UnexpectedInput \/ exists m, e = UnsupportedFeature m
  end
  /\ prepare_condition match_search_id analyze_x_of raw <> Err ValueError
  /\ prepare_condition match_search_id analyze_x_of raw <> Err AssertionError.
Proof.
  assert (H : match prepare_condition match_search_id analyze_x_of raw with
              | Ok v => callable v = true
              | Err e => refusal e
              end).
  { destruct raw; cbn [prepare_condition]; apply parse_total. }
  split; [exact H|].
  destruct (prepare_condition match_search_id analyze_x_of raw) as [v|e];
    [split; discriminate|].
  destruct H as [-> | (m & ->)]; split; discriminate.
Qed.

(** C10: for the empty list of fragments the text is ["()"], and
    [prepare_condition] fails with a syntax error: no predicate, no
    [UnsupportedFeature]. *)
Theorem empty_fragment_list_is_a_syntax_error
        {Signature Event : Type}
        (match_search_id : Signature -> Event -> string -> bool)
        (analyze_x_of : Signature -> Event -> option Z -> option string -> bool) :
  "(" ++ Str.join ") or (" [] ++ ")" = "()"
  /\ prepare_condition match_search_id analyze_x_of (RawList [])
     = Err UnexpectedInput.
Proof. split; reflexivity. Qed.

(* ================================================================== *)
(** * The registry and the evaluation pass *)

(** C8: [add_signature] raises nothing of its own and stores the rule
    under its title: the title then gives the rule just added, every
    other title gives what it gave before, and the titles of the
    registry are the same as before when the title was registered, one
    more when it was not. *)
Theorem add_signature_last_write_wins
        {Signature : Type} (title : Signature -> string)
        (self : PySigma) (signature : Signature) :
  exists self',
    add_signature title self (Ok signature) = Ok self'
    /\ (forall k,
          Dict.get (rules self') k
          = if String.eqb k (title signature) then Some signature
            else Dict.get (rules self) k)
    /\ Dict.keys (rules self')
       = if Dict.contains (rules self) (title signature)
         then Dict.keys (rules self)
         else (Dict.keys (rules self) ++ [title signature])%list.
Proof.
  eexists. split; [reflexivity|]. cbn [rules]. split.
  - intros k. destruct (String.eqb_spec k (title signature)) as [->|Hne].
    + apply DictFacts.get_set_same.
    + now apply DictFacts.get_set_other.
  - destruct (Dict.contains (rules self) (title signature)) eqn:E.
    + now apply DictFacts.keys_set_present.
    + now apply DictFacts.keys_set_absent.
Qed.

Section Pass.

Context {RawEvent Event Signature Timeframe TimedEvent : Type}.
Variable prepare_event_log : RawEvent -> Event.
Variable get_condition : Signature -> Signature -> Event -> bool.
Variable get_timeframe : Signature -> option Timeframe.
Variable description : Signature -> string.
Variable level : Signature -> string.
Variable file_name : Signature -> string.
Variable check_timeframe :
  Signature -> string -> list TimedEvent -> Event -> list (Alert Event) ->
  list TimedEvent * list (Alert Event).

Local Abbreviation check_rule :=
  (check_rule get_condition get_timeframe description level file_name check_timeframe).
Local Abbreviation check_event_from :=
  (check_event_from get_condition get_timeframe description level file_name
                    check_timeframe).
Local Abbreviation check_event :=
  (check_event prepare_event_log get_condition get_timeframe description level
               file_name check_timeframe).
Local Abbreviation check_events :=
  (check_events prepare_event_log get_condition get_timeframe description level
                file_name check_timeframe).

(** C4: when the correlator only adds alerts that carry the rule name
    it was given, a pass raises no error whether or not the two titles
    are registered, evaluates every event against the registry without
    the two titles, removed once before the first event, and returns no
    alert that carries either title. *)
Theorem forbidden_rules_never_alert (self : PySigma) (events : list RawEvent) :
  names_its_alerts check_timeframe ->
  exists p,
    check_events self events = Some p
    /\ all_alerts p
       = flat_map (fun raw_event =>
                     check_event raw_event (purged forbidden_rules (rules self)))
                  events
    /\ Forall (fun a => ~ In (alert_rule_name a) forbidden_rules) (all_alerts p).
Proof.
  intros Hct. eexists. split; [apply check_events_pass|]. cbn [all_alerts].
  split; [reflexivity|]. apply Forall_forall. intros a Ha.
  apply in_flat_map in Ha as (raw_event & _ & Ha).
  apply (check_event_names prepare_event_log get_condition get_timeframe
                           description level file_name check_timeframe) in Ha;
    [|exact Hct].
  now apply keys_purged in Ha.
Qed.

(** C9: a pass leaves in the instance the registry without the two
    titles: either title is then absent, every other title gives the
    rule it gave before, in the same order, and a later pass finds the
    registry as this one left it. *)
Theorem check_events_deletes_from_the_registry (self : PySigma) (events : list RawEvent) :
  exists p,
    check_events self events = Some p
    /\ rules (self_after p) = purged forbidden_rules (rules self)
    /\ (forall k,
          Dict.get (rules (self_after p)) k
          = if existsb (String.eqb k) forbidden_rules then None
            else Dict.get (rules self) k)
    /\ (forall later, exists p',
          check_events (self_after p) later = Some p'
          /\ rules (self_after p') = rules (self_after p)).
Proof.
  eexists. split; [apply check_events_pass|]. cbn [self_after rules].
  split; [reflexivity|]. split.
  - intros k. destruct (existsb (String.eqb k) forbidden_rules) eqn:E.
    + apply get_purged_forbidden. apply existsb_exists in E as (x & Hx & Hk).
      apply String.eqb_eq in Hk. now subst.
    + apply get_purged_other. intros Hin.
      assert (existsb (String.eqb k) forbidden_rules = true); [|congruence].
      apply existsb_exists. exists k. split; [assumption | apply String.eqb_refl].
  - intros later. eexists. split; [apply check_events_pass|].
    cbn [self_after rules]. apply purged_idempotent.
Qed.

End Pass.

Lemma timeframe_example_names_its_alerts :
  names_its_alerts TimeframeExample.check_timeframe.
Proof.
  intros rule name timed event alerts a Ha.
  cbn [TimeframeExample.check_timeframe snd] in Ha.
  apply in_app_or in Ha as [Ha|[<-|[]]]; [now left | now right].
Qed.

Lemma forbidden_rules_never_alert_witness :
  names_its_alerts TimeframeExample.check_timeframe
  /\ exists p,
       check_events TimeframeExample.prepare_event_log TimeframeExample.get_condition
                    TimeframeExample.get_timeframe TimeframeExample.description
                    TimeframeExample.level TimeframeExample.file_name
                    TimeframeExample.check_timeframe TimeframeExample.sigma [7; 8]
       = Some p
       /\ all_alerts p
          = flat_map (fun raw_event =>
                        check_event TimeframeExample.prepare_event_log
                                    TimeframeExample.get_condition
                                    TimeframeExample.get_timeframe
                                    TimeframeExample.description
                                    TimeframeExample.level TimeframeExample.file_name
                                    TimeframeExample.check_timeframe raw_event
                                    (purged forbidden_rules
                                            (rules TimeframeExample.sigma)))
                     [7; 8]
       /\ Forall (fun a => ~ In (alert_rule_name a) forbidden_rules) (all_alerts p).
Proof.
  split; [exact timeframe_example_names_its_alerts|].
  apply (forbidden_rules_never_alert
           TimeframeExample.prepare_event_log TimeframeExample.get_condition
           TimeframeExample.get_timeframe TimeframeExample.description
           TimeframeExample.level TimeframeExample.file_name
           TimeframeExample.check_timeframe TimeframeExample.sigma [7; 8]).
  exact timeframe_example_names_its_alerts.
Defined.

(** C3: over the two events 7 and 8, with one rule that has a
    timeframe and matches both, [check_events] hands the correlator
    an empty timed-events list for the second event as for the first:
    [check_event] creates the list anew at every call, so what the
    correlator left for the first event is lost, where a list kept
    across the events of the pass would hold that event. *)
Theorem timed_events_is_fresh_for_each_event :
  exists p,
    check_events TimeframeExample.prepare_event_log TimeframeExample.get_condition
                 TimeframeExample.get_timeframe TimeframeExample.description
                 TimeframeExample.level TimeframeExample.file_name
                 TimeframeExample.check_timeframe TimeframeExample.sigma [7; 8]
    = Some p
    /\ map alert_event (all_alerts p) = [0; 0]
    /\ map alert_event
           (persistent_pass TimeframeExample.prepare_event_log
                            TimeframeExample.get_condition
                            TimeframeExample.get_timeframe
                            TimeframeExample.description TimeframeExample.level
                            TimeframeExample.file_name
                            TimeframeExample.check_timeframe
                            [] (rules (self_after p)) [7; 8])
       = [0; 1]
    /\ all_alerts p
       <> persistent_pass TimeframeExample.prepare_event_log
                          TimeframeExample.get_condition
                          TimeframeExample.get_timeframe
                          TimeframeExample.description TimeframeExample.level
                          TimeframeExample.file_name
                          TimeframeExample.check_timeframe
                          [] (rules (self_after p)) [7; 8].
Proof.
  eexists. split; [reflexivity|]. split; [reflexivity|]. split; [reflexivity|].
  discriminate.
Qed.

(* ================================================================== *)
(** * The bound of the descent *)

Section Fuel.

Context {Signature Event : Type}.
Variable match_search_id : Signature -> Event -> string -> bool.
Variable analyze_x_of : Signature -> Event -> option Z -> option string -> bool.

Local Abbreviation parser_out := (@parser_out Signature Event).
Local Abbreviation parse_pipe := (parse_pipe match_search_id analyze_x_of).
Local Abbreviation parse_atom := (parse_atom match_search_id analyze_x_of).
Local Abbreviation parse_not_rule := (parse_not_rule match_search_id analyze_x_of).
Local Abbreviation parse_and_rule := (parse_and_rule match_search_id analyze_x_of).
Local Abbreviation parse_or_rule := (parse_or_rule match_search_id analyze_x_of).
Local Abbreviation parse_pipe_rule := (parse_pipe_rule match_search_id analyze_x_of).
Local Abbreviation and_loop := (and_loop match_search_id analyze_x_of).
Local Abbreviation or_loop := (or_loop match_search_id analyze_x_of).
Local Abbreviation parse_aggregation_expression :=
  (parse_aggregation_expression match_search_id analyze_x_of).
Local Abbreviation parse := (parse match_search_id analyze_x_of).

Section TwoDescents.

(** Two readers of the text between parentheses that agree on the
    texts shorter than [n]. *)
Variables rec1 rec2 : string -> parser_out.
Variable n : nat.
Hypothesis rec1_reads :
  forall s, String.length s < n -> reads (String.length s) (rec1 s).
Hypothesis rec_agree : forall s, String.length s < n -> rec1 s = rec2 s.

Lemma parse_atom_agree accepts s :
  String.length s <= n -> parse_atom rec1 accepts s = parse_atom rec2 accepts s.
Proof.
  intros Hs. unfold Parser.parse_atom.
  destruct (Lexer.next_token accepts s) as [[t s1]|e] eqn:H1; [|reflexivity].
  cbn [bind]. apply next_token_consumes in H1 as [_ H1].
  destruct (tok_type t) eqn:Ht; try reflexivity.
  rewrite rec_agree; [reflexivity|]. specialize (H1 ltac:(discriminate)). lia.
Qed.

Lemma parse_not_rule_agree s :
  String.length s <= n -> parse_not_rule rec1 s = parse_not_rule rec2 s.
Proof.
  intros Hs. unfold Parser.parse_not_rule.
  destruct (Lexer.next_token Accepts.atom_start s) as [[t s1]|e] eqn:H1;
    [|reflexivity].
  cbn [bind]. apply next_token_consumes in H1 as [H1 _].
  rewrite (parse_atom_agree Accepts.atom_start s Hs).
  rewrite (parse_atom_agree Accepts.after_not s1) by lia. reflexivity.
Qed.

Lemma and_loop_agree k : forall args s,
  String.length s <= n -> and_loop rec1 k args s = and_loop rec2 k args s.
Proof.
  induction k as [|k IH]; intros args s Hs; rewrite !and_loop_eq; [reflexivity|].
  destruct (Lexer.next_token Accepts.after_atom s) as [[t s1]|e] eqn:H1;
    [|reflexivity].
  cbn [bind]. apply next_token_consumes in H1 as [H1 _].
  rewrite <- (parse_not_rule_agree s1) by lia.
  pose proof (parse_not_rule_reads match_search_id analyze_x_of rec1 n rec1_reads
                                   s1 ltac:(lia)) as Hr.
  destruct (parse_not_rule rec1 s1) as [[v s2]|e]; cbn [bind].
  - destruct Hr as [_ Hr]. rewrite (IH _ s2) by lia. reflexivity.
  - reflexivity.
Qed.

Lemma parse_and_rule_agree s :
  String.length s <= n -> parse_and_rule rec1 s = parse_and_rule rec2 s.
Proof.
  intros Hs. unfold Parser.parse_and_rule.
  rewrite <- (parse_not_rule_agree s Hs).
  pose proof (parse_not_rule_reads match_search_id analyze_x_of rec1 n rec1_reads
                                   s Hs) as Hr.
  destruct (parse_not_rule rec1 s) as [[v s1]|e]; cbn [bind]; [|reflexivity].
  destruct Hr as [_ Hr]. apply and_loop_agree. lia.
Qed.

Lemma or_loop_agree k : forall args s,
  String.length s <= n -> or_loop rec1 k args s = or_loop rec2 k args s.
Proof.
  induction k as [|k IH]; intros args s Hs; rewrite !or_loop_eq; [reflexivity|].
  destruct (Lexer.next_token Accepts.after_atom s) as [[t s1]|e] eqn:H1;
    [|reflexivity].
  cbn [bind]. apply next_token_consumes in H1 as [H1 _].
  rewrite <- (parse_and_rule_agree s1) by lia.
  pose proof (parse_and_rule_reads match_search_id analyze_x_of rec1 n rec1_reads
                                   s1 ltac:(lia)) as Hr.
  destruct (parse_and_rule rec1 s1) as [[v s2]|e]; cbn [bind].
  - destruct Hr as [_ Hr]. rewrite (IH _ s2) by lia. reflexivity.
  - reflexivity.
Qed.

Lemma parse_or_rule_agree s :
  String.length s <= n -> parse_or_rule rec1 s = parse_or_rule rec2 s.
Proof.
  intros Hs. unfold Parser.parse_or_rule.
  rewrite <- (parse_and_rule_agree s Hs).
  pose proof (parse_and_rule_reads match_search_id analyze_x_of rec1 n rec1_reads
                                   s Hs) as Hr.
  destruct (parse_and_rule rec1 s) as [[v s1]|e]; cbn [bind]; [|reflexivity].
  destruct Hr as [_ Hr]. apply or_loop_agree. lia.
Qed.

Lemma parse_aggregation_expression_agree s :
  String.length s <= n ->
  parse_aggregation_expression rec1 s = parse_aggregation_expression rec2 s.
Proof.
  intros Hs. unfold Parser.parse_aggregation_expression.
  destruct (Lexer.next_token Accepts.after_pipe s) as [[t s1]|e] eqn:H1;
    [|reflexivity].
  cbn [bind]. apply next_token_consumes in H1 as [H1 _].
  rewrite (parse_or_rule_agree s1) by lia. reflexivity.
Qed.

Lemma parse_pipe_rule_agree s :
  String.length s <= n -> parse_pipe_rule rec1 s = parse_pipe_rule rec2 s.
Proof.
  intros Hs. unfold Parser.parse_pipe_rule.
  rewrite <- (parse_or_rule_agree s Hs).
  pose proof (parse_or_rule_reads match_search_id analyze_x_of rec1 n rec1_reads
                                  s Hs) as Hr.
  destruct (parse_or_rule rec1 s) as [[v s1]|e]; cbn [bind]; [|reflexivity].
  destruct Hr as [_ Hr].
  destruct (Lexer.next_token Accepts.after_atom s1) as [[t s2]|e] eqn:H1;
    [|reflexivity].
  cbn [bind]. apply next_token_consumes in H1 as [H1 _].
  rewrite (parse_aggregation_expression_agree s2) by lia. reflexivity.
Qed.

End TwoDescents.

(** Past the length of the text, the bound of the descent does not
    matter. *)
Lemma parse_pipe_fuel f1 : forall f2 s,
  String.length s < f1 -> String.length s < f2 ->
  parse_pipe f1 s = parse_pipe f2 s.
Proof.
  induction f1 as [|f1 IH]; intros f2 s H1 H2; [lia|].
  destruct f2 as [|f2]; [lia|]. cbn [Parser.parse_pipe].
  apply (parse_pipe_rule_agree (parse_pipe f1) (parse_pipe f2) (String.length s)).
  - intros s' Hs'. apply parse_pipe_reads. lia.
  - intros s' Hs'. apply IH; lia.
  - lia.
Qed.

Lemma parse_spaces n text : parse (Str.spaces n ++ text) = parse text.
Proof.
  unfold Parser.parse. rewrite parse_pipe_spaces.
  rewrite (parse_pipe_fuel _ (S (String.length text)) text); [reflexivity| |lia].
  rewrite length_append. lia.
Qed.

End Fuel.

(* ================================================================== *)
(** * What a text that compiles looks like *)

Lemma occurrences_append c a b :
  occurrences c (a ++ b) = occurrences c a + occurrences c b.
Proof. induction a as [|d a IH]; simpl; [reflexivity|]. rewrite IH. lia. Qed.

Lemma forallb_append p a b :
  Str.forallb p (a ++ b) = Str.forallb p a && Str.forallb p b.
Proof.
  induction a as [|d a IH]; simpl; [reflexivity|]. rewrite IH.
  now rewrite andb_assoc.
Qed.

Lemma occurrences_spaces c n : c <> " "%char -> occurrences c (Str.spaces n) = 0.
Proof.
  intros Hc. induction n as [|n IH]; simpl; [reflexivity|].
  destruct (Ascii.eqb_spec c " "); [contradiction|exact IH].
Qed.

Lemma forallb_spaces n : Str.forallb is_condition_char (Str.spaces n) = true.
Proof. induction n as [|n IH]; simpl; [reflexivity|exact IH]. Qed.

Lemma drop_spaces_split s : exists k, s = Str.spaces k ++ Str.drop_spaces s.
Proof.
  induction s as [|c s [k IH]]; [now exists 0|].
  destruct (Ascii.eqb_spec c " ") as [->|Hc].
  - exists (S k). simpl. now rewrite <- IH.
  - exists 0. now rewrite drop_spaces_other.
Qed.

Lemma strip_prefix_split p : forall s r, Str.strip_prefix p s = Some r -> s = p ++ r.
Proof.
  induction p as [|c p IH]; simpl; intros s r H; [now inversion H|].
  destruct s as [|d s]; [discriminate|].
  destruct (Ascii.eqb_spec c d); [subst|discriminate]. now rewrite (IH _ _ H).
Qed.

Lemma span_split p s w r :
  Str.span p s = (w, r) -> s = w ++ r /\ Str.forallb p w = true.
Proof.
  revert w r; induction s as [|c s IH]; simpl; intros w r H.
  - now inversion H.
  - destruct (p c) eqn:Hc.
    + destruct (Str.span p s) as [w' r'] eqn:Hs. inversion H; subst.
      destruct (IH w' r eq_refl) as [-> Hw]. simpl. now rewrite Hc.
    + inversion H; subst. now split.
Qed.

Lemma forallb_impl (p q : ascii -> bool) w :
  (forall c, p c = true -> q c = true) ->
  Str.forallb p w = true -> Str.forallb q w = true.
Proof.
  intros Hpq. induction w as [|d w IH]; simpl; [reflexivity|]. intros H.
  apply andb_true_iff in H as [Hd Hw]. now rewrite (Hpq d Hd), IH.
Qed.

Lemma occurrences_forallb p c w :
  p c = false -> Str.forallb p w = true -> occurrences c w = 0.
Proof.
  intros Hc. induction w as [|d w IH]; simpl; [reflexivity|]. intros H.
  apply andb_true_iff in H as [Hd Hw].
  destruct (Ascii.eqb_spec c d); [congruence|]. now apply IH.
Qed.

Lemma match_class_split first rest s w r :
  match_class first rest s = Some (w, r) ->
  s = w ++ r /\ word first rest w = true.
Proof.
  unfold match_class. destruct s as [|d s]; [discriminate|].
  destruct (first d) eqn:Hd; [|discriminate].
  destruct (Str.span rest s) as [w' r'] eqn:Hs. intros H; inversion H; subst.
  apply span_split in Hs as [-> Hw]. split; [reflexivity|]. simpl.
  now rewrite Hd.
Qed.

Lemma id_char_pattern_char c : is_id_char c = true -> is_pattern_char c = true.
Proof. unfold is_pattern_char. now intros ->. Qed.

Lemma id_start_pattern_char c : is_id_start c = true -> is_pattern_char c = true.
Proof.
  unfold is_pattern_char, is_id_char, is_id_start. intros H.
  apply orb_true_iff in H as [-> | ->]; [reflexivity|].
  now rewrite !orb_true_r.
Qed.

Lemma digit_pattern_char c : is_digit c = true -> is_pattern_char c = true.
Proof.
  unfold is_pattern_char, is_id_char. intros ->. now rewrite !orb_true_r.
Qed.

Lemma word_pattern_chars first rest w :
  (forall c, first c = true -> is_pattern_char c = true) ->
  (forall c, rest c = true -> is_pattern_char c = true) ->
  word first rest w = true -> Str.forallb is_pattern_char w = true.
Proof.
  intros Hf Hr. destruct w as [|d w]; [discriminate|]. simpl. intros H.
  apply andb_true_iff in H as [Hd Hw]. rewrite (Hf d Hd).
  now apply (forallb_impl rest).
Qed.

Lemma regexp_split t m s w r :
  regexp t = Some m -> m s = Some (w, r) ->
  s = w ++ r /\ Str.forallb is_pattern_char w = true.
Proof.
  intros Hre Hm.
  destruct t; inversion Hre; subst; apply match_class_split in Hm as [-> Hw];
    (split; [reflexivity|]); revert Hw; apply word_pattern_chars;
    auto using id_char_pattern_char, id_start_pattern_char, digit_pattern_char.
  intros c Hc. apply digit_pattern_char. now apply nonzero_digit_digit.
Qed.

Lemma regexp_no_literal t m : regexp t = Some m -> literal t = None.
Proof. destruct t; intros H; (discriminate || reflexivity). Qed.

Lemma scan_split accepts alts s tok r :
  Lexer.scan accepts alts s = Some (tok, r) ->
  exists w, s = w ++ r /\ token_text (tok_type tok) w.
Proof.
  induction alts as [|t alts IH]; cbn [Lexer.scan]; [discriminate|].
  destruct (regexp t) as [m|] eqn:Hre.
  - destruct (m s) as [[w r']|] eqn:Hm; [|exact IH].
    intros H; inversion H; subst.
    destruct (regexp_split t m s w r Hre Hm) as [-> Hw].
    exists w. split; [reflexivity|]. unfold token_text. cbn [tok_type].
    unfold Lexer.unless_callback.
    destruct (find _ (Lexer.unless accepts t)) as [t'|] eqn:Hf.
    + apply find_some in Hf as [_ Hf]. destruct (literal t') as [l|]; [|discriminate].
      apply String.eqb_eq in Hf. now subst.
    + now rewrite (regexp_no_literal t m Hre).
  - destruct (literal t) as [l|] eqn:Hl; [|exact IH].
    destruct (Lexer.embedded accepts t); [exact IH|].
    destruct (Str.strip_prefix l s) as [r'|] eqn:Hp; [|exact IH].
    intros H; inversion H; subst. apply strip_prefix_split in Hp as ->.
    exists l. split; [reflexivity|]. unfold token_text. cbn [tok_type].
    now rewrite Hl.
Qed.

(** A token is, after the blanks the lexer ignores, the text of its
    terminal. *)
Lemma next_token_split accepts s t s' :
  Lexer.next_token accepts s = Ok (t, s') ->
  exists k w, s = Str.spaces k ++ w ++ s' /\ token_text (tok_type t) w.
Proof.
  unfold Lexer.next_token.
  destruct (drop_spaces_split s) as (k & Hk).
  destruct (Str.drop_spaces s) as [|d s0] eqn:Hs.
  - destruct (existsb (terminal_eqb T_END) accepts); [|discriminate].
    intros H; inversion H; subst t s'. exists k, "". split; [exact Hk|].
    reflexivity.
  - destruct (Lexer.scan accepts accepts (String d s0)) as [[tok r]|] eqn:Hscan;
      [|discriminate].
    intros H; inversion H; subst tok r.
    destruct (scan_split accepts _ _ _ _ Hscan) as (w & Hw & Ho).
    exists k, w. rewrite <- Hw. now split.
Qed.

Lemma clean_nil : clean "".
Proof. now split. Qed.

Lemma clean_append a b : clean a -> clean b -> clean (a ++ b).
Proof.
  intros [H1 H2] [H3 H4]. split.
  - now rewrite forallb_append, H1, H3.
  - rewrite !occurrences_append; lia.
Qed.

Lemma clean_spaces k : clean (Str.spaces k).
Proof.
  split; [apply forallb_spaces|].
  now rewrite !occurrences_spaces by discriminate.
Qed.

Lemma clean_pattern_chars w : Str.forallb is_pattern_char w = true -> clean w.
Proof.
  intros Hw. split.
  - revert Hw. apply forallb_impl. intros c Hc. unfold is_condition_char.
    now rewrite Hc.
  - now rewrite !(occurrences_forallb is_pattern_char) by (assumption || reflexivity).
Qed.

(** A token that is neither a parenthesis, nor the pipe, nor a
    comparison. *)
Lemma next_token_plain accepts s t s' :
  Lexer.next_token accepts s = Ok (t, s') ->
  ~ In (tok_type t) [LPAR; RPAR; VBAR; GT; LT; EQ] ->
  exists pre, s = pre ++ s' /\ clean pre.
Proof.
  intros H Ht. apply next_token_split in H as (k & w & -> & Hw).
  exists (Str.spaces k ++ w). split; [now rewrite append_assoc|].
  apply clean_append; [apply clean_spaces|]. unfold token_text in Hw.
  destruct (tok_type t); cbn [literal] in Hw;
    try (now apply clean_pattern_chars);
    try (subst w; now split);
    exfalso; apply Ht; cbn; tauto.
Qed.

Lemma next_token_lpar_split accepts s t s' :
  Lexer.next_token accepts s = Ok (t, s') -> tok_type t = LPAR ->
  exists k, s = Str.spaces k ++ "(" ++ s'.
Proof.
  intros H Ht. apply next_token_split in H as (k & w & -> & Hw).
  unfold token_text in Hw. rewrite Ht in Hw. cbn in Hw. subst. now exists k.
Qed.

Lemma next_token_rpar_split accepts s t s' :
  Lexer.next_token accepts s = Ok (t, s') -> tok_type t = RPAR ->
  exists k, s = Str.spaces k ++ ")" ++ s'.
Proof.
  intros H Ht. apply next_token_split in H as (k & w & -> & Hw).
  unfold token_text in Hw. rewrite Ht in Hw. cbn in Hw. subst. now exists k.
Qed.

Lemma clean_parentheses k b k' :
  clean b -> clean ((Str.spaces k ++ "(") ++ b ++ Str.spaces k' ++ ")").
Proof.
  intros [H1 H2]. split.
  - rewrite !forallb_append, !forallb_spaces, H1. reflexivity.
  - rewrite !occurrences_append, !occurrences_spaces by discriminate.
    cbn. lia.
Qed.

Lemma scan_not_end accepts alts s tok r :
  Lexer.scan accepts alts s = Some (tok, r) -> tok_type tok <> T_END.
Proof.
  induction alts as [|t alts IH]; cbn [Lexer.scan]; [discriminate|].
  destruct (regexp t) as [m|] eqn:Hre.
  - destruct (m s) as [[w r']|] eqn:Hm; [|exact IH].
    intros H; inversion H; subst. cbn [tok_type].
    destruct (unless_callback_literal accepts t w) as [-> | Hl].
    + intros ->. discriminate.
    + intros E. rewrite E in Hl. now elim Hl.
  - destruct (literal t) as [l|] eqn:Hl; [|exact IH].
    destruct (Lexer.embedded accepts t); [exact IH|].
    destruct (Str.strip_prefix l s) as [r'|] eqn:Hp; [|exact IH].
    intros H; inversion H; subst. cbn [tok_type]. intros ->. discriminate.
Qed.

Lemma look_ahead_end accepts s :
  look_ahead accepts s = Ok T_END -> exists k, s = Str.spaces k.
Proof.
  unfold look_ahead, Lexer.next_token. destruct (drop_spaces_split s) as (k & Hk).
  destruct (Str.drop_spaces s) as [|d s0].
  - intros _. exists k. now rewrite append_nil_r in Hk.
  - destruct (Lexer.scan accepts accepts (String d s0)) as [[tok r]|] eqn:Hscan;
      [|discriminate].
    cbn. intros H; inversion H. now apply scan_not_end in Hscan.
Qed.

Lemma terminal_eqb_eq a b : terminal_eqb a b = true -> a = b.
Proof. unfold terminal_eqb. destruct (terminal_eq_dec a b); [easy|discriminate]. Qed.

Lemma scan_accepts accepts alts s tok r :
  incl alts accepts ->
  Lexer.scan accepts alts s = Some (tok, r) -> In (tok_type tok) accepts.
Proof.
  induction alts as [|t alts IH]; cbn [Lexer.scan]; [discriminate|]. intros Hin.
  assert (Ht : In t accepts) by (apply Hin; now left).
  assert (Hin' : incl alts accepts) by (intros x Hx; apply Hin; now right).
  destruct (regexp t) as [m|] eqn:Hre.
  - destruct (m s) as [[w r']|] eqn:Hm; [|now apply IH].
    intros H; inversion H; subst. cbn [tok_type]. unfold Lexer.unless_callback.
    destruct (find _ (Lexer.unless accepts t)) as [t'|] eqn:Hf; [|exact Ht].
    apply find_some in Hf as [Hf _]. unfold Lexer.unless in Hf.
    now apply filter_In in Hf as [Hf _].
  - destruct (literal t) as [l|] eqn:Hl; [|now apply IH].
    destruct (Lexer.embedded accepts t); [now apply IH|].
    destruct (Str.strip_prefix l s) as [r'|] eqn:Hp; [|now apply IH].
    intros H; inversion H; subst. exact Ht.
Qed.

(** The contextual lexer hands a state only terminals it accepts. *)
Lemma next_token_accepts accepts s t s' :
  Lexer.next_token accepts s = Ok (t, s') -> In (tok_type t) accepts.
Proof.
  unfold Lexer.next_token. destruct (Str.drop_spaces s) as [|d s0].
  - destruct (existsb (terminal_eqb T_END) accepts) eqn:He; [|discriminate].
    intros H; inversion H; subst. cbn [tok_type].
    apply existsb_exists in He as (x & Hx & He). apply terminal_eqb_eq in He.
    now subst.
  - destruct (Lexer.scan accepts accepts (String d s0)) as [[tok r]|] eqn:Hscan;
      [|discriminate].
    intros H; inversion H; subst. eapply scan_accepts; [|exact Hscan].
    intros x Hx; exact Hx.
Qed.

Lemma reads_clean_after {Signature Event : Type} pre s
      (r : @parser_out Signature Event) :
  clean pre -> reads_clean s r -> reads_clean (pre ++ s) r.
Proof.
  intros Hp. destruct r as [[v s']|e]; [|easy]. intros (q & -> & Hq).
  exists (pre ++ q). split; [now rewrite append_assoc | now apply clean_append].
Qed.

Section Marks.

Context {Signature Event : Type}.
Variable match_search_id : Signature -> Event -> string -> bool.
Variable analyze_x_of : Signature -> Event -> option Z -> option string -> bool.

Local Abbreviation parser_out := (@parser_out Signature Event).
Local Abbreviation parse_pipe := (parse_pipe match_search_id analyze_x_of).
Local Abbreviation parse_x_of := (parse_x_of analyze_x_of).
Local Abbreviation parse_atom := (parse_atom match_search_id analyze_x_of).
Local Abbreviation parse_not_rule := (parse_not_rule match_search_id analyze_x_of).
Local Abbreviation parse_and_rule := (parse_and_rule match_search_id analyze_x_of).
Local Abbreviation parse_or_rule := (parse_or_rule match_search_id analyze_x_of).
Local Abbreviation parse_pipe_rule := (parse_pipe_rule match_search_id analyze_x_of).
Local Abbreviation and_loop := (and_loop match_search_id analyze_x_of).
Local Abbreviation or_loop := (or_loop match_search_id analyze_x_of).
Local Abbreviation parse_aggregation_function :=
  (@parse_aggregation_function Signature Event).
Local Abbreviation parse_aggregation_expression :=
  (parse_aggregation_expression match_search_id analyze_x_of).
Local Abbreviation parse := (parse match_search_id analyze_x_of).
Local Abbreviation prepare_condition :=
  (prepare_condition match_search_id analyze_x_of).

Ltac callback :=
  match goal with
  | |- reads_clean _ (bind ?r _) =>
      destruct r as [?|?]; cbn [bind]; [|exact I]
  end.

Ltac accepted H E :=
  apply next_token_accepts in H; cbn in H, E;
  repeat (destruct H as [H|H]; [rewrite <- H in E; intuition discriminate|]);
  exact H.

Lemma reads_clean_here s (v : value) : reads_clean s (Ok (v, s) : parser_out).
Proof. exists "". split; [reflexivity | exact clean_nil]. Qed.

Lemma parse_x_of_clean x s : reads_clean s (parse_x_of x s).
Proof.
  unfold Parser.parse_x_of.
  destruct (Lexer.next_token Accepts.after_x s) as [[t1 s1]|e] eqn:H1;
    cbn [bind]; [|exact I].
  destruct (next_token_plain _ _ _ _ H1) as (p1 & -> & Hp1);
    [intros E; pose proof H1 as H; accepted H E|].
  apply reads_clean_after; [exact Hp1|]. callback.
  destruct (Lexer.next_token Accepts.after_of s1) as [[t2 s2]|e] eqn:H2;
    cbn [bind]; [|exact I].
  destruct (next_token_plain _ _ _ _ H2) as (p2 & -> & Hp2);
    [intros E; pose proof H2 as H; accepted H E|].
  apply reads_clean_after; [exact Hp2|]. callback. callback. callback.
  apply reads_clean_here.
Qed.

Section Descent.

Variable rec : string -> parser_out.
Hypothesis rec_clean : forall s, reads_clean s (rec s).

Lemma parse_atom_clean accepts s :
  incl accepts Accepts.atom_start -> reads_clean s (parse_atom rec accepts s).
Proof.
  intros Hacc. unfold Parser.parse_atom.
  destruct (Lexer.next_token accepts s) as [[t s1]|e] eqn:H1;
    cbn [bind]; [|exact I].
  destruct (tok_type t) eqn:Ht; try exact I.
  - destruct (next_token_plain _ _ _ _ H1) as (p1 & -> & Hp1);
      [rewrite Ht; cbn; intuition discriminate|].
    apply reads_clean_after; [exact Hp1|]. callback. callback. callback.
    apply reads_clean_here.
  - destruct (next_token_plain _ _ _ _ H1) as (p1 & -> & Hp1);
      [rewrite Ht; cbn; intuition discriminate|].
    apply reads_clean_after; [exact Hp1|].
    pose proof (parse_x_of_clean t s1) as Hx.
    destruct (parse_x_of t s1) as [[v s2]|e]; cbn [bind]; [|exact I].
    callback. exact Hx.
  - destruct (next_token_plain _ _ _ _ H1) as (p1 & -> & Hp1);
      [rewrite Ht; cbn; intuition discriminate|].
    apply reads_clean_after; [exact Hp1|].
    pose proof (parse_x_of_clean t s1) as Hx.
    destruct (parse_x_of t s1) as [[v s2]|e]; cbn [bind]; [|exact I].
    callback. exact Hx.
  - destruct (next_token_lpar_split _ _ _ _ H1 Ht) as (k1 & ->).
    pose proof (rec_clean s1) as Hr.
    destruct (rec s1) as [[v s2]|e]; cbn [bind]; [|exact I].
    destruct Hr as (p2 & -> & Hp2).
    destruct (Lexer.next_token Accepts.after_atom s2) as [[t2 s3]|e] eqn:H2;
      cbn [bind]; [|exact I].
    destruct (tok_type t2) eqn:Ht2; try exact I.
    destruct (next_token_rpar_split _ _ _ _ H2 Ht2) as (k3 & ->).
    callback. callback.
    exists ((Str.spaces k1 ++ "(") ++ p2 ++ Str.spaces k3 ++ ")").
    split; [now rewrite !append_assoc|]. now apply clean_parentheses.
Qed.

Lemma parse_not_rule_clean s : reads_clean s (parse_not_rule rec s).
Proof.
  unfold Parser.parse_not_rule.
  destruct (Lexer.next_token Accepts.atom_start s) as [[t s1]|e] eqn:H1;
    cbn [bind]; [|exact I].
  assert (Hplain :
    reads_clean s ('(a, s2) <- parse_atom rec Accepts.atom_start s;;
                   v <- not_rule [VNone; a];; Ok (v, s2))).
  { pose proof (parse_atom_clean Accepts.atom_start s ltac:(intros x Hx; exact Hx))
      as Ha.
    destruct (parse_atom rec Accepts.atom_start s) as [[a s2]|e];
      cbn [bind]; [|exact I].
    callback. exact Ha. }
  assert (Hnot : tok_type t = NOT \/ tok_type t = KW_not ->
    reads_clean s (negate <- tree "not" [];;
                   '(a, s2) <- parse_atom rec Accepts.after_not s1;;
                   v <- not_rule [negate; a];; Ok (v, s2))).
  { intros Ht.
    destruct (next_token_plain _ _ _ _ H1) as (p1 & -> & Hp1);
      [destruct Ht as [Ht|Ht]; rewrite Ht; cbn; intuition discriminate|].
    apply reads_clean_after; [exact Hp1|]. callback.
    assert (Hin : incl Accepts.after_not Accepts.atom_start).
    { intros x Hx. cbn in *. intuition. }
    pose proof (parse_atom_clean Accepts.after_not s1 Hin) as Ha.
    destruct (parse_atom rec Accepts.after_not s1) as [[? ?]|?];
      cbn [bind]; [|exact I].
    callback. exact Ha. }
  destruct (tok_type t); try exact Hplain; apply Hnot; auto.
Qed.

Lemma and_loop_clean k : forall args s, reads_clean s (and_loop rec k args s).
Proof.
  induction k as [|k IH]; intros args s; rewrite and_loop_eq;
    (destruct (Lexer.next_token Accepts.after_atom s) as [[t s1]|e] eqn:H1;
       cbn [bind]; [|exact I]);
    (assert (Hend : reads_clean s (v <- and_rule args;; Ok (v, s) : parser_out))
       by (callback; apply reads_clean_here)).
  - destruct (tok_type t); try exact Hend; exact I.
  - assert (Hand : tok_type t = KW_and \/ tok_type t = KW_AND ->
      reads_clean s ('(v, s2) <- parse_not_rule rec s1;;
                     and_loop rec k (args ++ [v])%list s2)).
    { intros Ht.
      destruct (next_token_plain _ _ _ _ H1) as (p1 & -> & Hp1);
        [destruct Ht as [Ht|Ht]; rewrite Ht; cbn; intuition discriminate|].
      apply reads_clean_after; [exact Hp1|].
      pose proof (parse_not_rule_clean s1) as Hn.
      destruct (parse_not_rule rec s1) as [[v s2]|e]; cbn [bind]; [|exact I].
      destruct Hn as (p2 & -> & Hp2). apply reads_clean_after; [exact Hp2|].
      apply IH. }
    destruct (tok_type t); try exact Hend; apply Hand; auto.
Qed.

Lemma parse_and_rule_clean s : reads_clean s (parse_and_rule rec s).
Proof.
  unfold Parser.parse_and_rule. pose proof (parse_not_rule_clean s) as Hn.
  destruct (parse_not_rule rec s) as [[v s1]|e]; cbn [bind]; [|exact I].
  destruct Hn as (p & -> & Hp). apply reads_clean_after; [exact Hp|].
  apply and_loop_clean.
Qed.

Lemma or_loop_clean k : forall args s, reads_clean s (or_loop rec k args s).
Proof.
  induction k as [|k IH]; intros args s; rewrite or_loop_eq;
    (destruct (Lexer.next_token Accepts.after_atom s) as [[t s1]|e] eqn:H1;
       cbn [bind]; [|exact I]);
    (assert (Hend : reads_clean s (v <- or_rule args;; Ok (v, s) : parser_out))
       by (callback; apply reads_clean_here)).
  - destruct (tok_type t); try exact Hend; exact I.
  - assert (Hor : tok_type t = KW_or \/ tok_type t = KW_OR ->
      reads_clean s ('(v, s2) <- parse_and_rule rec s1;;
                     or_loop rec k (args ++ [v])%list s2)).
    { intros Ht.
      destruct (next_token_plain _ _ _ _ H1) as (p1 & -> & Hp1);
        [destruct Ht as [Ht|Ht]; rewrite Ht; cbn; intuition discriminate|].
      apply reads_clean_after; [exact Hp1|].
      pose proof (parse_and_rule_clean s1) as Hn.
      destruct (parse_and_rule rec s1) as [[v s2]|e]; cbn [bind]; [|exact I].
      destruct Hn as (p2 & -> & Hp2). apply reads_clean_after; [exact Hp2|].
      apply IH. }
    destruct (tok_type t); try exact Hend; apply Hor; auto.
Qed.

Lemma parse_or_rule_clean s : reads_clean s (parse_or_rule rec s).
Proof.
  unfold Parser.parse_or_rule. pose proof (parse_and_rule_clean s) as Hn.
  destruct (parse_and_rule rec s) as [[v s1]|e]; cbn [bind]; [|exact I].
  destruct Hn as (p & -> & Hp). apply reads_clean_after; [exact Hp|].
  apply or_loop_clean.
Qed.

(** The expression after a pipe never yields a value, whatever the
    reader of the text between parentheses. *)
Lemma parse_aggregation_expression_fails s :
  exists e, parse_aggregation_expression rec s = Err e.
Proof.
  unfold Parser.parse_aggregation_expression.
  destruct (Lexer.next_token Accepts.after_pipe s) as [[t s1]|e] eqn:H1;
    cbn [bind]; [|eauto].
  assert (Hf : exists e, parse_aggregation_function t s1 = Err e).
  { pose proof (parse_aggregation_function_refuses t s1
                  : refuses (parse_aggregation_function t s1)) as Hr.
    destruct (parse_aggregation_function t s1); [destruct Hr | eauto]. }
  destruct (tok_type t); try exact Hf.
  destruct (parse_or_rule rec s1) as [[v s2]|e]; cbn [bind]; [|eauto].
  destruct (look_ahead Accepts.after_atom s2) as [la|e]; cbn [bind]; [|eauto].
  destruct la; cbn; eauto.
Qed.

Lemma parse_pipe_rule_clean s : reads_clean s (parse_pipe_rule rec s).
Proof.
  unfold Parser.parse_pipe_rule. pose proof (parse_or_rule_clean s) as Ho.
  destruct (parse_or_rule rec s) as [[v s1]|e]; cbn [bind]; [|exact I].
  destruct (Lexer.next_token Accepts.after_atom s1) as [[t s2]|e] eqn:H1;
    cbn [bind]; [|exact I].
  destruct (tok_type t); try exact I.
  - callback. exact Ho.
  - destruct (parse_aggregation_expression_fails s2) as [e ->]. exact I.
  - callback. exact Ho.
Qed.

End Descent.

Lemma parse_pipe_clean fuel : forall s, reads_clean s (parse_pipe fuel s).
Proof.
  induction fuel as [|fuel IH]; intros s; [exact I|].
  cbn [Parser.parse_pipe]. now apply parse_pipe_rule_clean.
Qed.

Lemma parse_clean text v : parse text = Ok v -> clean text.
Proof.
  unfold Parser.parse.
  pose proof (parse_pipe_clean (S (String.length text)) text) as Hp.
  destruct (parse_pipe (S (String.length text)) text) as [[v' s1]|e];
    cbn [bind]; [|discriminate].
  destruct Hp as (pre & -> & Hpre).
  destruct (look_ahead Accepts.after_atom s1) as [la|e] eqn:Hla;
    cbn [bind]; [|discriminate].
  destruct la; try discriminate. intros _.
  apply look_ahead_end in Hla as [k ->]. apply clean_append; [exact Hpre|].
  apply clean_spaces.
Qed.

End Marks.

(* ================================================================== *)
(** * Further facts about the compiler *)

Lemma has_clause_none c : has_clause c = false -> first_clause c = None.
Proof.
  induction c as [name | x y | l r c IH | k n c IH | k l r a IHa b IHb
                  | k l r a IHa b IHb | l r c IH f field group op num
                  | l r c IHc d IHd];
    cbn [has_clause first_clause]; intros H; try discriminate; auto.
  - apply orb_false_iff in H as [H1 H2]. now rewrite IHa, IHb.
  - apply orb_false_iff in H as [H1 H2]. now rewrite IHa, IHb.
Qed.

Lemma digit_value c :
  is_digit c = true -> (0 <= Z.of_nat (nat_of_ascii c) - 48)%Z.
Proof. destruct c as [[] [] [] [] [] [] [] []]; vm_compute; congruence. Qed.

Lemma nonzero_digit_value c :
  is_nonzero_digit c = true -> (1 <= Z.of_nat (nat_of_ascii c) - 48)%Z.
Proof. destruct c as [[] [] [] [] [] [] [] []]; vm_compute; congruence. Qed.

Lemma int_digits_ge s : forall acc n,
  (1 <= acc)%Z -> int_digits acc s = Ok n -> (1 <= n)%Z.
Proof.
  induction s as [|c s IH]; cbn [int_digits]; intros acc n Hacc H.
  - inversion H. now subst.
  - destruct (is_digit c) eqn:Hc; [|discriminate].
    pose proof (digit_value c Hc). eapply IH; [|exact H]. lia.
Qed.

Lemma int_valid_number_positive d n :
  valid_number d = true -> int d = Ok n -> (1 <= n)%Z.
Proof.
  intros H. apply valid_number_word in H. destruct d as [|c d]; [discriminate|].
  simpl in H. apply andb_true_iff in H as [Hc Hd]. unfold int.
  cbn [int_digits]. rewrite (nonzero_digit_digit c Hc).
  apply int_digits_ge. pose proof (nonzero_digit_value c Hc). lia.
Qed.

Lemma concat_cons sep x y l :
  String.concat sep (x :: y :: l) = x ++ sep ++ String.concat sep (y :: l).
Proof. reflexivity. Qed.

Lemma concat_nil_cons x l : String.concat "" (x :: l) = x ++ String.concat "" l.
Proof. destruct l; [cbn; now rewrite append_nil_r | reflexivity]. Qed.

Lemma render_any_of_from acc ds :
  Nat.ltb (rule_level acc) 1 = false ->
  render (fold_left (fun a d => COr Lower 0 0 a (CGroup 0 0 d)) ds acc)
  = render acc ++ String.concat "" (map (fun d => " or (" ++ render d ++ ")") ds).
Proof.
  revert acc. induction ds as [|d ds IH]; intros acc Hacc; cbn [fold_left map].
  - cbn. now rewrite append_nil_r.
  - rewrite IH by reflexivity. rewrite concat_nil_cons.
    cbn [render rule_level Str.spaces]. rewrite Hacc.
    cbn [paren Nat.ltb Nat.leb render_or]. rewrite ?append_assoc.
    cbn [append]. rewrite ?append_nil_r. reflexivity.
Qed.

Lemma join_fragments r rs :
  "(" ++ Str.join ") or (" (r :: rs) ++ ")"
  = ("(" ++ r ++ ")") ++ String.concat "" (map (fun d => " or (" ++ d ++ ")") rs).
Proof.
  unfold Str.join. revert r. induction rs as [|d rs IH]; intros r.
  - cbn. now rewrite append_nil_r.
  - rewrite concat_cons. cbn [map]. rewrite concat_nil_cons.
    assert (E : (" or (" ++ d ++ ")")
                ++ String.concat "" (map (fun d => " or (" ++ d ++ ")") rs)
                = " or " ++ "(" ++ String.concat ") or (" (d :: rs) ++ ")").
    { rewrite IH. rewrite ?append_assoc. reflexivity. }
    rewrite E. rewrite ?append_assoc. reflexivity.
Qed.

Lemma render_any_of c ds :
  render (any_of c ds) = "(" ++ Str.join ") or (" (map render (c :: ds)) ++ ")".
Proof.
  unfold any_of. rewrite render_any_of_from by reflexivity.
  cbn [map]. rewrite join_fragments, map_map. cbn [render Str.spaces].
  change ("" ++ render c ++ "" ++ ")") with (render c ++ "" ++ ")").
  reflexivity.
Qed.

Lemma any_of_from_sound (f : condition -> bool) acc ds :
  forallb f ds = true ->
  (forall a d, f (COr Lower 0 0 a (CGroup 0 0 d)) = f a && f d) ->
  f acc = true ->
  f (fold_left (fun a d => COr Lower 0 0 a (CGroup 0 0 d)) ds acc) = true.
Proof.
  intros Hds Hf. revert acc Hds. induction ds as [|d ds IH]; intros acc Hds Hacc;
    cbn [fold_left]; [exact Hacc|].
  cbn [forallb] in Hds. apply andb_true_iff in Hds as [Hd Hds].
  apply IH; [exact Hds|]. now rewrite Hf, Hacc, Hd.
Qed.

Lemma eval_any_of_from atoms quantified acc ds :
  eval atoms quantified
       (fold_left (fun a d => COr Lower 0 0 a (CGroup 0 0 d)) ds acc)
  = eval atoms quantified acc || existsb (eval atoms quantified) ds.
Proof.
  revert acc. induction ds as [|d ds IH]; intros acc; cbn [fold_left existsb].
  - now rewrite orb_false_r.
  - rewrite IH. cbn [eval]. now rewrite orb_assoc.
Qed.

Lemma occurrences_concat c sep l :
  occurrences c (String.concat sep l)
  = list_sum (map (occurrences c) l) + occurrences c sep * (List.length l - 1).
Proof.
  induction l as [|x l IH]; [cbn; lia|]. destruct l as [|y l].
  - cbn. lia.
  - change (String.concat sep (x :: y :: l))
      with (x ++ sep ++ String.concat sep (y :: l)).
    rewrite !occurrences_append, IH. unfold list_sum.
    cbn [map fold_right List.length Nat.sub]. rewrite !Nat.sub_0_r. nia.
Qed.

Lemma forallb_concat p sep l :
  Str.forallb p (String.concat sep l) = true ->
  forallb (Str.forallb p) l = true.
Proof.
  induction l as [|x l IH]; [reflexivity|]. destruct l as [|y l].
  - cbn. now intros ->.
  - change (String.concat sep (x :: y :: l))
      with (x ++ sep ++ String.concat sep (y :: l)).
    rewrite !forallb_append. intros H.
    apply andb_true_iff in H as [Hx H]. apply andb_true_iff in H as [_ H].
    cbn [forallb]. rewrite Hx. now apply IH.
Qed.

(** The fragments of a text that is [clean] are made of the same
    characters, and their parentheses balance as a whole. *)
Lemma clean_fragments l :
  clean ("(" ++ Str.join ") or (" l ++ ")") ->
  forallb (Str.forallb is_condition_char) l = true
  /\ list_sum (map (occurrences "(") l) = list_sum (map (occurrences ")") l).
Proof.
  unfold clean, Str.join. intros [Hc Hb]. split.
  - change ("(" ++ String.concat ") or (" l ++ ")")
      with (String "(" (String.concat ") or (" l ++ ")")) in Hc.
    cbn [Str.forallb] in Hc. apply andb_true_iff in Hc as [_ Hc].
    rewrite forallb_append in Hc. apply andb_true_iff in Hc as [Hc _].
    now apply forallb_concat in Hc.
  - rewrite !occurrences_append, !occurrences_concat in Hb. cbn in Hb. lia.
Qed.

Section CompilerFacts.

Context {Signature Event : Type}.
Variable match_search_id : Signature -> Event -> string -> bool.
Variable analyze_x_of : Signature -> Event -> option Z -> option string -> bool.

Local Abbreviation prepare_condition :=
  (prepare_condition match_search_id analyze_x_of).
Local Abbreviation parse := (parse match_search_id analyze_x_of).
Local Abbreviation denote := (denote match_search_id analyze_x_of).

(** A text that is not [clean] is refused. *)
Lemma parse_refuses_unclean text :
  ~ clean text -> exists e, parse text = Err e /\ refusal e.
Proof.
  intros Hn. pose proof (parse_total match_search_id analyze_x_of text) as Ht.
  destruct (parse text) as [v|e] eqn:Hp; [|eauto].
  elim Hn. exact (parse_clean match_search_id analyze_x_of text v Hp).
Qed.

Lemma clean_of_fragments raw :
  match raw with
  | RawStr s => clean s
  | RawList l => clean ("(" ++ Str.join ") or (" l ++ ")")
  end ->
  forallb (Str.forallb is_condition_char) (fragments raw) = true
  /\ list_sum (map (occurrences "(") (fragments raw))
     = list_sum (map (occurrences ")") (fragments raw)).
Proof.
  destruct raw as [s|l]; cbn [fragments]; [|apply clean_fragments].
  intros [Hc Hb]. cbn. rewrite Hc. split; [reflexivity|lia].
Qed.

Lemma prepare_condition_refuses_unclean raw :
  ~ (forallb (Str.forallb is_condition_char) (fragments raw) = true
     /\ list_sum (map (occurrences "(") (fragments raw))
        = list_sum (map (occurrences ")") (fragments raw))) ->
  exists e, prepare_condition raw = Err e /\ refusal e.
Proof.
  intros Hn. destruct raw as [s|l]; cbn [Parser.prepare_condition];
    apply parse_refuses_unclean; intros Hc; apply Hn.
  - exact (clean_of_fragments (RawStr s) Hc).
  - exact (clean_of_fragments (RawList l) Hc).
Qed.

Lemma any_of_reads c ds :
  forallb well_formed (c :: ds) = true ->
  forallb (fun d => negb (has_clause d)) (c :: ds) = true ->
  exists p,
    prepare_condition (RawList (map render (c :: ds))) = Ok (VFun p)
    /\ agree p (denote (any_of c ds)).
Proof.
  intros Hwf Hcl. cbn [forallb] in Hwf, Hcl.
  apply andb_true_iff in Hwf as [Hc Hds]. apply andb_true_iff in Hcl as [Hc' Hds'].
  pose proof (prepare_condition_reads match_search_id analyze_x_of
                                      (any_of c ds) 0 0) as H.
  assert (Hw : well_formed (any_of c ds) = true).
  { unfold any_of. apply any_of_from_sound; auto. }
  assert (Hn : negb (has_clause (any_of c ds)) = true).
  { unfold any_of.
    apply (any_of_from_sound (fun d => negb (has_clause d))); auto.
    intros a d. cbn [has_clause]. now rewrite negb_orb. }
  apply negb_true_iff in Hn. rewrite (has_clause_none _ Hn) in H.
  destruct (H Hw) as (p & Hp & Ha). exists p. split; [|exact Ha].
  cbn [Str.spaces] in Hp. rewrite append_nil_r, render_any_of in Hp. exact Hp.
Qed.

End CompilerFacts.

(* ================================================================== *)
(** * Further facts about the driver *)

Lemma purged_set_forbidden {V} names (d : Dict.t V) k v :
  In k names -> purged names (Dict.set d k v) = purged names d.
Proof.
  intros Hin. unfold purged.
  assert (Hk : existsb (String.eqb k) names = true).
  { apply existsb_exists. exists k. split; [assumption | apply String.eqb_refl]. }
  induction d as [|[k0 v0] d IH]; cbn [Dict.set filter fst].
  - now rewrite Hk.
  - destruct (String.eqb_spec k0 k) as [->|Hne]; cbn [filter fst].
    + now rewrite Hk.
    + now rewrite IH.
Qed.

Lemma keys_set_in {V} (d : Dict.t V) k v k' :
  In k' (Dict.keys (Dict.set d k v)) -> k' = k \/ In k' (Dict.keys d).
Proof.
  destruct (Dict.contains d k) eqn:E.
  - rewrite (DictFacts.keys_set_present d k v E). auto.
  - rewrite (DictFacts.keys_set_absent d k v E), in_app_iff.
    intros [H|[H|[]]]; auto.
Qed.

Lemma keys_set_nodup {V} (d : Dict.t V) k v :
  NoDup (Dict.keys d) -> NoDup (Dict.keys (Dict.set d k v)).
Proof.
  intros Hd. destruct (Dict.contains d k) eqn:E.
  - now rewrite (DictFacts.keys_set_present d k v E).
  - rewrite (DictFacts.keys_set_absent d k v E).
    apply NoDup_app; [exact Hd | repeat constructor; intros [] |].
    intros x Hx [Hk|[]]. subst x. unfold Dict.contains in E.
    assert (Hg : Dict.get d k <> None); [|destruct (Dict.get d k); congruence].
    clear E Hd. unfold Dict.keys in Hx.
    induction d as [|[k0 v0] d IH]; [destruct Hx|]. cbn [Dict.get].
    destruct (String.eqb_spec k0 k); [discriminate|].
    apply IH. destruct Hx as [Hx|Hx]; [contradiction|exact Hx].
Qed.

Lemma set_forall {V} (P : string * V -> Prop) (d : Dict.t V) k v :
  Forall P d -> P (k, v) -> Forall P (Dict.set d k v).
Proof.
  intros Hd Hkv. induction d as [|[k0 v0] d IH]; cbn [Dict.set].
  - now constructor.
  - inversion Hd; subst. destruct (String.eqb_spec k0 k) as [->|Hne].
    + now constructor.
    + constructor; auto.
Qed.

Lemma titled_set {Signature} (title : Signature -> string) rs signature :
  titled title rs -> titled title (Dict.set rs (title signature) signature).
Proof.
  intros [Hn Hf]. split; [now apply keys_set_nodup|].
  apply set_forall; auto.
Qed.

Lemma titled_purged {Signature} (title : Signature -> string) names rs :
  titled title rs -> titled title (purged names rs).
Proof.
  intros [Hn Hf]. unfold purged, Dict.keys in *. split.
  - clear Hf. induction rs as [|kv rs IH]; [constructor|]. cbn [filter].
    inversion Hn; subst.
    destruct (negb (existsb (String.eqb (fst kv)) names)); [|auto].
    cbn [map]. constructor; [|auto]. intros Hin. apply H1.
    apply in_map_iff in Hin as (x & Hx & Hin). apply filter_In in Hin as [Hin _].
    apply in_map_iff. eauto.
  - apply Forall_forall. intros x Hx. apply filter_In in Hx as [Hx _].
    now apply (proj1 (Forall_forall _ _) Hf).
Qed.

Section DriverComposition.

Context {RawEvent Event Signature Timeframe TimedEvent : Type}.
Variable prepare_event_log : RawEvent -> Event.
Variable get_condition : Signature -> Signature -> Event -> bool.
Variable get_timeframe : Signature -> option Timeframe.
Variable description : Signature -> string.
Variable level : Signature -> string.
Variable file_name : Signature -> string.
Variable check_timeframe :
  Signature -> string -> list TimedEvent -> Event -> list (Alert Event) ->
  list TimedEvent * list (Alert Event).

Local Abbreviation check_rule :=
  (check_rule get_condition get_timeframe description level file_name check_timeframe).
Local Abbreviation check_event_from :=
  (check_event_from get_condition get_timeframe description level file_name
                    check_timeframe).
Local Abbreviation check_event :=
  (check_event prepare_event_log get_condition get_timeframe description level
               file_name check_timeframe).
Local Abbreviation notified :=
  (notified prepare_event_log get_condition get_timeframe description level
            file_name check_timeframe).

Lemma check_event_from_matching event (rs : Dict.t Signature) : forall st,
  check_event_from st event rs
  = check_event_from st event
      (filter (fun kv => get_condition (snd kv) (snd kv) event) rs).
Proof.
  unfold Driver.check_event_from, Dict.items.
  induction rs as [|[name rule] rs IH]; intros st; [reflexivity|].
  cbn [fold_left filter snd].
  destruct (get_condition rule rule event) eqn:Hc.
  - cbn [fold_left]. apply IH.
  - rewrite <- IH. f_equal. destruct st as [timed alerts].
    cbn [Driver.check_rule]. now rewrite Hc.
Qed.

Lemma check_event_from_plain event (rs : Dict.t Signature) : forall timed alerts,
  Forall (fun kv => get_condition (snd kv) (snd kv) event = true ->
                    get_timeframe (snd kv) = None) rs ->
  check_event_from (timed, alerts) event rs
  = (timed,
     (alerts
      ++ map (fun kv => mkAlert (fst kv) (description (snd kv)) event
                                (level (snd kv)) (file_name (snd kv)))
             (filter (fun kv => get_condition (snd kv) (snd kv) event) rs))%list).
Proof.
  unfold Driver.check_event_from, Dict.items.
  induction rs as [|[name rule] rs IH]; intros timed alerts Hrs.
  - cbn. now rewrite app_nil_r.
  - inversion Hrs as [|x l Hx Hl]; subst. cbn [fold_left filter snd fst].
    cbn [snd] in Hx. cbn [Driver.check_rule].
    destruct (get_condition rule rule event) eqn:Hc.
    + rewrite (Hx eq_refl). rewrite IH by assumption. unfold callback_buildReport.
      cbn [map fst snd]. now rewrite <- app_assoc.
    + now apply IH.
Qed.



Lemma flat_map_notified_false rs events :
  flat_map (notified false rs) events = [].
Proof. induction events as [|e events IH]; [reflexivity|exact IH]. Qed.


End DriverComposition.

(* ================================================================== *)
(** * The compiler beyond boolean conditions *)

(** X1: every condition without an aggregation or near clause
    compiles, quantifiers included, and the predicate gives the value
    of the expression under the precedence NOT > AND > OR, each
    [x of y] atom being the x-of resolver called with the count (none
    for [all]) and the text of [y]. *)
Theorem clause_free_condition_compiles
        {Signature Event : Type}
        (match_search_id : Signature -> Event -> string -> bool)
        (analyze_x_of : Signature -> Event -> option Z -> option string -> bool)
        (c : condition) (l r : nat) :
  has_clause c = false -> well_formed c = true ->
  exists p,
    prepare_condition match_search_id analyze_x_of
                      (RawStr (Str.spaces l ++ render c ++ Str.spaces r))
    = Ok (VFun p)
    /\ forall signature event,
         p signature event
         = eval (match_search_id signature event)
                (fun x y => analyze_x_of signature event (count_of x) (selector_of y))
                c.
Proof.
  intros Hc Hwf.
  pose proof (prepare_condition_reads match_search_id analyze_x_of c l r Hwf) as H.
  rewrite (has_clause_none c Hc) in H. exact H.
Qed.

Lemma clause_free_condition_compiles_witness :
  exists p,
    prepare_condition BlocksExample.match_search_id BlocksExample.analyze_x_of
      (RawStr (Str.spaces 1
               ++ render (CAnd Lower 0 0 (CSearch "selection")
                               (CNot Lower 0 (CXOf (XNumber "2") (YPattern "filter*"))))
               ++ Str.spaces 0))
    = Ok (VFun p)
    /\ forall signature event,
         p signature event
         = eval (BlocksExample.match_search_id signature event)
                (fun x y => BlocksExample.analyze_x_of signature event
                              (count_of x) (selector_of y))
                (CAnd Lower 0 0 (CSearch "selection")
                      (CNot Lower 0 (CXOf (XNumber "2") (YPattern "filter*")))).
Proof.
  apply (clause_free_condition_compiles
           BlocksExample.match_search_id BlocksExample.analyze_x_of
           (CAnd Lower 0 0 (CSearch "selection")
                 (CNot Lower 0 (CXOf (XNumber "2") (YPattern "filter*")))) 1 0);
    reflexivity.
Defined.

(** X2: the count of [N of y] reaches the x-of resolver as an integer
    that is at least 1: a NUMBER starts with a digit other than 0, so
    [int] neither fails on it nor gives 0. *)
Theorem counted_quantifier_is_at_least_one
        {Signature Event : Type}
        (match_search_id : Signature -> Event -> string -> bool)
        (analyze_x_of : Signature -> Event -> option Z -> option string -> bool)
        (digits : string) (y : selector) :
  valid_number digits = true -> valid_y y = true ->
  exists p n,
    prepare_condition match_search_id analyze_x_of
                      (RawStr (digits ++ " of " ++ render_y y))
    = Ok (VFun p)
    /\ int digits = Ok n /\ (1 <= n)%Z
    /\ forall signature event,
         p signature event = analyze_x_of signature event (Some n) (selector_of y).
Proof.
  intros Hd Hy.
  pose proof (prepare_condition_reads match_search_id analyze_x_of
                                      (CXOf (XNumber digits) y) 0 0) as H.
  cbn [first_clause well_formed valid_x] in H. rewrite Hd, Hy in H.
  destruct (H eq_refl) as (p & Hp & Ha).
  destruct (int_valid_number digits Hd) as (n & Hn).
  exists p, n. split.
  - cbn [Str.spaces render render_x] in Hp. rewrite append_nil_r in Hp. exact Hp.
  - split; [exact Hn|]. split; [exact (int_valid_number_positive digits n Hd Hn)|].
    intros signature event. rewrite Ha. unfold Reading.denote.
    cbn [eval count_of]. now rewrite Hn.
Qed.

Lemma counted_quantifier_is_at_least_one_witness :
  exists p n,
    prepare_condition BlocksExample.match_search_id BlocksExample.analyze_x_of
                      (RawStr ("12" ++ " of " ++ render_y (YPattern "sel*")))
    = Ok (VFun p)
    /\ int "12" = Ok n /\ (1 <= n)%Z
    /\ forall signature event,
         p signature event
         = BlocksExample.analyze_x_of signature event (Some n)
                                      (selector_of (YPattern "sel*")).
Proof.
  apply (counted_quantifier_is_at_least_one
           BlocksExample.match_search_id BlocksExample.analyze_x_of
           "12" (YPattern "sel*")); reflexivity.
Defined.

(** X3: a list of fragments, each a condition of its own without an
    aggregation or near clause, compiles to the disjunction of its
    fragments: the predicate holds exactly when one of the fragments
    does. *)
Theorem fragment_list_is_the_disjunction
        {Signature Event : Type}
        (match_search_id : Signature -> Event -> string -> bool)
        (analyze_x_of : Signature -> Event -> option Z -> option string -> bool)
        (c : condition) (ds : list condition) :
  forallb well_formed (c :: ds) = true ->
  forallb (fun d => negb (has_clause d)) (c :: ds) = true ->
  exists p,
    prepare_condition match_search_id analyze_x_of (RawList (map render (c :: ds)))
    = Ok (VFun p)
    /\ forall signature event,
         p signature event
         = existsb (eval (match_search_id signature event)
                         (fun x y => analyze_x_of signature event
                                       (count_of x) (selector_of y)))
                   (c :: ds).
Proof.
  intros Hwf Hcl.
  destruct (any_of_reads match_search_id analyze_x_of c ds Hwf Hcl)
    as (p & Hp & Ha).
  exists p. split; [exact Hp|]. intros signature event. rewrite Ha.
  unfold Reading.denote, any_of. rewrite eval_any_of_from. reflexivity.
Qed.

Lemma fragment_list_is_the_disjunction_witness :
  exists p,
    prepare_condition BlocksExample.match_search_id BlocksExample.analyze_x_of
      (RawList (map render [CAnd Lower 0 0 (CSearch "a") (CSearch "b");
                            CXOf XAll (YPattern "sel*");
                            CNot Upper 0 (CSearch "c")]))
    = Ok (VFun p)
    /\ forall signature event,
         p signature event
         = existsb (eval (BlocksExample.match_search_id signature event)
                         (fun x y => BlocksExample.analyze_x_of signature event
                                       (count_of x) (selector_of y)))
                   [CAnd Lower 0 0 (CSearch "a") (CSearch "b");
                    CXOf XAll (YPattern "sel*");
                    CNot Upper 0 (CSearch "c")].
Proof.
  apply (fragment_list_is_the_disjunction
           BlocksExample.match_search_id BlocksExample.analyze_x_of
           (CAnd Lower 0 0 (CSearch "a") (CSearch "b"))
           [CXOf XAll (YPattern "sel*"); CNot Upper 0 (CSearch "c")]);
    reflexivity.
Defined.

(** C6: for every non-empty list of fragments, each a condition of
    its own that compiles, the list and the one text in which every
    fragment stands in parentheses and the fragments are joined with
    OR compile to the same predicate, which holds on a rule and an
    event exactly when one of the fragments does. *)
Theorem fragments_compile_as_parenthesised_or
        {Signature Event : Type}
        (match_search_id : Signature -> Event -> string -> bool)
        (analyze_x_of : Signature -> Event -> option Z -> option string -> bool)
        (c : condition) (ds : list condition) :
  forallb well_formed (c :: ds) = true ->
  forallb (fun d => negb (has_clause d)) (c :: ds) = true ->
  exists p,
    prepare_condition match_search_id analyze_x_of (RawList (map render (c :: ds)))
    = Ok (VFun p)
    /\ prepare_condition match_search_id analyze_x_of
                         (RawStr (parenthesised_or (map render (c :: ds))))
       = Ok (VFun p)
    /\ forall signature event,
         p signature event
         = existsb (eval (match_search_id signature event)
                         (fun x y => analyze_x_of signature event
                                       (count_of x) (selector_of y)))
                   (c :: ds).
Proof.
  intros Hwf Hcl.
  destruct (any_of_reads match_search_id analyze_x_of c ds Hwf Hcl)
    as (p & Hp & Ha).
  exists p. split; [exact Hp|]. split.
  - rewrite <- join_parenthesised by discriminate. exact Hp.
  - intros signature event. rewrite Ha.
    unfold Reading.denote, any_of. rewrite eval_any_of_from. reflexivity.
Qed.

Lemma fragments_compile_as_parenthesised_or_witness :
  parenthesised_or (map render [CSearch "a"; CSearch "b"]) = "(a) or (b)"
  /\ exists p,
       prepare_condition BlocksExample.match_search_id BlocksExample.analyze_x_of
                         (RawList (map render [CSearch "a"; CSearch "b"]))
       = Ok (VFun p)
       /\ prepare_condition BlocksExample.match_search_id BlocksExample.analyze_x_of
            (RawStr (parenthesised_or (map render [CSearch "a"; CSearch "b"])))
          = Ok (VFun p)
       /\ forall signature event,
            p signature event
            = existsb (eval (BlocksExample.match_search_id signature event)
                            (fun x y => BlocksExample.analyze_x_of signature event
                                          (count_of x) (selector_of y)))
                      [CSearch "a"; CSearch "b"].
Proof.
  split; [reflexivity|].
  apply (fragments_compile_as_parenthesised_or
           BlocksExample.match_search_id BlocksExample.analyze_x_of
           (CSearch "a") [CSearch "b"]); reflexivity.
Defined.

(* ================================================================== *)
(** * The compiler on arbitrary texts *)

(** X4: a condition, or a list of fragments, that holds a character
    other than a letter, a digit, [_], [*], a blank or a parenthesis
    never compiles: [prepare_condition] fails with a syntax error or
    with [UnsupportedFeature].  The pipe is such a character: no text
    with an aggregation compiles, grammatical or not. *)
Theorem foreign_character_is_refused
        {Signature Event : Type}
        (match_search_id : Signature -> Event -> string -> bool)
        (analyze_x_of : Signature -> Event -> option Z -> option string -> bool)
        (raw : raw_condition) :
  forallb (Str.forallb is_condition_char) (fragments raw) = false ->
  exists e,
    prepare_condition match_search_id analyze_x_of raw = Err e
    /\ (e = UnexpectedInput \/ exists m, e = UnsupportedFeature m).
Proof.
  intros H. apply prepare_condition_refuses_unclean. intros [Hc _]. congruence.
Qed.

Lemma foreign_character_is_refused_witness :
  exists e,
    prepare_condition BlocksExample.match_search_id BlocksExample.analyze_x_of
                      (RawList ["selection"; "not filter-1"])
    = Err e
    /\ (e = UnexpectedInput \/ exists m, e = UnsupportedFeature m).
Proof.
  apply (foreign_character_is_refused
           BlocksExample.match_search_id BlocksExample.analyze_x_of
           (RawList ["selection"; "not filter-1"])).
  reflexivity.
Defined.

(** X5: a condition whose opening and closing parentheses differ in
    number, counted over all the fragments of a list, never compiles. *)
Theorem unbalanced_parentheses_are_refused
        {Signature Event : Type}
        (match_search_id : Signature -> Event -> string -> bool)
        (analyze_x_of : Signature -> Event -> option Z -> option string -> bool)
        (raw : raw_condition) :
  list_sum (map (occurrences "(") (fragments raw))
  <> list_sum (map (occurrences ")") (fragments raw)) ->
  exists e,
    prepare_condition match_search_id analyze_x_of raw = Err e
    /\ (e = UnexpectedInput \/ exists m, e = UnsupportedFeature m).
Proof.
  intros H. apply prepare_condition_refuses_unclean. intros [_ Hb]. congruence.
Qed.

Lemma unbalanced_parentheses_are_refused_witness :
  exists e,
    prepare_condition BlocksExample.match_search_id BlocksExample.analyze_x_of
                      (RawStr "(a or b) and (c or d")
    = Err e
    /\ (e = UnexpectedInput \/ exists m, e = UnsupportedFeature m).
Proof.
  apply (unbalanced_parentheses_are_refused
           BlocksExample.match_search_id BlocksExample.analyze_x_of
           (RawStr "(a or b) and (c or d")).
  cbn. lia.
Defined.

(** X6: a condition made of blanks only, the empty string included,
    is a syntax error. *)
Theorem blank_condition_is_a_syntax_error
        {Signature Event : Type}
        (match_search_id : Signature -> Event -> string -> bool)
        (analyze_x_of : Signature -> Event -> option Z -> option string -> bool)
        (n : nat) :
  prepare_condition match_search_id analyze_x_of (RawStr (Str.spaces n))
  = Err UnexpectedInput.
Proof.
  cbn [prepare_condition]. rewrite <- (append_nil_r (Str.spaces n)).
  now rewrite parse_spaces.
Qed.

(** X7: blanks before a condition change nothing, whatever the
    condition: the same predicate or the same failure. *)
Theorem leading_blanks_are_ignored
        {Signature Event : Type}
        (match_search_id : Signature -> Event -> string -> bool)
        (analyze_x_of : Signature -> Event -> option Z -> option string -> bool)
        (n : nat) (text : string) :
  prepare_condition match_search_id analyze_x_of (RawStr (Str.spaces n ++ text))
  = prepare_condition match_search_id analyze_x_of (RawStr text).
Proof. cbn [prepare_condition]. apply parse_spaces. Qed.

(* ================================================================== *)
(** * The driver, rule by rule and pass by pass *)

Section EvaluationFacts.

Context {RawEvent Event Signature Timeframe TimedEvent : Type}.
Variable prepare_event_log : RawEvent -> Event.
Variable get_condition : Signature -> Signature -> Event -> bool.
Variable get_timeframe : Signature -> option Timeframe.
Variable description : Signature -> string.
Variable level : Signature -> string.
Variable file_name : Signature -> string.
Variable check_timeframe :
  Signature -> string -> list TimedEvent -> Event -> list (Alert Event) ->
  list TimedEvent * list (Alert Event).

Local Abbreviation check_event :=
  (check_event prepare_event_log get_condition get_timeframe description level
               file_name check_timeframe).
Local Abbreviation check_events :=
  (check_events prepare_event_log get_condition get_timeframe description level
                file_name check_timeframe).

(** X8: the rules whose condition does not hold on the event play no
    part in [check_event], whatever the correlator: the alerts are
    those of the registry restricted to the rules that match, in the
    same order. *)
Theorem check_event_skips_the_rules_that_do_not_match
        (raw_event : RawEvent) (rules : Dict.t Signature) :
  check_event raw_event rules
  = check_event raw_event
      (filter (fun entry => get_condition (snd entry) (snd entry)
                                          (prepare_event_log raw_event))
              rules).
Proof.
  unfold Driver.check_event. cbv zeta.
  now rewrite (check_event_from_matching get_condition get_timeframe description
                 level file_name check_timeframe).
Qed.

(** X9: when no rule that matches the event has a timeframe,
    [check_event] returns one alert for each rule that matches, in the
    order of the registry, carrying the key of the rule, its
    description, level and file name, and the normalised event. *)
Theorem rules_without_timeframe_alert_in_registry_order
        (raw_event : RawEvent) (rules : Dict.t Signature) :
  Forall (fun entry =>
            get_condition (snd entry) (snd entry) (prepare_event_log raw_event) = true ->
            get_timeframe (snd entry) = None)
         rules ->
  check_event raw_event rules
  = map (fun entry => mkAlert (fst entry) (description (snd entry))
                              (prepare_event_log raw_event)
                              (level (snd entry)) (file_name (snd entry)))
        (filter (fun entry => get_condition (snd entry) (snd entry)
                                            (prepare_event_log raw_event))
                rules).
Proof.
  intros H. unfold Driver.check_event. cbv zeta.
  now rewrite (check_event_from_plain get_condition get_timeframe description
                 level file_name check_timeframe _ _ [] [] H).
Qed.

(** X10: a pass over two batches of events, one after the other, is
    the pass over the first batch followed by the pass over the second
    on the instance the first one left: the alerts and the calls of
    the callback are those of the two passes, in that order. *)
Theorem check_events_composes
        (self : PySigma) (first second : list RawEvent) :
  exists p1 p2 p,
    check_events self first = Some p1
    /\ check_events (self_after p1) second = Some p2
    /\ check_events self (first ++ second)%list = Some p
    /\ all_alerts p = (all_alerts p1 ++ all_alerts p2)%list
    /\ callback_calls p = (callback_calls p1 ++ callback_calls p2)%list
    /\ self_after p = self_after p2.
Proof.
  do 3 eexists. split; [apply check_events_pass|].
  split; [apply check_events_pass|]. split; [apply check_events_pass|].
  cbn [all_alerts callback_calls self_after rules callback].
  rewrite purged_idempotent, !flat_map_app. repeat split.
Qed.


End EvaluationFacts.

Section Registry.

Context {RawEvent Event Signature Timeframe TimedEvent : Type}.
Variable prepare_event_log : RawEvent -> Event.
Variable get_condition : Signature -> Signature -> Event -> bool.
Variable get_timeframe : Signature -> option Timeframe.
Variable title : Signature -> string.
Variable description : Signature -> string.
Variable level : Signature -> string.
Variable file_name : Signature -> string.
Variable check_timeframe :
  Signature -> string -> list TimedEvent -> Event -> list (Alert Event) ->
  list TimedEvent * list (Alert Event).

Local Abbreviation check_events :=
  (check_events prepare_event_log get_condition get_timeframe description level
                file_name check_timeframe).

(** X12: a rule added under one of the two forbidden titles has no
    effect on any later pass: the alerts, the calls of the callback
    and the instance the pass leaves are those of the pass without
    the rule. *)
Theorem forbidden_title_has_no_effect
        (self : PySigma) (signature : Signature) (events : list RawEvent) :
  In (title signature) forbidden_rules ->
  exists self',
    add_signature title self (Ok signature) = Ok self'
    /\ check_events self' events = check_events self events.
Proof.
  intros Hin. eexists. split; [reflexivity|].
  rewrite !check_events_pass. cbn [rules callback].
  now rewrite (purged_set_forbidden _ _ _ _ Hin).
Qed.

(** X13: the registry holds every rule under its own title and no
    title twice, and [add_signature], [register_callback] and
    [check_events] keep it so. *)
Theorem rules_stand_under_their_title (self : PySigma) :
  titled title (rules self) ->
  (forall signature, exists self',
      add_signature title self (Ok signature) = Ok self'
      /\ titled title (rules self'))
  /\ (forall c, titled title (rules (register_callback self c)))
  /\ (forall events, exists p,
        check_events self events = Some p
        /\ titled title (rules (self_after p))).
Proof.
  intros H. split; [|split].
  - intros signature. eexists. split; [reflexivity|]. cbn [rules].
    now apply titled_set.
  - intros c. exact H.
  - intros events. eexists. split; [apply check_events_pass|].
    cbn [self_after rules]. now apply titled_purged.
Qed.

End Registry.

Section LogfileFacts.

Context {Path RawEvent Event Signature Timeframe TimedEvent : Type}.
Variable load_events : Path -> option (list RawEvent).
Variable prepare_event_log : RawEvent -> Event.
Variable get_condition : Signature -> Signature -> Event -> bool.
Variable get_timeframe : Signature -> option Timeframe.
Variable description : Signature -> string.
Variable level : Signature -> string.
Variable file_name : Signature -> string.
Variable check_timeframe :
  Signature -> string -> list TimedEvent -> Event -> list (Alert Event) ->
  list TimedEvent * list (Alert Event).

Local Abbreviation check_logfile :=
  (check_logfile load_events prepare_event_log get_condition get_timeframe
                 description level file_name check_timeframe).

(** X14: [check_logfile] drops the alerts of its pass: on an instance
    without a callback, whatever events the file holds, all the call
    leaves is the registry without the two forbidden titles. *)
Theorem check_logfile_without_callback_loses_the_alerts
        (self : PySigma) (logfile_path : Path) (events : list RawEvent) :
  callback self = false ->
  load_events logfile_path = Some events ->
  check_logfile self logfile_path
  = Some ([], mkPySigma (purged forbidden_rules (rules self)) false).
Proof.
  intros Hc Hl. unfold Logfile.check_logfile, build_sysmon_events. cbv zeta.
  rewrite Hl, check_events_pass. cbn [callback_calls self_after]. rewrite Hc.
  now rewrite flat_map_notified_false.
Qed.

End LogfileFacts.

Lemma rules_without_timeframe_alert_in_registry_order_witness :
  check_event LevelsExample.prepare_event_log LevelsExample.get_condition
              LevelsExample.get_timeframe LevelsExample.description
              LevelsExample.level LevelsExample.file_name
              LevelsExample.check_timeframe 8 (rules LevelsExample.sigma)
  = map (fun entry => mkAlert (fst entry) (LevelsExample.description (snd entry))
                              (LevelsExample.prepare_event_log 8)
                              (LevelsExample.level (snd entry))
                              (LevelsExample.file_name (snd entry)))
        (filter (fun entry => LevelsExample.get_condition
                                (snd entry) (snd entry)
                                (LevelsExample.prepare_event_log 8))
                (rules LevelsExample.sigma)).
Proof.
  apply (rules_without_timeframe_alert_in_registry_order
           LevelsExample.prepare_event_log LevelsExample.get_condition
           LevelsExample.get_timeframe LevelsExample.description
           LevelsExample.level LevelsExample.file_name
           LevelsExample.check_timeframe 8 (rules LevelsExample.sigma)).
  repeat constructor.
Defined.

Lemma forbidden_title_has_no_effect_witness :
  exists self',
    add_signature LevelsExample.title LevelsExample.sigma (Ok LevelsExample.outlook)
    = Ok self'
    /\ check_events LevelsExample.prepare_event_log LevelsExample.get_condition
                    LevelsExample.get_timeframe LevelsExample.description
                    LevelsExample.level LevelsExample.file_name
                    LevelsExample.check_timeframe self' [7; 8]
       = check_events LevelsExample.prepare_event_log LevelsExample.get_condition
                      LevelsExample.get_timeframe LevelsExample.description
                      LevelsExample.level LevelsExample.file_name
                      LevelsExample.check_timeframe LevelsExample.sigma [7; 8].
Proof.
  apply (forbidden_title_has_no_effect
           LevelsExample.prepare_event_log LevelsExample.get_condition
           LevelsExample.get_timeframe LevelsExample.title
           LevelsExample.description LevelsExample.level LevelsExample.file_name
           LevelsExample.check_timeframe LevelsExample.sigma LevelsExample.outlook
           [7; 8]).
  simpl. auto.
Defined.

Lemma levels_example_titled :
  titled LevelsExample.title (rules LevelsExample.sigma).
Proof.
  split.
  - repeat constructor; simpl; intuition discriminate.
  - repeat constructor.
Defined.

Lemma rules_stand_under_their_title_witness :
  (forall signature, exists self',
      add_signature LevelsExample.title LevelsExample.sigma (Ok signature) = Ok self'
      /\ titled LevelsExample.title (rules self'))
  /\ (forall c,
        titled LevelsExample.title (rules (register_callback LevelsExample.sigma c)))
  /\ (forall events, exists p,
        check_events LevelsExample.prepare_event_log LevelsExample.get_condition
                     LevelsExample.get_timeframe LevelsExample.description
                     LevelsExample.level LevelsExample.file_name
                     LevelsExample.check_timeframe LevelsExample.sigma events
        = Some p
        /\ titled LevelsExample.title (rules (self_after p))).
Proof.
  apply (rules_stand_under_their_title
           LevelsExample.prepare_event_log LevelsExample.get_condition
           LevelsExample.get_timeframe LevelsExample.title
           LevelsExample.description LevelsExample.level LevelsExample.file_name
           LevelsExample.check_timeframe LevelsExample.sigma).
  exact levels_example_titled.
Defined.

Lemma check_logfile_without_callback_loses_the_alerts_witness :
  check_logfile LevelsExample.load_events LevelsExample.prepare_event_log
                LevelsExample.get_condition LevelsExample.get_timeframe
                LevelsExample.description LevelsExample.level
                LevelsExample.file_name LevelsExample.check_timeframe
                LevelsExample.sigma "sysmon.xml"
  = Some ([], mkPySigma (purged forbidden_rules (rules LevelsExample.sigma)) false).
Proof.
  apply (check_logfile_without_callback_loses_the_alerts
           LevelsExample.load_events LevelsExample.prepare_event_log
           LevelsExample.get_condition LevelsExample.get_timeframe
           LevelsExample.description LevelsExample.level
           LevelsExample.file_name LevelsExample.check_timeframe
           LevelsExample.sigma "sysmon.xml" [7; 8]); reflexivity.
Defined.
